(** * caddy-ip-list: the [http.ip_sources.list] module

    A shallow embedding of the module's Go source (the [URLIPRange]
    type and its methods) and the properties of its specification.

    Conventions of the embedding.
    - A Go [string] is a byte string: Rocq's [string], one [ascii] per byte.
    - A Go [error] value is a term of [error]; the [nil] error is [None].
    - A Go function returning [(T, error)] returns [result T].
    - Go's [int] is modelled by [Z]; the loop counter of [fetch] stays
      between [0] and [Retries + 1].
    - The outside world (HTTP peers, the file system, the clock, the
      logger) is an explicit [World] threaded through every method.
    - Functions of libraries the module calls and whose text is not part
      of the module (netip, encoding/json, caddy.ParseDuration, fmt.Sscanf)
      are parameters of the development. *)

From Stdlib Require Import ZArith NArith List String Ascii Bool Lia.
From stdpp Require Import base gmap strings.
Import ListNotations.

Local Open Scope string_scope.
Local Open Scope list_scope.

(** ** Errors and results *)

#[warnings="-register-all"]
Inductive error : Type :=
| ErrLib (msg : string)
    (* an error value produced by a library or by the operating system *)
| ErrTooLong
    (* bufio.ErrTooLong *)
| ErrNotExist (path : string)
    (* os.Open on a path that does not exist *)
| ErrHTTPStatus (api : string) (status : Z)
    (* fmt.Errorf("fetch %s returned HTTP %d", api, resp.StatusCode) *)
| ErrAfterRetries (retries : Z) (lastErr : option error)
    (* fmt.Errorf("after %d retries: %w", s.Retries, lastErr) *)
| ErrInvalidCached (p : string) (inner : error)
    (* fmt.Errorf("invalid prefix in cache %q: %w", p, err) *)
| ErrProvision (fetchErr cacheErr : error)
    (* fmt.Errorf("failed to fetch initial IP ranges and no cache
       available: fetch error: %v, cache error: %v", err, cacheErr) *)
| ErrArg
    (* d.ArgErr() *)
| ErrInvalidRetries (val : string).
    (* fmt.Errorf("invalid retries value: %s", d.Val()) *)

Inductive result (A : Type) : Type :=
| Ok (a : A)
| Err (e : error).
Arguments Ok {A} a.
Arguments Err {A} e.

Definition is_Ok {A} (r : result A) : bool :=
  match r with Ok _ => true | Err _ => false end.

(** ** Byte strings: the functions of package [strings] and [bufio] used *)

Definition LF : ascii := "010"%char.
Definition CR : ascii := "013"%char.

Definition byte (c : ascii) : N := N_of_ascii c.

(** [strings.Index(s, "#")] for a one-byte needle: the index of the first
    occurrence, or [-1]. *)
Fixpoint IndexByte (s : string) (c : ascii) : Z :=
  match s with
  | EmptyString => -1
  | String a rest =>
      if Ascii.eqb a c then 0
      else let i := IndexByte rest c in
           if (i <? 0)%Z then -1 else (i + 1)%Z
  end.

(** The slice expression [s[:n]]. *)
Definition slice_to (s : string) (n : Z) : string :=
  substring 0 (Z.to_nat n) s.

(** [unicode.IsSpace] on the UTF-8 encoding of one rune.
    [space_rune_len s] is the number of bytes of the white space rune
    that [s] starts with, and [0] when [s] does not start with one. *)
Definition is_space1 (b : N) : bool :=
  ((9 <=? b) && (b <=? 13) || (b =? 32))%N.

Definition is_space2 (b0 b1 : N) : bool :=
  ((b0 =? 194) && ((b1 =? 133) || (b1 =? 160)))%N.
    (* U+0085, U+00A0 *)

Definition is_space3 (b0 b1 b2 : N) : bool :=
  ((b0 =? 225) && (b1 =? 154) && (b2 =? 128)              (* U+1680 *)
   || (b0 =? 226) && (b1 =? 128) &&
        ((128 <=? b2) && (b2 <=? 138)                     (* U+2000..U+200A *)
         || (b2 =? 168) || (b2 =? 169) || (b2 =? 175))    (* U+2028 U+2029 U+202F *)
   || (b0 =? 226) && (b1 =? 129) && (b2 =? 159)           (* U+205F *)
   || (b0 =? 227) && (b1 =? 128) && (b2 =? 128))%N.       (* U+3000 *)

Definition space_rune_len (s : list ascii) : nat :=
  match s with
  | c0 :: c1 :: c2 :: _ =>
      if is_space1 (byte c0) then 1
      else if is_space2 (byte c0) (byte c1) then 2
      else if is_space3 (byte c0) (byte c1) (byte c2) then 3 else 0
  | [c0; c1] =>
      if is_space1 (byte c0) then 1
      else if is_space2 (byte c0) (byte c1) then 2 else 0
  | [c0] => if is_space1 (byte c0) then 1 else 0
  | [] => 0
  end%nat.

(** The same test on the bytes read backwards from the end of a string. *)
Definition space_rune_len_rev (s : list ascii) : nat :=
  match s with
  | c2 :: c1 :: c0 :: _ =>
      if is_space1 (byte c2) then 1
      else if is_space2 (byte c1) (byte c2) then 2
      else if is_space3 (byte c0) (byte c1) (byte c2) then 3 else 0
  | [c1; c0] =>
      if is_space1 (byte c1) then 1
      else if is_space2 (byte c0) (byte c1) then 2 else 0
  | [c0] => if is_space1 (byte c0) then 1 else 0
  | [] => 0
  end%nat.

Fixpoint trim_with (len : list ascii -> nat) (fuel : nat) (s : list ascii)
  : list ascii :=
  match fuel with
  | O => s
  | S fuel' =>
      match len s with
      | O => s
      | n => trim_with len fuel' (skipn n s)
      end
  end.

Definition TrimLeftSpace (s : list ascii) : list ascii :=
  trim_with space_rune_len (length s) s.

Definition TrimRightSpace (s : list ascii) : list ascii :=
  rev_append (trim_with space_rune_len_rev (length s) (rev_append s [])) [].

(** [strings.TrimSpace]. *)
Definition TrimSpace (s : string) : string :=
  string_of_list_ascii
    (TrimRightSpace (TrimLeftSpace (list_ascii_of_string s))).

(** [bufio.Scanner] with the default split function [bufio.ScanLines]
    and the default buffer: lines end at a line feed, one trailing
    carriage return is dropped, a last line without line feed is
    delivered when it is not empty, and scanning stops with [ErrTooLong]
    when [MaxScanTokenSize] bytes are buffered without a line feed.
    (A last line of exactly [MaxScanTokenSize] bytes without line feed
    is refused here as well; Go delivers it when the reader reports the
    end of the input together with the last bytes.) *)
Definition MaxScanTokenSize : Z := 65536.

Definition dropCR (rev_line : list ascii) : list ascii :=
  match rev_line with
  | c :: rest => if Ascii.eqb c CR then rest else rev_line
  | [] => []
  end.

Definition token (rev_line : list ascii) : string :=
  string_of_list_ascii (rev_append (dropCR rev_line) []).

Fixpoint scan_from (data : list ascii) (cur : list ascii) (n : Z)
  : list string * option error :=
  match data with
  | [] => (match cur with [] => [] | _ => [token cur] end, None)
  | c :: rest =>
      if Ascii.eqb c LF then
        let '(ts, e) := scan_from rest [] 0%Z in (token cur :: ts, e)
      else if (MaxScanTokenSize <=? n + 1)%Z then ([], Some ErrTooLong)
      else scan_from rest (c :: cur) (n + 1)%Z
  end.

(** A response body as the scanner sees it: the bytes that arrive, and
    the read error (if any) that ends them instead of end-of-file. *)
Record Body : Type := mkBody {
  body_bytes : string;
  body_readErr : option error
}.

(** The lines [scanner.Scan()]/[scanner.Text()] deliver, in order, and
    the final value of [scanner.Err()]. *)
Definition Scan (b : Body) : list string * option error :=
  let '(ts, e) := scan_from (list_ascii_of_string (body_bytes b)) [] 0%Z in
  (ts, match e with Some _ => e | None => body_readErr b end).

(** ** The outside world *)

(** What [http.DefaultClient.Do] gives back for one request. *)
Inductive do_outcome : Type :=
| DoError (e : error)
| DoResponse (status : Z) (body : Body).

(** The part of the world the module cannot change. *)
Record Env : Type := mkEnv {
  env_newRequest : string -> option error;
    (* the error of http.NewRequestWithContext for a URL, if any *)
  env_http : string -> nat -> do_outcome;
    (* the outcome of the n-th request (from 0) sent to a URL *)
  env_appDataDir : string
    (* caddy.AppDataDir() *)
}.

Record World : Type := mkWorld {
  w_env : Env;
  w_requests : list string;      (* URLs requested so far, oldest first *)
  w_clock : Z;                   (* seconds *)
  w_files : gmap string string;  (* regular files and their bytes *)
  w_dirs : list string;          (* directories os.MkdirAll was asked for *)
  w_faults : list (option error);
    (* injected I/O faults: every file system call takes the head *)
  w_warnings : list string;      (* s.log.Warn messages, oldest first *)
  w_refreshLoops : nat           (* refresh goroutines started *)
}.

Definition set_requests (w : World) (r : list string) : World :=
  mkWorld (w_env w) r (w_clock w) (w_files w) (w_dirs w) (w_faults w)
          (w_warnings w) (w_refreshLoops w).
Definition set_clock (w : World) (t : Z) : World :=
  mkWorld (w_env w) (w_requests w) t (w_files w) (w_dirs w) (w_faults w)
          (w_warnings w) (w_refreshLoops w).
Definition set_files (w : World) (f : gmap string string) : World :=
  mkWorld (w_env w) (w_requests w) (w_clock w) f (w_dirs w) (w_faults w)
          (w_warnings w) (w_refreshLoops w).
Definition set_dirs (w : World) (d : list string) : World :=
  mkWorld (w_env w) (w_requests w) (w_clock w) (w_files w) d (w_faults w)
          (w_warnings w) (w_refreshLoops w).
Definition set_faults (w : World) (f : list (option error)) : World :=
  mkWorld (w_env w) (w_requests w) (w_clock w) (w_files w) (w_dirs w) f
          (w_warnings w) (w_refreshLoops w).
Definition set_warnings (w : World) (l : list string) : World :=
  mkWorld (w_env w) (w_requests w) (w_clock w) (w_files w) (w_dirs w)
          (w_faults w) l (w_refreshLoops w).
Definition set_refreshLoops (w : World) (n : nat) : World :=
  mkWorld (w_env w) (w_requests w) (w_clock w) (w_files w) (w_dirs w)
          (w_faults w) (w_warnings w) n.

(** Number of requests already sent to [url]. *)
Definition requests_to (w : World) (url : string) : nat :=
  count_occ string_dec (w_requests w) url.

(** [http.DefaultClient.Do(req)]: the request is recorded and answered. *)
Definition http_Do (api : string) (w : World) : do_outcome * World :=
  (env_http (w_env w) api (requests_to w api),
   set_requests w (w_requests w ++ [api])).

(** [time.Sleep(1 * time.Second)] and [time.Now()]. *)
Definition time_Sleep1s (w : World) : World := set_clock w (w_clock w + 1)%Z.
Definition time_Now (w : World) : Z := w_clock w.

(** [s.log.Warn(msg, ...)]. *)
Definition log_Warn (msg : string) (w : World) : World :=
  set_warnings w (w_warnings w ++ [msg]).

(** *** File system calls

    Every call first takes the next injected fault; with no fault it
    has its normal effect. *)
Definition take_fault (w : World) : option error * World :=
  match w_faults w with
  | [] => (None, w)
  | f :: rest => (f, set_faults w rest)
  end.

Definition os_MkdirAll (dir : string) (w : World) : option error * World :=
  match take_fault w with
  | (Some e, w1) => (Some e, w1)
  | (None, w1) => (None, set_dirs w1 (w_dirs w1 ++ [dir]))
  end.

(** [os.OpenFile(path, O_CREATE|O_TRUNC|O_WRONLY, 0o644)]. *)
Definition os_OpenFile_trunc (path : string) (w : World)
  : option error * World :=
  match take_fault w with
  | (Some e, w1) => (Some e, w1)
  | (None, w1) => (None, set_files w1 (<[path := ""]> (w_files w1)))
  end.

(** Writing [data] to the file opened at [path]. *)
Definition file_Write (path data : string) (w : World)
  : option error * World :=
  match take_fault w with
  | (Some e, w1) => (Some e, w1)
  | (None, w1) => (None, set_files w1 (<[path := data]> (w_files w1)))
  end.

Definition file_Close (w : World) : option error * World := take_fault w.

Definition os_Remove (path : string) (w : World) : option error * World :=
  match take_fault w with
  | (Some e, w1) => (Some e, w1)
  | (None, w1) =>
      match w_files w1 !! path with
      | Some _ => (None, set_files w1 (delete path (w_files w1)))
      | None => (Some (ErrNotExist path), w1)
      end
  end.

Definition os_Rename (old new : string) (w : World) : option error * World :=
  match take_fault w with
  | (Some e, w1) => (Some e, w1)
  | (None, w1) =>
      match w_files w1 !! old with
      | Some data =>
          (None, set_files w1 (<[new := data]> (delete old (w_files w1))))
      | None => (Some (ErrNotExist old), w1)
      end
  end.

(** [os.Open(path)] followed by reading the whole file. *)
Definition os_Open (path : string) (w : World) : result string * World :=
  match take_fault w with
  | (Some e, w1) => (Err e, w1)
  | (None, w1) =>
      match w_files w1 !! path with
      | Some data => (Ok data, w1)
      | None => (Err (ErrNotExist path), w1)
      end
  end.

(** ** [crypto/sha256] and [encoding/hex] *)

Module sha256.

Local Open Scope Z_scope.

Definition w32 (x : Z) : Z := x mod 4294967296.
Definition add32 (x y : Z) : Z := w32 (x + y).
Definition rotr (n x : Z) : Z :=
  Z.lor (Z.shiftr x n) (w32 (Z.shiftl x (32 - n))).
Definition not32 (x : Z) : Z := Z.lxor x 4294967295.

Definition Ch (x y z : Z) : Z :=
  Z.lxor (Z.land x y) (Z.land (not32 x) z).
Definition Maj (x y z : Z) : Z :=
  Z.lxor (Z.lxor (Z.land x y) (Z.land x z)) (Z.land y z).
Definition Sigma0 (x : Z) : Z :=
  Z.lxor (Z.lxor (rotr 2 x) (rotr 13 x)) (rotr 22 x).
Definition Sigma1 (x : Z) : Z :=
  Z.lxor (Z.lxor (rotr 6 x) (rotr 11 x)) (rotr 25 x).
Definition sigma0 (x : Z) : Z :=
  Z.lxor (Z.lxor (rotr 7 x) (rotr 18 x)) (Z.shiftr x 3).
Definition sigma1 (x : Z) : Z :=
  Z.lxor (Z.lxor (rotr 17 x) (rotr 19 x)) (Z.shiftr x 10).

(** The constants, as FIPS 180-4 derives them: the first 32 bits of
    the fractional parts of the cube roots of the first 64 primes, and
    of the square roots of the first 8 primes. *)
Definition is_prime (n : Z) : bool :=
  forallb (fun d => negb (n mod Z.of_nat d =? 0)) (seq 2 (Z.to_nat n - 2)).

Definition primes (count : nat) : list Z :=
  firstn count (filter is_prime (map Z.of_nat (seq 2 400))).

(** The integer cube root, found bit by bit from bit 40 down. *)
Definition icbrt (n : Z) : Z :=
  fold_left (fun r b => let r' := r + 2 ^ Z.of_nat b in
                        if r' * r' * r' <=? n then r' else r)
            (rev (seq 0 41)) 0.

Definition K : list Z :=
  Eval vm_compute in map (fun p => w32 (icbrt (p * 2 ^ 96))) (primes 64).

Definition H0 : list Z :=
  Eval vm_compute in map (fun p => w32 (Z.sqrt (p * 2 ^ 64))) (primes 8).

(** Message padding: one [0x80] byte, zero bytes up to 56 modulo 64,
    then the bit length as 8 big-endian bytes. *)
Definition be_bytes (n : nat) (x : Z) : list Z :=
  map (fun i => Z.shiftr x (8 * Z.of_nat i) mod 256) (rev (seq 0 n)).

Definition pad (msg : list Z) : list Z :=
  let len := Z.of_nat (length msg) in
  let zeros := Z.to_nat ((55 - len) mod 64) in
  msg ++ [128] ++ repeat 0 zeros ++ be_bytes 8 (8 * len).

Fixpoint be_words (fuel : nat) (bs : list Z) : list Z :=
  match fuel, bs with
  | S fuel', b0 :: b1 :: b2 :: b3 :: rest =>
      (b0 * 16777216 + b1 * 65536 + b2 * 256 + b3) :: be_words fuel' rest
  | _, _ => []
  end.

(** The message schedule, newest word first. *)
Fixpoint schedule (n : nat) (w : list Z) : list Z :=
  match n with
  | O => w
  | S n' =>
      let x := add32 (add32 (sigma1 (nth 1 w 0)) (nth 6 w 0))
                     (add32 (sigma0 (nth 14 w 0)) (nth 15 w 0)) in
      schedule n' (x :: w)
  end.

Definition round (st : list Z) (kw : Z * Z) : list Z :=
  match st with
  | [a; b; c; d; e; f; g; h] =>
      let t1 := add32 (add32 (add32 h (Sigma1 e)) (Ch e f g))
                      (add32 (fst kw) (snd kw)) in
      let t2 := add32 (Sigma0 a) (Maj a b c) in
      [add32 t1 t2; a; b; c; add32 d t1; e; f; g]
  | _ => st
  end.

Definition compress (h : list Z) (block : list Z) : list Z :=
  let w := rev (schedule 48 (rev (be_words 16 block))) in
  let st := fold_left round (combine K w) h in
  map (fun p => add32 (fst p) (snd p)) (combine h st).

Fixpoint blocks (fuel : nat) (h : list Z) (bs : list Z) : list Z :=
  match fuel with
  | O => h
  | S fuel' =>
      match bs with
      | [] => h
      | _ => blocks fuel' (compress h (firstn 64 bs)) (skipn 64 bs)
      end
  end.

(** [sha256.Sum256]: the 32 bytes of the digest. *)
Definition Sum256 (data : string) : list Z :=
  let msg := map (fun c => Z.of_N (N_of_ascii c)) (list_ascii_of_string data) in
  let p := pad msg in
  flat_map (be_bytes 4) (blocks (length p) H0 p).

End sha256.

Module hex.

Definition digit (d : Z) : ascii :=
  ascii_of_N (Z.to_N (if (d <? 10)%Z then 48 + d else 87 + d)%Z).

(** [hex.EncodeToString]: two lower-case digits per byte. *)
Fixpoint EncodeToString (bs : list Z) : string :=
  match bs with
  | [] => ""
  | b :: rest =>
      String (digit (b / 16)%Z) (String (digit (b mod 16)%Z)
             (EncodeToString rest))
  end.

End hex.

(** ** [strings.Join] and [path/filepath] (Unix) *)

Fixpoint strings_Join (elems : list string) (sep : string) : string :=
  match elems with
  | [] => ""
  | [e] => e
  | e :: rest => e +:+ sep +:+ strings_Join rest sep
  end.

Module filepath.

Definition Separator : ascii := "/"%char.

(** The elements between separators, empty ones included. *)
Fixpoint split (s : string) (cur : string) : list string :=
  match s with
  | EmptyString => [cur]
  | String c rest =>
      if Ascii.eqb c Separator then cur :: split rest ""
      else split rest (cur +:+ String c "")
  end.

Definition rooted (path : string) : bool :=
  match path with
  | String c _ => Ascii.eqb c Separator
  | EmptyString => false
  end.

(** One element pushed on the cleaned elements seen so far (last
    element first). *)
Definition push (is_rooted : bool) (stack : list string) (e : string)
  : list string :=
  if String.eqb e "" || String.eqb e "." then stack
  else if String.eqb e ".." then
    match stack with
    | top :: rest => if String.eqb top ".." then e :: stack else rest
    | [] => if is_rooted then [] else [e]
    end
  else e :: stack.

(** [filepath.Clean]. *)
Definition Clean (path : string) : string :=
  let r := rooted path in
  let out :=
    strings_Join (rev (fold_left (push r) (split path "") [])) "/" in
  if r then String Separator out
  else if String.eqb out "" then "." else out.

(** [filepath.Join] of two elements. *)
Definition Join (a b : string) : string :=
  if String.eqb a "" then (if String.eqb b "" then "" else Clean b)
  else Clean (a +:+ "/" +:+ b).

(** The bytes of [path] up to and including its last separator. *)
Fixpoint upto_last_sep (path : string) : string :=
  match path with
  | EmptyString => ""
  | String c rest =>
      let r := upto_last_sep rest in
      if String.eqb r "" then
        (if Ascii.eqb c Separator then String c "" else "")
      else String c r
  end.

(** [filepath.Dir]. *)
Definition Dir (path : string) : string := Clean (upto_last_sep path).

End filepath.

(** ** Library functions the module calls *)

(** The JSON document of the cache file ([type cacheFileContents]).
    [UpdatedAt] is a [time.Time], here seconds since the Unix epoch. *)
Record cacheFileContents : Type := mkCacheFileContents {
  Prefixes : list string;
  UpdatedAt : Z
}.

Class GoLib : Type := {
  Prefix : Type;
    (* netip.Prefix *)
  CIDRExpressionToPrefix : string -> result Prefix;
    (* caddyhttp.CIDRExpressionToPrefix *)
  Prefix_String : Prefix -> string;
    (* netip.Prefix.String *)
  json_Encode : cacheFileContents -> result string;
    (* the bytes json.Encoder.Encode writes, with SetIndent("", "  ") *)
  json_Decode : string -> result cacheFileContents;
    (* json.Decoder.Decode into a cacheFileContents *)
  ParseDuration : string -> result Z;
    (* caddy.ParseDuration, in nanoseconds *)
  Sscanf_d : string -> result Z
    (* fmt.Sscanf(s, "%d", &n) *)
}.

(** ** The module *)

Section Methods.

Context `{GoLib}.

Local Open Scope Z_scope.

(** [type URLIPRange struct]. The fields [ctx], [lock] and [log] carry
    no data of their own: the context and the logger are part of the
    [World], and every method below runs atomically. *)
Record URLIPRange : Type := mkURLIPRange {
  URLs : list string;
  Interval : Z;
  Timeout : Z;
  Retries : Z;
  CacheFile : string;
  ranges : list Prefix
}.

Definition set_ranges (s : URLIPRange) (r : list Prefix) : URLIPRange :=
  mkURLIPRange (URLs s) (Interval s) (Timeout s) (Retries s) (CacheFile s) r.
Definition set_Interval (s : URLIPRange) (i : Z) : URLIPRange :=
  mkURLIPRange (URLs s) i (Timeout s) (Retries s) (CacheFile s) (ranges s).
Definition set_Timeout (s : URLIPRange) (t : Z) : URLIPRange :=
  mkURLIPRange (URLs s) (Interval s) t (Retries s) (CacheFile s) (ranges s).
Definition set_Retries (s : URLIPRange) (n : Z) : URLIPRange :=
  mkURLIPRange (URLs s) (Interval s) (Timeout s) n (CacheFile s) (ranges s).
Definition set_CacheFile (s : URLIPRange) (f : string) : URLIPRange :=
  mkURLIPRange (URLs s) (Interval s) (Timeout s) (Retries s) f (ranges s).
Definition set_URLs (s : URLIPRange) (u : list string) : URLIPRange :=
  mkURLIPRange u (Interval s) (Timeout s) (Retries s) (CacheFile s) (ranges s).

(** The zero value [URLIPRange{}]. *)
Definition zero_URLIPRange : URLIPRange := mkURLIPRange [] 0 0 0 "" [].

(** *** fetch *)

(** Lines 95-98: remove the comment of a line. *)
Definition stripComment (line : string) : string :=
  let idx := IndexByte line "#" in
  if negb (idx =? -1) then slice_to line idx else line.

(** The body of the scanning loop for one line (lines 93-115). *)
Inductive line_result : Type :=
| LineSkipped                   (* continue *)
| LinePrefix (p : Prefix)       (* prefixes = append(prefixes, prefix) *)
| LineError (e : error).        (* return nil, err *)

Definition parseLine (line : string) : line_result :=
  let line := stripComment line in
  let line := TrimSpace line in
  if String.eqb line "" then LineSkipped
  else match CIDRExpressionToPrefix line with
       | Err err => LineError err
       | Ok prefix => LinePrefix prefix
       end.

(** The scanning loop over the lines the scanner delivers. *)
Fixpoint scanLoop (lines : list string) (prefixes : list Prefix)
  : result (list Prefix) :=
  match lines with
  | [] => Ok prefixes
  | line :: rest =>
      match parseLine line with
      | LineSkipped => scanLoop rest prefixes
      | LineError err => Err err
      | LinePrefix prefix => scanLoop rest (prefixes ++ [prefix])
      end
  end.

(** The loop [for attempt := 0; attempt <= s.Retries; attempt++].
    [fuel] bounds the number of iterations left. *)
Fixpoint fetch_loop (s : URLIPRange) (api : string) (fuel : nat)
    (attempt : Z) (lastErr : option error) (w : World)
  : result (list Prefix) * World :=
  match fuel with
  | O => (Err (ErrAfterRetries (Retries s) lastErr), w)
  | S fuel' =>
      if attempt <=? Retries s then
        match env_newRequest (w_env w) api with
        | Some err =>
            (* lastErr = err; cancel(); break *)
            (Err (ErrAfterRetries (Retries s) (Some err)), w)
        | None =>
            let '(out, w1) := http_Do api w in
            (* the end of an iteration that did not return *)
            let next (lastErr' : option error) :=
              let w2 := if attempt <? Retries s then time_Sleep1s w1 else w1 in
              fetch_loop s api fuel' (attempt + 1) lastErr' w2 in
            match out with
            | DoError err => next (Some err)
            | DoResponse StatusCode body =>
                if (StatusCode <? 200) || (299 <? StatusCode) then
                  next (Some (ErrHTTPStatus api StatusCode))
                else
                  let '(lines, scanErr) := Scan body in
                  match scanLoop lines [] with
                  | Err err => (Err err, w1)
                  | Ok prefixes =>
                      match scanErr with
                      | Some e => next (Some e)
                      | None => (Ok prefixes, w1)
                      end
                  end
            end
        end
      else (Err (ErrAfterRetries (Retries s) lastErr), w)
  end.

Definition fetch (s : URLIPRange) (api : string) (w : World)
  : result (list Prefix) * World :=
  fetch_loop s api (Z.to_nat (Retries s + 1)) 0 None w.

(** *** The cache file *)

Definition cachePath (s : URLIPRange) (w : World) : result string :=
  if negb (String.eqb (CacheFile s) "") then Ok (CacheFile s)
  else
    let joined := strings_Join (URLs s) "|" in
    let sum := sha256.Sum256 joined in
    let name := "ip-list-cache-" +:+ hex.EncodeToString sum +:+ ".json" in
    let dir := env_appDataDir (w_env w) in
    let dir := if String.eqb dir "" then "." else dir in
    Ok (filepath.Join dir name).

(** The loop of [loadFromCache] over [contents.Prefixes]. *)
Fixpoint parseCached (ps : list string) (prefixes : list Prefix)
  : result (list Prefix) :=
  match ps with
  | [] => Ok prefixes
  | p :: rest =>
      match CIDRExpressionToPrefix p with
      | Err err => Err (ErrInvalidCached p err)
      | Ok prefix => parseCached rest (prefixes ++ [prefix])
      end
  end.

Definition loadFromCache (s : URLIPRange) (w : World)
  : result (list Prefix) * World :=
  match cachePath s w with
  | Err err => (Err err, w)
  | Ok path =>
      match os_Open path w with
      | (Err err, w1) => (Err err, w1)
      | (Ok data, w1) =>
          match json_Decode data with
          | Err err => (Err err, w1)
          | Ok contents => (parseCached (Prefixes contents) [], w1)
          end
      end
  end.

(** [enc.Encode(&contents)] on the file opened at [tmp]. *)
Definition Encode (tmp : string) (contents : cacheFileContents) (w : World)
  : option error * World :=
  match json_Encode contents with
  | Err err => (Some err, w)
  | Ok data => file_Write tmp data w
  end.

Definition saveToCache (s : URLIPRange) (prefixes : list Prefix) (w : World)
  : option error * World :=
  match cachePath s w with
  | Err err => (Some err, w)
  | Ok path =>
      match os_MkdirAll (filepath.Dir path) w with
      | (Some err, w1) => (Some err, w1)
      | (None, w1) =>
          let contents :=
            mkCacheFileContents (map Prefix_String prefixes) (time_Now w1) in
          let tmp := path +:+ ".tmp" in
          match os_OpenFile_trunc tmp w1 with
          | (Some err, w2) => (Some err, w2)
          | (None, w2) =>
              match Encode tmp contents w2 with
              | (Some err, w3) =>
                  let w4 := snd (file_Close w3) in
                  let w5 := snd (os_Remove tmp w4) in
                  (Some err, w5)
              | (None, w3) =>
                  match file_Close w3 with
                  | (Some err, w4) =>
                      let w5 := snd (os_Remove tmp w4) in
                      (Some err, w5)
                  | (None, w4) => os_Rename tmp path w4
                  end
              end
          end
      end
  end.

(** *** getPrefixes *)

Fixpoint getPrefixes_loop (s : URLIPRange) (urls : list string)
    (fullPrefixes : list Prefix) (w : World)
  : result (list Prefix) * World :=
  match urls with
  | [] => (Ok fullPrefixes, w)
  | url :: rest =>
      match fetch s url w with
      | (Err err, w1) => (Err err, w1)
      | (Ok prefixes, w1) =>
          getPrefixes_loop s rest (fullPrefixes ++ prefixes) w1
      end
  end.

Definition getPrefixes (s : URLIPRange) (w : World)
  : result (list Prefix) * World :=
  getPrefixes_loop s (URLs s) [] w.

(** *** Provision and the refresh loop *)

(** [go s.refreshLoop()]. *)
Definition go_refreshLoop (w : World) : World :=
  set_refreshLoops w (S (w_refreshLoops w)).

Definition Provision (s : URLIPRange) (w : World)
  : option error * URLIPRange * World :=
  match getPrefixes s w with
  | (Err err, w1) =>
      match loadFromCache s w1 with
      | (Err cacheErr, w2) => (Some (ErrProvision err cacheErr), s, w2)
      | (Ok cached, w2) =>
          let s1 := set_ranges s cached in
          let w3 :=
            log_Warn "using cached IP ranges due to fetch failure on startup" w2 in
          (None, s1, go_refreshLoop w3)
      end
  | (Ok initialRanges, w1) =>
      let s1 := set_ranges s initialRanges in
      let w3 :=
        match saveToCache s1 initialRanges w1 with
        | (Some _, w2) => log_Warn "failed to save IP ranges cache" w2
        | (None, w2) => w2
        end in
      (None, s1, go_refreshLoop w3)
  end.

(** What the [select] of the refresh loop receives. *)
Inductive select_event : Type :=
| TickerC    (* case <-ticker.C *)
| CtxDone.   (* case <-s.ctx.Done() *)

(** The body of [case <-ticker.C]. *)
Definition refreshCycle (s : URLIPRange) (w : World) : URLIPRange * World :=
  match getPrefixes s w with
  | (Err err, w1) =>
      (s, log_Warn "failed to refresh IP ranges; keeping existing cache" w1)
  | (Ok fullPrefixes, w1) =>
      let s1 := set_ranges s fullPrefixes in
      match saveToCache s1 fullPrefixes w1 with
      | (Some _, w2) =>
          (s1, log_Warn "failed to save IP ranges cache after refresh" w2)
      | (None, w2) => (s1, w2)
      end
  end.

(** The [for { select { ... } }] of [refreshLoop], run on the events the
    select receives; it returns at [CtxDone]. *)
Fixpoint refreshLoop_select (s : URLIPRange) (w : World)
    (events : list select_event) : URLIPRange * World :=
  match events with
  | [] => (s, w)
  | CtxDone :: _ => (s, w)
  | TickerC :: rest =>
      let '(s1, w1) := refreshCycle s w in refreshLoop_select s1 w1 rest
  end.

Definition Hour : Z := 3600 * 1000000000.

Definition refreshLoop (s : URLIPRange) (w : World)
    (events : list select_event) : URLIPRange * World :=
  let s := if Interval s =? 0 then set_Interval s Hour else s in
  refreshLoop_select s w events.

Definition GetIPRanges (s : URLIPRange) : list Prefix := ranges s.

End Methods.

(** ** [caddyfile.Dispenser] *)

Module caddyfile.

Local Open Scope Z_scope.

Record Token : Type := mkToken {
  Text : string;
  Line : Z
}.

Record Dispenser : Type := mkDispenser {
  tokens : list Token;
  cursor : Z;
  nesting : Z
}.

(** [caddyfile.NewDispenser]. *)
Definition NewDispenser (toks : list Token) : Dispenser :=
  mkDispenser toks (-1) 0.

Definition set_cursor (d : Dispenser) (c : Z) : Dispenser :=
  mkDispenser (tokens d) c (nesting d).
Definition set_nesting (d : Dispenser) (n : Z) : Dispenser :=
  mkDispenser (tokens d) (cursor d) n.

Definition len (d : Dispenser) : Z := Z.of_nat (length (tokens d)).

Definition token_at (d : Dispenser) (i : Z) : Token :=
  nth (Z.to_nat i) (tokens d) (mkToken "" 0).

Definition Val (d : Dispenser) : string :=
  if (cursor d <? 0) || (len d <=? cursor d) then ""
  else Text (token_at d (cursor d)).

Definition Next (d : Dispenser) : bool * Dispenser :=
  if cursor d <? len d - 1 then (true, set_cursor d (cursor d + 1))
  else (false, d).

Fixpoint count_LF (s : string) : Z :=
  match s with
  | EmptyString => 0
  | String c rest => (if Ascii.eqb c LF then 1 else 0) + count_LF rest
  end.

(** Tokens of one file without imports. *)
Definition isNextOnNewLine (t1 t2 : Token) : bool :=
  Line t1 + count_LF (Text t1) <? Line t2.

Definition nextOnSameLine (d : Dispenser) : bool * Dispenser :=
  if cursor d <? 0 then (true, set_cursor d (cursor d + 1))
  else if len d - 1 <=? cursor d then (false, d)
  else
    let curr := token_at d (cursor d) in
    let next := token_at d (cursor d + 1) in
    if negb (isNextOnNewLine curr next)
    then (true, set_cursor d (cursor d + 1))
    else (false, d).

Definition NextArg (d : Dispenser) : bool * Dispenser :=
  let '(b, d1) := nextOnSameLine d in
  if negb b then (false, d1)
  else if String.eqb (Val d1) "{" then (false, set_cursor d1 (cursor d1 - 1))
  else (true, d1).

Definition Nesting (d : Dispenser) : Z := nesting d.

Definition NextBlock (initialNestingLevel : Z) (d : Dispenser)
  : bool * Dispenser :=
  if initialNestingLevel <? nesting d then
    let '(b, d1) := Next d in
    if negb b then (false, d1)
    else
      let d3 :=
        if String.eqb (Val d1) "}" then
          let '(b2, d2) := nextOnSameLine d1 in
          if negb b2 then set_nesting d2 (nesting d2 - 1) else
          (* the second test of the condition is evaluated as well *)
          if String.eqb (Val d2) "{" then
            let '(b3, d2') := nextOnSameLine d2 in
            if negb b3 then set_nesting d2' (nesting d2' + 1) else d2'
          else d2
        else if String.eqb (Val d1) "{" then
          let '(b2, d2) := nextOnSameLine d1 in
          if negb b2 then set_nesting d2 (nesting d2 + 1) else d2
        else d1 in
      (initialNestingLevel <? nesting d3, d3)
  else
    let '(b, d1) := nextOnSameLine d in
    if negb b then (false, d1)
    else if negb (String.eqb (Val d1) "{")
    then (false, set_cursor d1 (cursor d1 - 1))
    else
      let d2 := snd (Next d1) in
      if String.eqb (Val d2) "}" then (false, d2)
      else (true, set_nesting d2 (nesting d2 + 1)).

(** [d1] is [d] with the cursor moved forward, at most to the last
    token. *)
Definition moves_forward (d d1 : Dispenser) : Prop :=
  tokens d1 = tokens d
  /\ cursor d <= cursor d1 <= Z.max (cursor d) (Z.max (len d - 1) 0).

End caddyfile.

(** ** UnmarshalCaddyfile *)

Section Unmarshal.

Context `{GoLib}.

Import caddyfile.
Local Open Scope Z_scope.

(** One directive of the block: the [switch d.Val()]. The result is
    the error to return, or the updated module. *)
Definition directive (m : URLIPRange) (d : Dispenser)
  : result URLIPRange * Dispenser :=
  let v := Val d in
  if String.eqb v "interval" then
    let '(b, d1) := NextArg d in
    if negb b then (Err ErrArg, d1)
    else match ParseDuration (Val d1) with
         | Err err => (Err err, d1)
         | Ok val => (Ok (set_Interval m val), d1)
         end
  else if String.eqb v "timeout" then
    let '(b, d1) := NextArg d in
    if negb b then (Err ErrArg, d1)
    else match ParseDuration (Val d1) with
         | Err err => (Err err, d1)
         | Ok val => (Ok (set_Timeout m val), d1)
         end
  else if String.eqb v "retries" then
    let '(b, d1) := NextArg d in
    if negb b then (Err ErrArg, d1)
    else match Sscanf_d (Val d1) with
         | Err _ => (Err (ErrInvalidRetries (Val d1)), d1)
         | Ok n =>
             if n <? 0 then (Err (ErrInvalidRetries (Val d1)), d1)
             else (Ok (set_Retries m n), d1)
         end
  else if String.eqb v "cache_file" then
    let '(b, d1) := NextArg d in
    if negb b then (Err ErrArg, d1)
    else (Ok (set_CacheFile m (Val d1)), d1)
  else if String.eqb v "url" then
    let '(b, d1) := NextArg d in
    if negb b then (Err ErrArg, d1)
    else (Ok (set_URLs m (URLs m ++ [Val d1])), d1)
  else (Err ErrArg, d).

(** The loop [for nesting := d.Nesting(); d.NextBlock(nesting); ].
    Every turn moves the cursor forward, so [fuel] larger than the
    number of tokens is never used up ([unmarshal_loop_fuel]). *)
Fixpoint unmarshal_loop (fuel : nat) (nesting : Z) (m : URLIPRange)
    (d : Dispenser) : option error * URLIPRange * Dispenser :=
  match fuel with
  | O => (None, m, d)
  | S fuel' =>
      let '(b, d1) := NextBlock nesting d in
      if negb b then (None, m, d1)
      else match directive m d1 with
           | (Err err, d2) => (Some err, m, d2)
           | (Ok m1, d2) => unmarshal_loop fuel' nesting m1 d2
           end
  end.

Definition UnmarshalCaddyfile (m : URLIPRange) (d : Dispenser)
  : option error * URLIPRange * Dispenser :=
  let d1 := snd (Next d) in   (* Skip module name. *)
  let '(b, d2) := NextArg d1 in
  if b then (Some ErrArg, m, d2)
  else unmarshal_loop (S (S (length (tokens d2)))) (Nesting d2) m d2.

End Unmarshal.

(** ** An executable model of the library functions

    [Model.lib] instantiates [GoLib] so that the module can be run on
    concrete inputs: IPv4 addresses and prefixes as package netip reads
    and prints them (an IPv6 text is refused by this instance), JSON
    with times in UTC at a resolution of one second, durations as
    sequences of decimal numbers with a unit. *)

Module Model.

Local Open Scope Z_scope.

Definition is_digit (c : ascii) : bool :=
  ((48 <=? byte c) && (byte c <=? 57))%N.
Definition digit_val (c : ascii) : Z := Z.of_N (byte c) - 48.

Definition lib_err (msg : string) {A} : result A := Err (ErrLib msg).

(** *** Decimal numbers *)

Definition digit_char (d : Z) : ascii := ascii_of_N (Z.to_N (48 + d)).

Fixpoint digits_rev (fuel : nat) (n : Z) : list ascii :=
  match fuel with
  | O => []
  | S fuel' =>
      if n <? 10 then [digit_char n]
      else digit_char (n mod 10) :: digits_rev fuel' (n / 10)
  end.

(** [strconv.Itoa] on a number that is not negative. *)
Definition Itoa (n : Z) : string :=
  string_of_list_ascii (rev (digits_rev (S (Z.to_nat (Z.log2 n))) n)).

(** The value of a string of decimal digits, [None] if another byte
    occurs or the string is empty. *)
Fixpoint digits_val (s : list ascii) (acc : Z) : option Z :=
  match s with
  | [] => Some acc
  | c :: rest =>
      if is_digit c then digits_val rest (acc * 10 + digit_val c) else None
  end.

Definition Atoi_digits (s : list ascii) : option Z :=
  match s with [] => None | _ => digits_val s 0 end.

(** *** netip, IPv4 *)

Record Prefix4 : Type := mkPrefix4 {
  p_ip : list Z;     (* the four octets *)
  p_bits : Z
}.

(** [parseIPv4Fields]. [i] is the index of the byte looked at and
    [prevDot] tells whether the byte before it is a dot. *)
Fixpoint parseIPv4Fields (s : list ascii) (i : Z) (prevDot : bool)
    (val digLen pos : Z) (fields : list Z) : result (list Z) :=
  match s with
  | [] =>
      if pos <? 3 then lib_err "IPv4 address too short"
      else Ok (fields ++ [val])
  | c :: rest =>
      if is_digit c then
        if (digLen =? 1) && (val =? 0)
        then lib_err "IPv4 field has octet with leading zero"
        else
          let val' := val * 10 + digit_val c in
          if 255 <? val' then lib_err "IPv4 field has value >255"
          else parseIPv4Fields rest (i + 1) false val' (digLen + 1) pos fields
      else if Ascii.eqb c "."%char then
        if (i =? 0) || (match rest with [] => true | _ => false end) || prevDot
        then lib_err "IPv4 field must have at least one digit"
        else if pos =? 3 then lib_err "IPv4 address too long"
        else parseIPv4Fields rest (i + 1) true 0 0 (pos + 1) (fields ++ [val])
      else lib_err "unexpected character"
  end.

(** The first of the bytes [.], [:] and [%] in [s] decides. *)
Fixpoint ParseAddr_kind (s : list ascii) : option ascii :=
  match s with
  | [] => None
  | c :: rest =>
      if Ascii.eqb c "."%char || Ascii.eqb c ":"%char || Ascii.eqb c "%"%char
      then Some c else ParseAddr_kind rest
  end.

Definition ParseAddr (s : list ascii) : result (list Z) :=
  match ParseAddr_kind s with
  | Some c =>
      if Ascii.eqb c "."%char then parseIPv4Fields s 0 false 0 0 0 []
      else if Ascii.eqb c ":"%char then lib_err "IPv6 address"
      else lib_err "missing IPv6 address"
  | None => lib_err "unable to parse IP"
  end.

(** [s[:i]] and [s[i+1:]] for the last [/] of [s]. *)
Fixpoint cut_last_slash (s : list ascii)
  : option (list ascii * list ascii) :=
  match s with
  | [] => None
  | c :: rest =>
      match cut_last_slash rest with
      | Some (a, b) => Some (c :: a, b)
      | None => if Ascii.eqb c "/"%char then Some ([], rest) else None
      end
  end.

Definition ParsePrefix (s : list ascii) : result Prefix4 :=
  match cut_last_slash s with
  | None => lib_err "no '/'"
  | Some (ipStr, bitsStr) =>
      match ParseAddr ipStr with
      | Err e => Err e
      | Ok ip =>
          let bad_lead :=
            match bitsStr with
            | c :: _ :: _ => negb ((49 <=? byte c) && (byte c <=? 57))%N
            | _ => false
            end in
          if bad_lead then lib_err "bad bits after slash"
          else match Atoi_digits bitsStr with
               | None => lib_err "bad bits after slash"
               | Some bits =>
                   if 32 <? bits then lib_err "prefix length out of range"
                   else Ok (mkPrefix4 ip bits)
               end
      end
  end.

Definition contains_slash (s : list ascii) : bool :=
  existsb (fun c => Ascii.eqb c "/"%char) s.

(** [caddyhttp.CIDRExpressionToPrefix]. *)
Definition CIDRExpressionToPrefix4 (expr : string) : result Prefix4 :=
  let s := list_ascii_of_string expr in
  if contains_slash s then ParsePrefix s
  else match ParseAddr s with
       | Err e => Err e
       | Ok ip => Ok (mkPrefix4 ip 32)
       end.

(** [netip.Prefix.String]. *)
Definition Prefix4_String (p : Prefix4) : string :=
  strings_Join (map Itoa (p_ip p)) "." +:+ "/" +:+ Itoa (p_bits p).

(** *** Times: RFC 3339 in UTC, one second resolution *)

Definition civil_from_days (days : Z) : Z * Z * Z :=
  let z := days + 719468 in
  let era := z / 146097 in
  let doe := z - era * 146097 in
  let yoe := (doe - doe / 1460 + doe / 36524 - doe / 146096) / 365 in
  let doy := doe - (365 * yoe + yoe / 4 - yoe / 100) in
  let mp := (5 * doy + 2) / 153 in
  let d := doy - (153 * mp + 2) / 5 + 1 in
  let m := if mp <? 10 then mp + 3 else mp - 9 in
  (yoe + era * 400 + (if m <=? 2 then 1 else 0), m, d).

Definition days_from_civil (y m d : Z) : Z :=
  let y := y - (if m <=? 2 then 1 else 0) in
  let era := y / 400 in
  let yoe := y - era * 400 in
  let doy := (153 * (if 2 <? m then m - 3 else m + 9) + 2) / 5 + d - 1 in
  let doe := yoe * 365 + yoe / 4 - yoe / 100 + doy in
  era * 146097 + doe - 719468.

Definition pad_left (width : nat) (s : string) : string :=
  string_of_list_ascii (repeat "0"%char (width - String.length s)) +:+ s.

(** [time.Time.MarshalJSON] without the quotes. *)
Definition format_time (t : Z) : result string :=
  let '(y, m, d) := civil_from_days (t / 86400) in
  let sod := t mod 86400 in
  if (y <? 0) || (9999 <? y)
  then lib_err "Time.MarshalJSON: year outside of range [0,9999]"
  else Ok (pad_left 4 (Itoa y) +:+ "-" +:+ pad_left 2 (Itoa m) +:+ "-"
           +:+ pad_left 2 (Itoa d) +:+ "T"
           +:+ pad_left 2 (Itoa (sod / 3600)) +:+ ":"
           +:+ pad_left 2 (Itoa (sod / 60 mod 60)) +:+ ":"
           +:+ pad_left 2 (Itoa (sod mod 60)) +:+ "Z").

Definition num (s : list ascii) : option Z := Atoi_digits s.

Fixpoint skip_digits (s : list ascii) : list ascii :=
  match s with
  | c :: rest => if is_digit c then skip_digits rest else s
  | [] => []
  end.

(** The zone of an RFC 3339 time, as seconds east of UTC. *)
Definition parse_zone (s : list ascii) : option Z :=
  match s with
  | [z] => if Ascii.eqb z "Z"%char then Some 0 else None
  | [sg; h1; h2; c; m1; m2] =>
      match num [h1; h2], num [m1; m2] with
      | Some h, Some m =>
          if negb (Ascii.eqb c ":"%char) || (23 <? h) || (59 <? m) then None
          else if Ascii.eqb sg "+"%char then Some (h * 3600 + m * 60)
          else if Ascii.eqb sg "-"%char then Some (- (h * 3600 + m * 60))
          else None
      | _, _ => None
      end
  | _ => None
  end.

Definition days_in_month (y m : Z) : Z :=
  days_from_civil (if m =? 12 then y + 1 else y) (if m =? 12 then 1 else m + 1) 1
  - days_from_civil y m 1.

(** [time.Time.UnmarshalJSON] on the text between the quotes;
    a fraction of a second is dropped. *)
Definition parse_time (s : list ascii) : option Z :=
  match s with
  | y1 :: y2 :: y3 :: y4 :: s1 :: m1 :: m2 :: s2 :: d1 :: d2 :: t
      :: h1 :: h2 :: c1 :: i1 :: i2 :: c2 :: e1 :: e2 :: rest =>
      match num [y1; y2; y3; y4], num [m1; m2], num [d1; d2],
            num [h1; h2], num [i1; i2], num [e1; e2] with
      | Some y, Some m, Some d, Some h, Some mi, Some se =>
          let zone_text :=
            match rest with
            | c :: frac =>
                if Ascii.eqb c "."%char then
                  match frac with
                  | f :: _ => if is_digit f then skip_digits frac else rest
                  | [] => rest
                  end
                else rest
            | [] => rest
            end in
          match parse_zone zone_text with
          | Some off =>
              if negb (Ascii.eqb s1 "-"%char) || negb (Ascii.eqb s2 "-"%char)
                 || negb (Ascii.eqb t "T"%char)
                 || negb (Ascii.eqb c1 ":"%char) || negb (Ascii.eqb c2 ":"%char)
                 || (m <? 1) || (12 <? m) || (d <? 1)
                 || (days_in_month y m <? d)
                 || (23 <? h) || (59 <? mi) || (59 <? se)
              then None
              else Some (days_from_civil y m d * 86400
                         + h * 3600 + mi * 60 + se - off)
          | None => None
          end
      | _, _, _, _, _, _ => None
      end
  | _ => None
  end.

(** The zero [time.Time]: January 1, year 1, 00:00:00 UTC. *)
Definition zero_time : Z := -62135596800.

(** *** JSON *)

#[warnings="-register-all"]
Inductive json : Type :=
| JNull
| JBool (b : bool)
| JNumber (text : string)
| JString (s : string)
| JArray (elems : list json)
| JObject (members : list (string * json)).

Definition is_ws (c : ascii) : bool :=
  ((byte c =? 32) || (byte c =? 9) || (byte c =? 10) || (byte c =? 13))%N.

Fixpoint skip_ws (s : list ascii) : list ascii :=
  match s with
  | c :: rest => if is_ws c then skip_ws rest else s
  | [] => []
  end.

Definition hex_val (c : ascii) : option Z :=
  let b := Z.of_N (byte c) in
  if (48 <=? b) && (b <=? 57) then Some (b - 48)
  else if (97 <=? b) && (b <=? 102) then Some (b - 87)
  else if (65 <=? b) && (b <=? 70) then Some (b - 55)
  else None.

Definition chr (n : Z) : ascii := ascii_of_N (Z.to_N n).

Definition DQUOTE : ascii := "034"%char.

(** The UTF-8 bytes of a code point below 65536, last byte first. *)
Definition utf8_rev (cp : Z) : list ascii :=
  if cp <? 128 then [chr cp]
  else if cp <? 2048 then [chr (128 + cp mod 64); chr (192 + cp / 64)]
  else [chr (128 + cp mod 64); chr (128 + cp / 64 mod 64);
        chr (224 + cp / 4096)].

Definition unescape (e : ascii) : option ascii :=
  if Ascii.eqb e DQUOTE then Some e
  else if Ascii.eqb e "\"%char then Some e
  else if Ascii.eqb e "/"%char then Some e
  else if Ascii.eqb e "b"%char then Some (chr 8)
  else if Ascii.eqb e "f"%char then Some (chr 12)
  else if Ascii.eqb e "n"%char then Some (chr 10)
  else if Ascii.eqb e "r"%char then Some (chr 13)
  else if Ascii.eqb e "t"%char then Some (chr 9)
  else None.

(** A string literal after its opening quote; [acc] holds the bytes
    read so far, last byte first. *)
Fixpoint parse_string (s : list ascii) (acc : list ascii)
  : option (string * list ascii) :=
  match s with
  | [] => None
  | c :: rest =>
      if Ascii.eqb c DQUOTE
      then Some (string_of_list_ascii (rev acc), rest)
      else if Ascii.eqb c "\"%char then
        match rest with
        | e :: rest1 =>
            if Ascii.eqb e "u"%char then
              match rest1 with
              | h1 :: h2 :: h3 :: h4 :: rest2 =>
                  match hex_val h1, hex_val h2, hex_val h3, hex_val h4 with
                  | Some a, Some b, Some c', Some d =>
                      parse_string rest2
                        (utf8_rev (a * 4096 + b * 256 + c' * 16 + d) ++ acc)
                  | _, _, _, _ => None
                  end
              | _ => None
              end
            else match unescape e with
                 | Some x => parse_string rest1 (x :: acc)
                 | None => None
                 end
        | [] => None
        end
      else if (byte c <? 32)%N then None
      else parse_string rest (c :: acc)
  end.

Definition is_number_char (c : ascii) : bool :=
  is_digit c || Ascii.eqb c "-"%char || Ascii.eqb c "+"%char
  || Ascii.eqb c "."%char || Ascii.eqb c "e"%char || Ascii.eqb c "E"%char.

Fixpoint span_number (s : list ascii) (acc : list ascii)
  : list ascii * list ascii :=
  match s with
  | c :: rest =>
      if is_number_char c then span_number rest (c :: acc) else (rev acc, s)
  | [] => (rev acc, [])
  end.

Fixpoint strip_prefix (p s : list ascii) : option (list ascii) :=
  match p, s with
  | [], _ => Some s
  | a :: p', b :: s' => if Ascii.eqb a b then strip_prefix p' s' else None
  | _ :: _, [] => None
  end.

Fixpoint parse_value (fuel : nat) (s : list ascii)
  : option (json * list ascii) :=
  match fuel with
  | O => None
  | S fuel' =>
      match skip_ws s with
      | [] => None
      | c :: rest =>
          if Ascii.eqb c DQUOTE then
            match parse_string rest [] with
            | Some (str, rest1) => Some (JString str, rest1)
            | None => None
            end
          else if Ascii.eqb c "["%char then
            match skip_ws rest with
            | c1 :: rest1 =>
                if Ascii.eqb c1 "]"%char then Some (JArray [], rest1)
                else parse_elems fuel' rest []
            | [] => None
            end
          else if Ascii.eqb c "{"%char then
            match skip_ws rest with
            | c1 :: rest1 =>
                if Ascii.eqb c1 "}"%char then Some (JObject [], rest1)
                else parse_members fuel' rest []
            | [] => None
            end
          else if is_digit c || Ascii.eqb c "-"%char then
            let '(n, rest1) := span_number (c :: rest) [] in
            Some (JNumber (string_of_list_ascii n), rest1)
          else
            match strip_prefix (list_ascii_of_string "null") (c :: rest),
                  strip_prefix (list_ascii_of_string "true") (c :: rest),
                  strip_prefix (list_ascii_of_string "false") (c :: rest) with
            | Some r, _, _ => Some (JNull, r)
            | _, Some r, _ => Some (JBool true, r)
            | _, _, Some r => Some (JBool false, r)
            | _, _, _ => None
            end
      end
  end

with parse_elems (fuel : nat) (s : list ascii) (acc : list json)
  : option (json * list ascii) :=
  match fuel with
  | O => None
  | S fuel' =>
      match parse_value fuel' s with
      | Some (v, rest) =>
          match skip_ws rest with
          | c :: rest1 =>
              if Ascii.eqb c ","%char then parse_elems fuel' rest1 (v :: acc)
              else if Ascii.eqb c "]"%char
              then Some (JArray (rev (v :: acc)), rest1)
              else None
          | [] => None
          end
      | None => None
      end
  end

with parse_members (fuel : nat) (s : list ascii)
    (acc : list (string * json)) : option (json * list ascii) :=
  match fuel with
  | O => None
  | S fuel' =>
      match skip_ws s with
      | q :: rest =>
          if Ascii.eqb q DQUOTE then
            match parse_string rest [] with
            | Some (key, rest1) =>
                match skip_ws rest1 with
                | c :: rest2 =>
                    if Ascii.eqb c ":"%char then
                      match parse_value fuel' rest2 with
                      | Some (v, rest3) =>
                          match skip_ws rest3 with
                          | c1 :: rest4 =>
                              if Ascii.eqb c1 ","%char
                              then parse_members fuel' rest4 ((key, v) :: acc)
                              else if Ascii.eqb c1 "}"%char
                              then Some (JObject (rev ((key, v) :: acc)), rest4)
                              else None
                          | [] => None
                          end
                      | None => None
                      end
                    else None
                | [] => None
                end
            | None => None
            end
          else None
      | [] => None
      end
  end.

(** The first JSON value of a byte stream. *)
Definition parse_json (data : string) : option json :=
  let s := list_ascii_of_string data in
  match parse_value (2 * length s + 2) s with
  | Some (v, _) => Some v
  | None => None
  end.

Definition lower (c : ascii) : ascii :=
  if ((65 <=? byte c) && (byte c <=? 90))%N
  then ascii_of_N (byte c + 32) else c.

Fixpoint lower_string (s : string) : string :=
  match s with
  | EmptyString => EmptyString
  | String c rest => String (lower c) (lower_string rest)
  end.

(** A JSON array decoded into a [[]string]. *)
Fixpoint strings_of (elems : list json) : result (list string) :=
  match elems with
  | [] => Ok []
  | e :: rest =>
      match strings_of rest with
      | Err err => Err err
      | Ok l =>
          match e with
          | JString str => Ok (str :: l)
          | JNull => Ok ("" :: l)
          | _ => lib_err "json: cannot unmarshal into Go value of type string"
          end
      end
  end.

(** The members of the object assigned to the fields, in order. *)
Fixpoint assign (members : list (string * json)) (c : cacheFileContents)
  : result cacheFileContents :=
  match members with
  | [] => Ok c
  | (key, v) :: rest =>
      if String.eqb (lower_string key) "prefixes" then
        match v with
        | JNull => assign rest c
        | JArray elems =>
            match strings_of elems with
            | Err err => Err err
            | Ok l => assign rest (mkCacheFileContents l (UpdatedAt c))
            end
        | _ => lib_err "json: cannot unmarshal into Go value of type []string"
        end
      else if String.eqb (lower_string key) "updated_at" then
        match v with
        | JNull => assign rest c
        | JString str =>
            match parse_time (list_ascii_of_string str) with
            | Some t => assign rest (mkCacheFileContents (Prefixes c) t)
            | None => lib_err "parsing time"
            end
        | _ => lib_err "Time.UnmarshalJSON: input is not a JSON string"
        end
      else assign rest c
  end.

(** [json.NewDecoder(f).Decode(&contents)]. *)
Definition json_Decode_model (data : string) : result cacheFileContents :=
  match parse_json data with
  | None => lib_err "invalid JSON"
  | Some JNull => Ok (mkCacheFileContents [] zero_time)
  | Some (JObject members) =>
      assign members (mkCacheFileContents [] zero_time)
  | Some _ =>
      lib_err "json: cannot unmarshal into Go value of type cacheFileContents"
  end.

Definition hex_digit (d : Z) : ascii := hex.digit d.

(** One byte of a string literal as the encoder writes it. *)
Definition escape (c : ascii) : string :=
  let b := Z.of_N (byte c) in
  if Ascii.eqb c DQUOTE then String "\"%char (String DQUOTE "")
  else if Ascii.eqb c "\"%char then "\\"
  else if b =? 10 then "\n"
  else if b =? 13 then "\r"
  else if b =? 9 then "\t"
  else if (b <? 32) || Ascii.eqb c "<"%char || Ascii.eqb c ">"%char
          || Ascii.eqb c "&"%char
  then "\u00" +:+ String (hex_digit (b / 16)) (String (hex_digit (b mod 16)) "")
  else String c "".

Fixpoint escape_string (s : string) : string :=
  match s with
  | EmptyString => ""
  | String c rest => escape c +:+ escape_string rest
  end.

Definition quote (s : string) : string :=
  String DQUOTE (escape_string s) +:+ String DQUOTE "".

Definition NL : string := String LF "".

(** [enc.SetIndent("", "  "); enc.Encode(&contents)]. *)
Definition json_Encode_model (c : cacheFileContents) : result string :=
  match format_time (UpdatedAt c) with
  | Err err => Err err
  | Ok t =>
      let arr :=
        match Prefixes c with
        | [] => "[]"
        | ps =>
            "[" +:+ NL
            +:+ strings_Join (map (fun p => "    " +:+ quote p) ps)
                             ("," +:+ NL)
            +:+ NL +:+ "  ]"
        end in
      Ok ("{" +:+ NL +:+ "  " +:+ quote "prefixes" +:+ ": " +:+ arr
          +:+ "," +:+ NL
          +:+ "  " +:+ quote "updated_at" +:+ ": " +:+ quote t +:+ NL
          +:+ "}" +:+ NL)
  end.

(** *** Durations and integers *)

(** The digits at the head of [s], their value and their number. *)
Fixpoint leading_digits (s : list ascii) (acc : Z) (n : Z)
  : Z * Z * list ascii :=
  match s with
  | c :: rest =>
      if is_digit c then leading_digits rest (acc * 10 + digit_val c) (n + 1)
      else (acc, n, s)
  | [] => (acc, n, [])
  end.

(** A unit of duration at the head of [s], in nanoseconds. *)
Definition duration_unit (s : list ascii) : option (Z * list ascii) :=
  match s with
  | a :: b :: rest =>
      if Ascii.eqb b "s"%char && Ascii.eqb a "n"%char then Some (1, rest)
      else if Ascii.eqb b "s"%char && Ascii.eqb a "u"%char then Some (1000, rest)
      else if Ascii.eqb b "s"%char && Ascii.eqb a "m"%char
      then Some (1000000, rest)
      else if Ascii.eqb a "s"%char then Some (1000000000, b :: rest)
      else if Ascii.eqb a "m"%char then Some (60000000000, b :: rest)
      else if Ascii.eqb a "h"%char then Some (3600000000000, b :: rest)
      else if Ascii.eqb a "d"%char then Some (86400000000000, b :: rest)
      else None
  | [a] =>
      if Ascii.eqb a "s"%char then Some (1000000000, [])
      else if Ascii.eqb a "m"%char then Some (60000000000, [])
      else if Ascii.eqb a "h"%char then Some (3600000000000, [])
      else if Ascii.eqb a "d"%char then Some (86400000000000, [])
      else None
  | [] => None
  end.

(** The terms [number unit] of a duration, summed. *)
Fixpoint duration_terms (fuel : nat) (s : list ascii) (acc : Z) : option Z :=
  match fuel with
  | O => None
  | S fuel' =>
      match s with
      | [] => Some acc
      | _ =>
          let '(ip, n1, s1) := leading_digits s 0 0 in
          let '(fp, n2, s2) :=
            match s1 with
            | c :: rest =>
                if Ascii.eqb c "."%char then leading_digits rest 0 0
                else (0, 0, s1)
            | [] => (0, 0, s1)
            end in
          if (n1 + n2 =? 0) then None
          else match duration_unit s2 with
               | Some (u, s3) =>
                   duration_terms fuel' s3 (acc + ip * u + fp * u / 10 ^ n2)
               | None => None
               end
      end
  end.

(** [caddy.ParseDuration], in nanoseconds. *)
Definition ParseDuration_model (str : string) : result Z :=
  let s := list_ascii_of_string str in
  let '(neg, s1) :=
    match s with
    | c :: rest =>
        if Ascii.eqb c "-"%char then (true, rest)
        else if Ascii.eqb c "+"%char then (false, rest) else (false, s)
    | [] => (false, s)
    end in
  match s1 with
  | [] => lib_err "time: invalid duration"
  | [z] =>
      if Ascii.eqb z "0"%char then Ok 0 else lib_err "time: invalid duration"
  | _ =>
      match duration_terms (length s1) s1 0 with
      | Some d => Ok (if neg then - d else d)
      | None => lib_err "time: invalid duration"
      end
  end.

Fixpoint skip_spaces (s : list ascii) : list ascii :=
  match s with
  | c :: rest => if is_space1 (byte c) then skip_spaces rest else s
  | [] => []
  end.

(** [fmt.Sscanf(s, "%d", &n)] into an [int]. *)
Definition Sscanf_d_model (str : string) : result Z :=
  let s := skip_spaces (list_ascii_of_string str) in
  let '(neg, s1) :=
    match s with
    | c :: rest =>
        if Ascii.eqb c "-"%char then (true, rest)
        else if Ascii.eqb c "+"%char then (false, rest) else (false, s)
    | [] => (false, s)
    end in
  let '(v, n, _) := leading_digits s1 0 0 in
  let v := if neg then - v else v in
  if n =? 0 then lib_err "expected integer"
  else if (v <? - 2 ^ 63) || (2 ^ 63 <=? v) then lib_err "integer overflow"
  else Ok v.

(** *** The instance *)

Definition lib : GoLib := {|
  Prefix := Prefix4;
  CIDRExpressionToPrefix := CIDRExpressionToPrefix4;
  Prefix_String := Prefix4_String;
  json_Encode := json_Encode_model;
  json_Decode := json_Decode_model;
  ParseDuration := ParseDuration_model;
  Sscanf_d := Sscanf_d_model
|}.

End Model.

(** ** Vocabulary of the specification *)

Section Vocabulary.

Context `{GoLib}.

Local Open Scope Z_scope.

(** [outcome_at w api i]: what the [i]-th request that is sent to [api]
    from the world [w] on is answered. *)
Definition outcome_at (w : World) (api : string) (i : nat) : do_outcome :=
  env_http (w_env w) api (requests_to w api + i)%nat.

(** The classes of outcomes of the specification (section 4.2 and 7).
    A retryable failure leaves the error in [lastErr]. *)
Inductive transport_or_status_failure (api : string)
  : do_outcome -> error -> Prop :=
| tsf_transport (e : error) :
    transport_or_status_failure api (DoError e) e
| tsf_status (status : Z) (body : Body) :
    status < 200 \/ 299 < status ->
    transport_or_status_failure api (DoResponse status body)
                                (ErrHTTPStatus api status).

Inductive scanner_failure : do_outcome -> error -> Prop :=
| scf_intro (status : Z) (body : Body) (lines : list string) (e : error)
            (prefixes : list Prefix) :
    200 <= status <= 299 ->
    Scan body = (lines, Some e) ->
    scanLoop lines [] = Ok prefixes ->
    scanner_failure (DoResponse status body) e.

Definition retryable_failure (api : string) (o : do_outcome) (e : error)
  : Prop :=
  transport_or_status_failure api o e \/ scanner_failure o e.

(** A 2xx response all of whose lines parse or are skipped. *)
Inductive successful : do_outcome -> list Prefix -> Prop :=
| suc_intro (status : Z) (body : Body) (lines : list string)
            (prefixes : list Prefix) :
    200 <= status <= 299 ->
    Scan body = (lines, None) ->
    scanLoop lines [] = Ok prefixes ->
    successful (DoResponse status body) prefixes.

(** A 2xx response in which the scanner delivers a malformed line. *)
Inductive parse_failure : do_outcome -> error -> Prop :=
| pf_intro (status : Z) (body : Body) (lines : list string)
           (scanErr : option error) (e : error) :
    200 <= status <= 299 ->
    Scan body = (lines, scanErr) ->
    scanLoop lines [] = Err e ->
    parse_failure (DoResponse status body) e.

(** The world after [n] requests to [api] and [sleeps] seconds of
    waiting between attempts. *)
Definition after_attempts (w : World) (api : string) (n : nat) (sleeps : Z)
  : World :=
  mkWorld (w_env w) (w_requests w ++ repeat api n) (w_clock w + sleeps)
          (w_files w) (w_dirs w) (w_faults w) (w_warnings w)
          (w_refreshLoops w).

(** [w'] differs from [w] by requests and waiting only: the file
    system, the log and the goroutines are the same. *)
Definition only_network (w w' : World) : Prop :=
  w_env w' = w_env w /\ w_files w' = w_files w /\ w_dirs w' = w_dirs w
  /\ w_faults w' = w_faults w /\ w_warnings w' = w_warnings w
  /\ w_refreshLoops w' = w_refreshLoops w.

(** [w'] differs from [w] by the file system only: the network, the
    clock, the log and the goroutines are the same. *)
Definition fs_only (w w' : World) : Prop :=
  w_env w' = w_env w /\ w_requests w' = w_requests w
  /\ w_clock w' = w_clock w /\ w_refreshLoops w' = w_refreshLoops w
  /\ w_warnings w' = w_warnings w.

(** Number of requests sent between the worlds [w] and [w']. *)
Definition requests_between (w w' : World) : Z :=
  Z.of_nat (length (w_requests w')) - Z.of_nat (length (w_requests w)).

(** The lines of a text as section 6 defines them: the bytes between
    line feeds, whatever their length ([rev_line] holds the line being
    read, last byte first). *)
Fixpoint text_lines (data : list ascii) (rev_line : list ascii)
  : list string :=
  match data with
  | [] => match rev_line with [] => [] | _ => [token rev_line] end
  | c :: rest =>
      if Ascii.eqb c LF then token rev_line :: text_lines rest []
      else text_lines rest (c :: rev_line)
  end.

Definition lines_of (text : string) : list string :=
  text_lines (list_ascii_of_string text) [].

(** Raw length of every line of a text, the carriage return included. *)
Fixpoint line_lengths (data : list ascii) (n : Z) : list Z :=
  match data with
  | [] => [n]
  | c :: rest =>
      if Ascii.eqb c LF then n :: line_lengths rest 0
      else line_lengths rest (n + 1)
  end.

(** A file name: one path element that is neither empty nor a dot
    element, without separator. *)
Fixpoint no_separator (s : string) : bool :=
  match s with
  | EmptyString => true
  | String c rest => negb (Ascii.eqb c filepath.Separator) && no_separator rest
  end.

Definition plain_name (n : string) : bool :=
  negb (String.eqb n "") && negb (String.eqb n ".")
  && negb (String.eqb n "..") && no_separator n.

(** A URL without vertical bar. *)
Definition no_bar (u : string) : Prop := IndexByte u "|" = (-1)%Z.

(** The name of the cache file derived from a list of URLs. *)
Definition cache_name (urls : list string) : string :=
  "ip-list-cache-"
  +:+ hex.EncodeToString (sha256.Sum256 (strings_Join urls "|"))
  +:+ ".json".

(** What the round trip of the cache file asks of the libraries:
    netip reads what it prints, and the decoder finds the strings the
    encoder wrote. *)
Definition prints_and_parses (p : Prefix) : Prop :=
  CIDRExpressionToPrefix (Prefix_String p) = Ok p.

Definition json_round_trip (c : cacheFileContents) : Prop :=
  forall data, json_Encode c = Ok data ->
               exists c', json_Decode data = Ok c' /\ Prefixes c' = Prefixes c.

(** A line the line parser refuses. *)
Definition malformed (line : string) : Prop :=
  exists e, parseLine line = LineError e.

Definition malformedb (line : string) : bool :=
  match parseLine line with
  | LineError _ => true
  | _ => false
  end.

(** The fetches of [urls] one after the other from the world [w], all
    successful, with their results in order. *)
Inductive aggregates (s : URLIPRange)
  : list string -> World -> list (list Prefix) -> World -> Prop :=
| agg_nil (w : World) : aggregates s [] w [] w
| agg_cons (url : string) (rest : list string) (w w1 w' : World)
           (prefixes : list Prefix) (more : list (list Prefix)) :
    fetch s url w = (Ok prefixes, w1) ->
    aggregates s rest w1 more w' ->
    aggregates s (url :: rest) w (prefixes :: more) w'.



End Vocabulary.

(** ** Concrete scenarios

    The scenarios of section 8 of the specification and of the tests of
    the module, run with [Model.lib]. *)

Module Scenario.

Import Model.
Local Open Scope Z_scope.

Definition url : string := "http://lists.example/ips".

Definition text_body (text : string) : Body := mkBody text None.

Definition http500 : do_outcome := DoResponse 500 (text_body "fail").

(** An HTTP peer that answers the requests with [script], in order,
    and with status 500 afterwards. *)
Definition peer (script : list do_outcome) : Env :=
  mkEnv (fun _ => None) (fun _ n => nth n script http500)
        "/var/lib/caddy".

Definition world (env : Env) (files : gmap string string) : World :=
  mkWorld env [] 1700000000 files [] [] [] 0.

Definition config (urls : list string) (retries : Z) (cacheFile : string)
  : @URLIPRange lib :=
  @mkURLIPRange lib urls 0 0 retries cacheFile [].



(** Scenario B: two failures with status 500, then one address. *)
Definition sB : @URLIPRange lib := config [url] 2 "".
Definition wB : World :=
  world (peer [http500; http500;
               DoResponse 200 (text_body ("192.0.2.1/32" +:+ NL))]) ∅.

(** Scenario C: nothing but failures, no cache. *)
Definition wC : World := world (peer []) ∅.

(** Scenario D: as C, with a cache file written a long time before. *)
Definition cacheD : string := "/var/lib/caddy/ip-list.json".
Definition sD : @URLIPRange lib := config [url] 2 cacheD.
Definition dataD : string :=
  "{" +:+ quote "prefixes" +:+ ": [" +:+ quote "10.0.0.0/8" +:+ ", "
  +:+ quote "172.16.0.0/12" +:+ "], " +:+ quote "updated_at" +:+ ": "
  +:+ quote "1999-12-31T23:59:59Z" +:+ "}".
Definition wD : World := world (peer []) {[ cacheD := dataD ]}.

(** A response whose only line has [MaxScanTokenSize] bytes before
    its line feed, then a response with one prefix. *)
Definition long_line : string :=
  string_of_list_ascii (repeat "x"%char (Z.to_nat MaxScanTokenSize)).
Definition long_body : string := long_line +:+ NL.
Definition sL : @URLIPRange lib := config [url] 1 "".
Definition wL : World :=
  world (peer [DoResponse 200 (text_body long_body);
               DoResponse 200 (text_body ("10.0.0.0/8" +:+ NL))]) ∅.

(** A response with a malformed second line, then a good response. *)
Definition bad_body : string :=
  "10.0.0.0/8" +:+ NL +:+ "not-a-cidr # oops" +:+ NL.
Definition wM : World :=
  world (peer [DoResponse 200 (text_body bad_body);
               DoResponse 200 (text_body ("10.0.0.0/8" +:+ NL))]) ∅.

(** Three sources: the second one is down in [wDown]. *)
Definition url1 : string := "http://one.example/ips".
Definition url2 : string := "http://two.example/ips".
Definition url3 : string := "http://three.example/ips".

Definition answer (text : string) : do_outcome :=
  DoResponse 200 (text_body text).

Definition three_peers (second : do_outcome) : Env :=
  mkEnv (fun _ => None)
        (fun api _ =>
           if String.eqb api url1 then answer ("10.0.0.0/8" +:+ NL)
           else if String.eqb api url2 then second
           else answer ("192.0.2.1" +:+ NL))
        "/var/lib/caddy".

Definition s3 : @URLIPRange lib := config [url1; url2; url3] 1 "".
Definition wUp : World :=
  world (three_peers (answer ("172.16.0.0/12" +:+ NL +:+ "172.32.0.0/11"))) ∅.
Definition wDown : World := world (three_peers http500) ∅.

(** A provisioned instance that serves one range. *)
Definition s3_serving : @URLIPRange lib :=
  set_ranges s3 [mkPrefix4 [198; 51; 100; 0] 24].

(** The block [list { }] of the test [TestDefault], as tokens. *)
Definition empty_block : caddyfile.Dispenser :=
  caddyfile.NewDispenser
    [caddyfile.mkToken "list" 1; caddyfile.mkToken "{" 1;
     caddyfile.mkToken "}" 1].

(** The input of the test [TestUnmarshal], and that of
    [TestUnmarshalNested] with the cursor moved into the outer block. *)
Definition tok (text : string) (line : Z) : caddyfile.Token :=
  caddyfile.mkToken text line.

Definition block_tokens (first_line : Z) : list caddyfile.Token :=
  [tok "list" first_line; tok "{" first_line;
   tok "url" (first_line + 1);
   tok "https://www.cloudflare.com/ips-v4" (first_line + 1);
   tok "interval" (first_line + 2); tok "1.5h" (first_line + 2);
   tok "timeout" (first_line + 3); tok "30s" (first_line + 3);
   tok "}" (first_line + 4)].

Definition test_unmarshal : caddyfile.Dispenser :=
  caddyfile.NewDispenser (block_tokens 2).

Definition test_nested : caddyfile.Dispenser :=
  let d := caddyfile.NewDispenser
             (tok "{" 1 :: block_tokens 2
              ++ [tok "other_module" 7; tok "10h" 7; tok "}" 8]) in
  let d1 := snd (caddyfile.Next d) in
  snd (caddyfile.NextBlock (caddyfile.Nesting d1) d1).

(** Two lists of URLs with the same joined string. *)
Definition s_one : @URLIPRange lib := config ["http://a/x|http://b/y"] 0 "".
Definition s_two : @URLIPRange lib := config ["http://a/x"; "http://b/y"] 0 "".

End Scenario.


(** ** Further vocabulary

    Notions used by the properties of the code beyond the claims of
    the specification. *)

Section MoreVocabulary.

Context `{GoLib}.

Local Open Scope Z_scope.

(** The prefixes of the lines of a response that are neither blank nor
    malformed, in the order of the lines. *)
Definition line_prefixes (lines : list string) : list Prefix :=
  flat_map (fun line => match parseLine line with
                        | LinePrefix p => [p]
                        | _ => []
                        end) lines.

(** A line the line parser accepts: it is skipped or gives a prefix. *)
Definition well_formed (line : string) : Prop :=
  forall e, parseLine line <> LineError e.

End MoreVocabulary.

(** ** Blocks of a Caddyfile

    The block of the module as the lexer hands it to
    [UnmarshalCaddyfile]: the name of the module and the opening brace
    on one line, then directives, each a name with its argument on the
    same line, then the closing brace. *)

Section Blocks.

Context `{GoLib}.

Import caddyfile.
Local Open Scope Z_scope.

Record entry : Type := mkEntry {
  e_name : string;
  e_value : string;
  e_line : Z
}.

Fixpoint entry_tokens (es : list entry) : list Token :=
  match es with
  | [] => []
  | e :: rest =>
      mkToken (e_name e) (e_line e) :: mkToken (e_value e) (e_line e)
      :: entry_tokens rest
  end.

(** [name { entries }], the closing brace on line [close]. *)
Definition block_of (name : string) (line : Z) (es : list entry) (close : Z)
  : list Token :=
  mkToken name line :: mkToken "{" line
  :: entry_tokens es ++ [mkToken "}" close].

(** What one directive means for the module: the [switch] of
    UnmarshalCaddyfile on a name whose argument is [value]. *)
Definition setting (m : URLIPRange) (name value : string)
  : result URLIPRange :=
  if String.eqb name "interval" then
    match ParseDuration value with
    | Err err => Err err
    | Ok val => Ok (set_Interval m val)
    end
  else if String.eqb name "timeout" then
    match ParseDuration value with
    | Err err => Err err
    | Ok val => Ok (set_Timeout m val)
    end
  else if String.eqb name "retries" then
    match Sscanf_d value with
    | Err _ => Err (ErrInvalidRetries value)
    | Ok n => if n <? 0 then Err (ErrInvalidRetries value)
              else Ok (set_Retries m n)
    end
  else if String.eqb name "cache_file" then Ok (set_CacheFile m value)
  else if String.eqb name "url" then Ok (set_URLs m (URLs m ++ [value]))
  else Err ErrArg.

(** The directives applied in order, up to the first one that fails. *)
Fixpoint settings (m : URLIPRange) (es : list entry)
  : option error * URLIPRange :=
  match es with
  | [] => (None, m)
  | e :: rest =>
      match setting m (e_name e) (e_value e) with
      | Err err => (Some err, m)
      | Ok m1 => settings m1 rest
      end
  end.

(** Neither the name nor the argument of the directive is a brace. *)
Definition no_brace (e : entry) : Prop :=
  e_name e <> "{" /\ e_name e <> "}" /\ e_value e <> "{".

End Blocks.

(** ** The context of a request and the ticker of the refresh loop *)

Section Timing.

Context `{GoLib}.

Local Open Scope Z_scope.

(** What [getContext] derives from [s.ctx]: a context with a deadline
    [Timeout] after now, or one that can only be cancelled. *)
Inductive request_context : Type :=
| WithTimeout (d : Z)   (* context.WithTimeout(s.ctx, time.Duration(s.Timeout)) *)
| WithCancel.           (* context.WithCancel(s.ctx) *)

Definition getContext (s : URLIPRange) : request_context :=
  if 0 <? Timeout s then WithTimeout (Timeout s) else WithCancel.

(** [time.NewTicker(d)] panics when [d] is not positive. *)
Inductive ticker : Type :=
| Ticker (period : Z)
| TickerPanic.   (* panic("non-positive interval for NewTicker") *)

Definition time_NewTicker (d : Z) : ticker :=
  if d <=? 0 then TickerPanic else Ticker d.

(** The lines of [refreshLoop] in front of its loop: the default of the
    interval, and the ticker. *)
Definition refreshLoop_ticker (s : URLIPRange) : URLIPRange * ticker :=
  let s := if Interval s =? 0 then set_Interval s Hour else s in
  (s, time_NewTicker (Interval s)).

(** The directive [url u] on a line of its own. *)
Definition url_entries (urls : list string) (line : Z) : list entry :=
  map (fun p => mkEntry "url" (snd p) (line + Z.of_nat (fst p)))
      (combine (seq 0 (length urls)) urls).

End Timing.

(** ** Earlier versions of fetch

    The two earlier versions of the module that the repository holds
    differ from the present one in [fetch] (and in Provision, which had
    no cache to fall back on). *)

Module Earlier.

Section Versions.

Context `{GoLib}.

Local Open Scope Z_scope.

(** The first version: one attempt, the status of the response is not
    looked at, and neither is the error of the scanner; errors are
    returned as they are. *)
Definition fetch_v1 (api : string) (w : World)
  : result (list Prefix) * World :=
  match env_newRequest (w_env w) api with
  | Some err => (Err err, w)
  | None =>
      let '(out, w1) := http_Do api w in
      match out with
      | DoError err => (Err err, w1)
      | DoResponse _ body =>
          let '(lines, _) := Scan body in
          (scanLoop lines [], w1)
      end
  end.

(** The second version: the retry loop of the present one, without the
    check of [scanner.Err()]. *)
Fixpoint fetch_loop_v2 (s : URLIPRange) (api : string) (fuel : nat)
    (attempt : Z) (lastErr : option error) (w : World)
  : result (list Prefix) * World :=
  match fuel with
  | O => (Err (ErrAfterRetries (Retries s) lastErr), w)
  | S fuel' =>
      if attempt <=? Retries s then
        match env_newRequest (w_env w) api with
        | Some err => (Err (ErrAfterRetries (Retries s) (Some err)), w)
        | None =>
            let '(out, w1) := http_Do api w in
            let next (lastErr' : option error) :=
              let w2 := if attempt <? Retries s then time_Sleep1s w1 else w1 in
              fetch_loop_v2 s api fuel' (attempt + 1) lastErr' w2 in
            match out with
            | DoError err => next (Some err)
            | DoResponse StatusCode body =>
                if (StatusCode <? 200) || (299 <? StatusCode) then
                  next (Some (ErrHTTPStatus api StatusCode))
                else
                  let '(lines, _) := Scan body in
                  (scanLoop lines [], w1)
            end
        end
      else (Err (ErrAfterRetries (Retries s) lastErr), w)
  end.

Definition fetch_v2 (s : URLIPRange) (api : string) (w : World)
  : result (list Prefix) * World :=
  fetch_loop_v2 s api (Z.to_nat (Retries s + 1)) 0 None w.

(** No response of the peer at [api] makes the scanner fail. *)
Definition scans_cleanly (env : Env) (api : string) : Prop :=
  forall (n : nat) (status : Z) (body : Body),
    env_http env api n = DoResponse status body -> snd (Scan body) = None.

End Versions.

End Earlier.

(** ** Further scenarios *)

Module Cases.

Import Model Scenario.
Local Open Scope Z_scope.

(** A retry count below zero, as a JSON configuration can hold it. *)
Definition sNeg : @URLIPRange lib := config [url] (-2) "".

(** A URL that [http.NewRequestWithContext] refuses. *)
Definition bad_url : string := "http://lists.example/%zz".
Definition url_error : error := ErrLib "invalid URL escape".
Definition wBadURL : World :=
  world (mkEnv (fun api => if String.eqb api bad_url then Some url_error
                           else None)
               (fun _ _ => http500) "/var/lib/caddy") ∅.

(** A response of comments and blank lines. *)
Definition comments : string :=
  "# no ranges today" +:+ NL +:+ NL +:+ "   # none" +:+ NL.
Definition wComments : World :=
  world (peer [DoResponse 200 (text_body comments)]) ∅.

(** Scenario D with one more file and with I/O faults pending. *)
Definition other_file : string := "/var/lib/caddy/autosave.json".
Definition faulty (faults : list (option error)) : World :=
  mkWorld (peer []) [] 1700000000
          {[ cacheD := dataD; other_file := "{}" ]} [] faults [] 0.
Definition disk_full : error := ErrLib "no space left on device".
Definition one_range : list Prefix4 := [mkPrefix4 [192; 0; 2; 0] 24].

(** The cache file of scenario D with a string that is no prefix, and
    with bytes that are no JSON. *)
Definition data_invalid : string :=
  "{" +:+ quote "prefixes" +:+ ": [" +:+ quote "10.0.0.0/8" +:+ ", "
  +:+ quote "300.1.2.3/8" +:+ ", " +:+ quote "also bad" +:+ "], "
  +:+ quote "updated_at" +:+ ": " +:+ quote "1999-12-31T23:59:59Z" +:+ "}".
Definition wInvalid : World := world (peer []) {[ cacheD := data_invalid ]}.

(** Another list of URLs with the cache file of scenario D. *)
Definition sD' : @URLIPRange lib := config [url1; url2] 0 cacheD.

(** Scenario B, and a restart with the sources down. *)
Definition range_B : list Prefix4 := [mkPrefix4 [192; 0; 2; 1] 32].
Definition wB_fetched : World := after_attempts wB url 3 2.
Definition wB_saved : World := snd (@saveToCache lib sB range_B wB_fetched).
Definition wRestart : World :=
  mkWorld (peer []) [] 1700086400 (w_files wB_saved) [] [] [] 0.

(** The tokens of the test [TestUnmarshal] as a block, and blocks that
    are refused. *)
Definition test_entries : list entry :=
  [mkEntry "url" "https://www.cloudflare.com/ips-v4" 3;
   mkEntry "interval" "1.5h" 4; mkEntry "timeout" "30s" 5].

(** A response that is cut off by a read error after its first line. *)
Definition cut_off : error := ErrLib "unexpected EOF".
Definition wCut : World :=
  world (peer [DoResponse 200 (mkBody ("10.0.0.0/8" +:+ NL) (Some cut_off))])
        ∅.
Definition sOnce : @URLIPRange lib := config [url] 0 "".

(** The same response, then the whole list. *)
Definition whole_list : string :=
  "10.0.0.0/8" +:+ NL +:+ "172.16.0.0/12" +:+ NL.
Definition wCutThenWhole : World :=
  world (peer [DoResponse 200 (mkBody ("10.0.0.0/8" +:+ NL) (Some cut_off));
               DoResponse 200 (text_body whole_list)])
        ∅.

Definition same_line : caddyfile.Dispenser :=
  caddyfile.NewDispenser [tok "list" 1; tok "fast" 1; tok "{" 1; tok "}" 2].

End Cases.


(** * Properties *)

(** ** The retry loop of fetch *)

Section FetchProperties.

Context `{GoLib}.

Local Open Scope Z_scope.

Lemma requests_to_app (w : World) (api : string) (l : list string) :
  count_occ string_dec (w_requests w ++ l) api
  = (requests_to w api + count_occ string_dec l api)%nat.
Proof. unfold requests_to. apply count_occ_app. Qed.

Lemma count_occ_repeat_same (api : string) (n : nat) :
  count_occ string_dec (repeat api n) api = n.
Proof.
  induction n as [|n IH]; simpl; [reflexivity|].
  destruct (string_dec api api); congruence.
Qed.

Lemma after_attempts_zero (w : World) (api : string) :
  after_attempts w api 0 0 = w.
Proof.
  destruct w; unfold after_attempts; simpl.
  rewrite app_nil_r, Z.add_0_r. reflexivity.
Qed.

Lemma outcome_at_after (w : World) (api : string) (n : nat) (t : Z) (i : nat) :
  outcome_at (after_attempts w api n t) api i = outcome_at w api (n + i).
Proof.
  unfold outcome_at, requests_to, after_attempts; simpl.
  rewrite count_occ_app, count_occ_repeat_same.
  f_equal. lia.
Qed.

Lemma after_attempts_after (w : World) (api : string) (n m : nat) (t u : Z) :
  after_attempts (after_attempts w api n t) api m u
  = after_attempts w api (n + m) (t + u).
Proof.
  unfold after_attempts; simpl.
  rewrite <- app_assoc, <- repeat_app, Z.add_assoc. reflexivity.
Qed.

(** One request turns [w] into the world after one attempt. *)
Lemma http_Do_eq (api : string) (w : World) :
  http_Do api w = (outcome_at w api 0, after_attempts w api 1 0).
Proof.
  unfold http_Do, outcome_at, after_attempts, set_requests; simpl.
  rewrite Nat.add_0_r, Z.add_0_r. reflexivity.
Qed.

(** The three ways one attempt of the loop ends (lines 79-126). *)
Lemma fetch_loop_retryable (s : URLIPRange) (api : string) (fuel : nat)
    (attempt : Z) (lastErr : option error) (w : World) (e : error) :
  attempt <= Retries s ->
  env_newRequest (w_env w) api = None ->
  retryable_failure api (outcome_at w api 0) e ->
  fetch_loop s api (S fuel) attempt lastErr w
  = fetch_loop s api fuel (attempt + 1) (Some e)
      (after_attempts w api 1 (if attempt <? Retries s then 1 else 0)).
Proof.
  intros Hle Hreq Hfail.
  cbn [fetch_loop].
  apply Z.leb_le in Hle. rewrite Hle, Hreq, http_Do_eq.
  assert (Hw : (if attempt <? Retries s
                then time_Sleep1s (after_attempts w api 1 0)
                else after_attempts w api 1 0)
               = after_attempts w api 1 (if attempt <? Retries s then 1 else 0)).
  { destruct (attempt <? Retries s); [|reflexivity].
    unfold time_Sleep1s, set_clock, after_attempts; simpl.
    rewrite Z.add_0_r. reflexivity. }
  destruct Hfail as [Hts | Hsc].
  - inversion Hts as [e' Heq | st body Hst Heq]; subst.
    + rewrite Hw. reflexivity.
    + assert (Hb : ((st <? 200) || (299 <? st)) = true).
      { apply orb_true_iff. destruct Hst; [left|right]; apply Z.ltb_lt; lia. }
      rewrite Hb, Hw. reflexivity.
  - inversion Hsc as [st body lines e' prefixes Hst Hscan Hloop Heq]; subst.
    assert (Hb : ((st <? 200) || (299 <? st)) = false).
    { apply orb_false_iff. split; apply Z.ltb_ge; lia. }
    rewrite Hb, Hscan, Hloop, Hw. reflexivity.
Qed.

Lemma fetch_loop_successful (s : URLIPRange) (api : string) (fuel : nat)
    (attempt : Z) (lastErr : option error) (w : World)
    (prefixes : list Prefix) :
  attempt <= Retries s ->
  env_newRequest (w_env w) api = None ->
  successful (outcome_at w api 0) prefixes ->
  fetch_loop s api (S fuel) attempt lastErr w
  = (Ok prefixes, after_attempts w api 1 0).
Proof.
  intros Hle Hreq Hok.
  cbn [fetch_loop].
  apply Z.leb_le in Hle. rewrite Hle, Hreq, http_Do_eq.
  inversion Hok as [st body lines ps Hst Hscan Hloop Heq]; subst.
  assert (Hb : ((st <? 200) || (299 <? st)) = false).
  { apply orb_false_iff. split; apply Z.ltb_ge; lia. }
  rewrite Hb, Hscan, Hloop. reflexivity.
Qed.

Lemma fetch_loop_parse_failure (s : URLIPRange) (api : string) (fuel : nat)
    (attempt : Z) (lastErr : option error) (w : World) (e : error) :
  attempt <= Retries s ->
  env_newRequest (w_env w) api = None ->
  parse_failure (outcome_at w api 0) e ->
  fetch_loop s api (S fuel) attempt lastErr w
  = (Err e, after_attempts w api 1 0).
Proof.
  intros Hle Hreq Hbad.
  cbn [fetch_loop].
  apply Z.leb_le in Hle. rewrite Hle, Hreq, http_Do_eq.
  inversion Hbad as [st body lines scanErr e' Hst Hscan Hloop Heq]; subst.
  assert (Hb : ((st <? 200) || (299 <? st)) = false).
  { apply orb_false_iff. split; apply Z.ltb_ge; lia. }
  rewrite Hb, Hscan, Hloop. reflexivity.
Qed.

(** Every outcome is of exactly one of the three kinds. *)
Lemma outcome_cases (api : string) (o : do_outcome) :
  (exists e, retryable_failure api o e)
  \/ (exists prefixes, successful o prefixes)
  \/ (exists e, parse_failure o e).
Proof.
  destruct o as [e | st body].
  - left. exists e. left. constructor.
  - destruct (Z_lt_dec st 200) as [Hlo | Hlo].
    { left. eexists. left. constructor. lia. }
    destruct (Z_lt_dec 299 st) as [Hhi | Hhi].
    { left. eexists. left. constructor. lia. }
    destruct (Scan body) as [lines scanErr] eqn:Hscan.
    destruct (scanLoop lines []) as [prefixes | e] eqn:Hloop.
    + destruct scanErr as [e |].
      * left. exists e. right. econstructor; eauto. lia.
      * right. left. exists prefixes. econstructor; eauto. lia.
    + right. right. exists e. econstructor; eauto. lia.
Qed.

(** [k] retryable failures in a row, with attempts to spare: the loop
    goes through [k] turns, each followed by the delay. *)
Lemma fetch_loop_failures (s : URLIPRange) (api : string) (k : nat) :
  forall (fuel : nat) (attempt : Z) (lastErr : option error) (w : World),
    env_newRequest (w_env w) api = None ->
    attempt + Z.of_nat k <= Retries s ->
    (forall i, (i < k)%nat ->
               exists e, retryable_failure api (outcome_at w api i) e) ->
    exists lastErr',
      fetch_loop s api (k + fuel) attempt lastErr w
      = fetch_loop s api fuel (attempt + Z.of_nat k) lastErr'
          (after_attempts w api k (Z.of_nat k))
      /\ match k with
         | O => lastErr' = lastErr
         | S k' => exists e, lastErr' = Some e
                             /\ retryable_failure api (outcome_at w api k') e
         end.
Proof.
  induction k as [|k IH]; intros fuel attempt lastErr w Hreq Hle Hfail.
  - exists lastErr. simpl. rewrite Z.add_0_r, after_attempts_zero. auto.
  - destruct (Hfail 0%nat) as [e0 He0]; [lia|].
    replace (S k + fuel)%nat with (S (k + fuel)) by lia.
    rewrite (fetch_loop_retryable s api (k + fuel) attempt lastErr w e0);
      [| lia | assumption | assumption].
    assert (Hlt : (attempt <? Retries s) = true) by (apply Z.ltb_lt; lia).
    rewrite Hlt.
    destruct (IH fuel (attempt + 1) (Some e0) (after_attempts w api 1 1))
      as [lastErr' [Heq Hlast]].
    + exact Hreq.
    + lia.
    + intros i Hi. rewrite outcome_at_after. apply Hfail. lia.
    + exists lastErr'. split.
      * rewrite Heq, after_attempts_after.
        f_equal; [lia|]. f_equal; lia.
      * destruct k as [|k'].
        -- exists e0. split; [exact Hlast | exact He0].
        -- destruct Hlast as [e [He1 He2]].
           exists e. split; [exact He1|].
           rewrite outcome_at_after in He2. exact He2.
Qed.

(** With no attempt left the loop ends with the wrapped last error. *)
Lemma fetch_loop_exhausted (s : URLIPRange) (api : string) (fuel : nat)
    (attempt : Z) (lastErr : option error) (w : World) :
  Retries s < attempt ->
  fetch_loop s api fuel attempt lastErr w
  = (Err (ErrAfterRetries (Retries s) lastErr), w).
Proof.
  intros Hlt. destruct fuel as [|fuel]; [reflexivity|].
  cbn [fetch_loop].
  assert (Hb : (attempt <=? Retries s) = false) by (apply Z.leb_gt; lia).
  rewrite Hb. reflexivity.
Qed.

(** The fuel of [fetch] is the number of turns the loop condition
    allows: it never ends a loop that Go would continue. *)
Lemma fetch_fuel (s : URLIPRange) (k : nat) :
  Z.of_nat k <= Retries s ->
  Z.to_nat (Retries s + 1) = (k + S (Z.to_nat (Retries s) - k))%nat.
Proof. intros Hk. lia. Qed.

(** [k <= Retries] retryable failures, then a success. *)
Lemma fetch_succeeds_after (s : URLIPRange) (api : string) (w : World)
    (k : nat) (prefixes : list Prefix) :
  env_newRequest (w_env w) api = None ->
  Z.of_nat k <= Retries s ->
  (forall i, (i < k)%nat ->
             exists e, retryable_failure api (outcome_at w api i) e) ->
  successful (outcome_at w api k) prefixes ->
  fetch s api w = (Ok prefixes, after_attempts w api (k + 1) (Z.of_nat k)).
Proof.
  intros Hreq Hk Hfail Hok.
  unfold fetch. rewrite (fetch_fuel s k Hk).
  destruct (fetch_loop_failures s api k (S (Z.to_nat (Retries s) - k)) 0 None w)
    as [lastErr' [Heq _]]; [assumption | lia | assumption |].
  rewrite Heq.
  rewrite (fetch_loop_successful s api _ _ _ _ prefixes).
  - rewrite after_attempts_after. do 2 f_equal. lia.
  - lia.
  - exact Hreq.
  - rewrite outcome_at_after, Nat.add_0_r. exact Hok.
Qed.

(** [k <= Retries] retryable failures, then a malformed line. *)
Lemma fetch_aborts_after (s : URLIPRange) (api : string) (w : World)
    (k : nat) (e : error) :
  env_newRequest (w_env w) api = None ->
  Z.of_nat k <= Retries s ->
  (forall i, (i < k)%nat ->
             exists e, retryable_failure api (outcome_at w api i) e) ->
  parse_failure (outcome_at w api k) e ->
  fetch s api w = (Err e, after_attempts w api (k + 1) (Z.of_nat k)).
Proof.
  intros Hreq Hk Hfail Hbad.
  unfold fetch. rewrite (fetch_fuel s k Hk).
  destruct (fetch_loop_failures s api k (S (Z.to_nat (Retries s) - k)) 0 None w)
    as [lastErr' [Heq _]]; [assumption | lia | assumption |].
  rewrite Heq.
  rewrite (fetch_loop_parse_failure s api _ _ _ _ e).
  - rewrite after_attempts_after. do 2 f_equal. lia.
  - lia.
  - exact Hreq.
  - rewrite outcome_at_after, Nat.add_0_r. exact Hbad.
Qed.

(** Retryable failures only: [Retries + 1] attempts, [Retries] delays. *)
Lemma fetch_exhausts (s : URLIPRange) (api : string) (w : World) :
  env_newRequest (w_env w) api = None ->
  0 <= Retries s ->
  (forall i, (i <= Z.to_nat (Retries s))%nat ->
             exists e, retryable_failure api (outcome_at w api i) e) ->
  exists last,
    retryable_failure api (outcome_at w api (Z.to_nat (Retries s))) last
    /\ fetch s api w
       = (Err (ErrAfterRetries (Retries s) (Some last)),
          after_attempts w api (Z.to_nat (Retries s) + 1) (Retries s)).
Proof.
  intros Hreq Hr Hfail.
  set (r := Z.to_nat (Retries s)).
  destruct (Hfail r) as [last Hlast]; [lia|].
  exists last. split; [exact Hlast|].
  unfold fetch.
  replace (Z.to_nat (Retries s + 1)) with (r + 1)%nat by lia.
  destruct (fetch_loop_failures s api r 1 0 None w)
    as [lastErr' [Heq _]]; [assumption | lia | |].
  { intros i Hi. apply Hfail. lia. }
  rewrite Heq.
  rewrite (fetch_loop_retryable s api 0 _ _ _ last).
  - assert (Hb : (0 + Z.of_nat r <? Retries s) = false)
      by (apply Z.ltb_ge; lia).
    rewrite Hb, after_attempts_after. cbn [fetch_loop].
    do 2 f_equal. f_equal; lia.
  - lia.
  - exact Hreq.
  - rewrite outcome_at_after, Nat.add_0_r. exact Hlast.
Qed.

(** Without any attempt allowed, or with a URL no request can be built
    for, no request is sent. *)
Lemma fetch_negative_retries (s : URLIPRange) (api : string) (w : World) :
  Retries s < 0 ->
  fetch s api w = (Err (ErrAfterRetries (Retries s) None), w).
Proof. intros Hneg. unfold fetch. apply fetch_loop_exhausted. lia. Qed.

Lemma fetch_bad_request (s : URLIPRange) (api : string) (w : World)
    (err : error) :
  0 <= Retries s ->
  env_newRequest (w_env w) api = Some err ->
  fetch s api w = (Err (ErrAfterRetries (Retries s) (Some err)), w).
Proof.
  intros Hr Hreq. unfold fetch.
  replace (Z.to_nat (Retries s + 1)) with (S (Z.to_nat (Retries s))) by lia.
  cbn [fetch_loop].
  assert (Hb : (0 <=? Retries s) = true) by (apply Z.leb_le; lia).
  rewrite Hb, Hreq. reflexivity.
Qed.

(** The first outcome among the first [n] that is no retryable
    failure, if there is one. *)
Lemma first_final_outcome (api : string) (w : World) (n : nat) :
  (forall i, (i < n)%nat ->
             exists e, retryable_failure api (outcome_at w api i) e)
  \/ exists k, (k < n)%nat
       /\ (forall i, (i < k)%nat ->
                     exists e, retryable_failure api (outcome_at w api i) e)
       /\ ((exists prefixes, successful (outcome_at w api k) prefixes)
           \/ (exists e, parse_failure (outcome_at w api k) e)).
Proof.
  induction n as [|n IH].
  - left. intros i Hi. lia.
  - destruct IH as [Hall | [k [Hk Hrest]]].
    + destruct (outcome_cases api (outcome_at w api n)) as [Hr | Hfinal].
      * left. intros i Hi.
        destruct (Nat.eq_dec i n) as [-> | Hne]; [exact Hr | apply Hall; lia].
      * right. exists n. split; [lia|]. split; [exact Hall | exact Hfinal].
    + right. exists k. split; [lia | exact Hrest].
Qed.

(** What a fetch does, in full. *)
Lemma fetch_cases (s : URLIPRange) (api : string) (w : World) :
  0 <= Retries s ->
  env_newRequest (w_env w) api = None ->
  exists k : nat,
    Z.of_nat k <= Retries s
    /\ (forall i, (i < k)%nat ->
                  exists e, retryable_failure api (outcome_at w api i) e)
    /\ ((exists prefixes,
           successful (outcome_at w api k) prefixes
           /\ fetch s api w
              = (Ok prefixes, after_attempts w api (k + 1) (Z.of_nat k)))
        \/ (exists e,
              parse_failure (outcome_at w api k) e
              /\ fetch s api w
                 = (Err e, after_attempts w api (k + 1) (Z.of_nat k)))
        \/ (exists last,
              Z.of_nat k = Retries s
              /\ retryable_failure api (outcome_at w api k) last
              /\ fetch s api w
                 = (Err (ErrAfterRetries (Retries s) (Some last)),
                    after_attempts w api (k + 1) (Z.of_nat k)))).
Proof.
  intros Hr Hreq.
  destruct (first_final_outcome api w (S (Z.to_nat (Retries s))))
    as [Hall | [k [Hk [Hbefore Hfinal]]]].
  - exists (Z.to_nat (Retries s)). split; [lia|]. split.
    + intros i Hi. apply Hall. lia.
    + right. right.
      destruct (fetch_exhausts s api w Hreq Hr) as [last [Hlast Heq]].
      { intros i Hi. apply Hall. lia. }
      exists last. split; [lia|]. split; [exact Hlast|].
      rewrite Heq. do 2 f_equal. lia.
  - exists k. split; [lia|]. split; [exact Hbefore|].
    destruct Hfinal as [[prefixes Hok] | [e Hbad]].
    + left. exists prefixes. split; [exact Hok|].
      apply fetch_succeeds_after; auto. lia.
    + right. left. exists e. split; [exact Hbad|].
      apply fetch_aborts_after; auto. lia.
Qed.

Lemma requests_between_after (w : World) (api : string) (n : nat) (t : Z) :
  requests_between w (after_attempts w api n t) = Z.of_nat n.
Proof.
  unfold requests_between, after_attempts; simpl.
  rewrite length_app, repeat_length. lia.
Qed.

(** A fetch changes nothing but the list of requests and the clock. *)
Lemma fetch_world (s : URLIPRange) (api : string) (w : World) :
  exists (n : nat) (t : Z), snd (fetch s api w) = after_attempts w api n t.
Proof.
  destruct (Z_lt_dec (Retries s) 0) as [Hneg | Hpos].
  { rewrite fetch_negative_retries by exact Hneg.
    exists 0%nat, 0. simpl. symmetry. apply after_attempts_zero. }
  destruct (env_newRequest (w_env w) api) as [err|] eqn:Hreq.
  { rewrite (fetch_bad_request s api w err) by (lia || assumption).
    exists 0%nat, 0. simpl. symmetry. apply after_attempts_zero. }
  destruct (fetch_cases s api w) as [k [_ [_ Hcase]]]; [lia | exact Hreq |].
  exists (k + 1)%nat, (Z.of_nat k).
  destruct Hcase as [[ps [_ Heq]] | [[e [_ Heq]] | [last [_ [_ Heq]]]]];
    rewrite Heq; reflexivity.
Qed.

End FetchProperties.

(** ** The scanner and the line parser *)

Section LineProperties.

Context `{GoLib}.

Local Open Scope Z_scope.

Lemma line_lengths_head (data : list ascii) (n : Z) :
  exists m rest, line_lengths data n = m :: rest /\ n <= m.
Proof.
  revert n. induction data as [|c data IH]; intros n; simpl.
  - exists n, []. split; [reflexivity | lia].
  - destruct (Ascii.eqb c LF).
    + exists n, (line_lengths data 0). split; [reflexivity | lia].
    + destruct (IH (n + 1)) as [m [rest [Heq Hle]]].
      exists m, rest. split; [exact Heq | lia].
Qed.

(** As long as no line reaches [MaxScanTokenSize] bytes, the scanner
    delivers the lines of the text and ends without error. *)
Lemma scan_from_short_lines (data cur : list ascii) (n : Z) :
  Forall (fun m => m < MaxScanTokenSize) (line_lengths data n) ->
  scan_from data cur n = (text_lines data cur, None).
Proof.
  revert cur n. induction data as [|c data IH]; intros cur n Hshort; simpl.
  - reflexivity.
  - simpl in Hshort. destruct (Ascii.eqb c LF).
    + inversion Hshort as [|m l Hm Hrest]; subst.
      rewrite (IH [] 0 Hrest). reflexivity.
    + destruct (line_lengths_head data (n + 1)) as [m [rest [Heq Hle]]].
      rewrite Heq in Hshort. inversion Hshort as [|m' l Hm Hrest]; subst.
      assert (Hb : (MaxScanTokenSize <=? n + 1) = false)
        by (apply Z.leb_gt; lia).
      rewrite Hb. apply IH. rewrite Heq. exact Hshort.
Qed.

Lemma Scan_short_lines (b : Body) :
  Forall (fun m => m < MaxScanTokenSize)
         (line_lengths (list_ascii_of_string (body_bytes b)) 0) ->
  Scan b = (lines_of (body_bytes b), body_readErr b).
Proof.
  intros Hshort. unfold Scan, lines_of.
  rewrite (scan_from_short_lines _ [] 0 Hshort). reflexivity.
Qed.

(** The first malformed line ends the scanning loop with its error. *)
Lemma scanLoop_malformed (lines : list string) :
  Exists malformed lines ->
  forall prefixes, exists e, scanLoop lines prefixes = Err e.
Proof.
  induction lines as [|line lines IH]; intros Hex prefixes.
  - inversion Hex.
  - simpl. destruct (parseLine line) as [| p | e] eqn:Hline.
    + apply IH. inversion Hex as [? ? [e He] | ? ? Hrest]; subst;
        [congruence | exact Hrest].
    + apply IH. inversion Hex as [? ? [e He] | ? ? Hrest]; subst;
        [congruence | exact Hrest].
    + exists e. reflexivity.
Qed.

Lemma malformedb_spec (lines : list string) :
  existsb malformedb lines = true -> Exists malformed lines.
Proof.
  intros Hex. apply existsb_exists in Hex. destruct Hex as [line [Hin Hb]].
  apply List.Exists_exists. exists line. split; [exact Hin|].
  unfold malformedb in Hb. unfold malformed.
  destruct (parseLine line) as [| p | e]; try discriminate.
  exists e. reflexivity.
Qed.

(** Conversely the loop fails only on a malformed line. *)
Lemma scanLoop_Err (lines : list string) :
  forall prefixes e,
    scanLoop lines prefixes = Err e ->
    exists line, In line lines /\ parseLine line = LineError e.
Proof.
  induction lines as [|line lines IH]; intros prefixes e Hloop.
  - discriminate.
  - simpl in Hloop. destruct (parseLine line) as [| p | e'] eqn:Hline.
    + destruct (IH _ _ Hloop) as [l [Hin Hl]]. exists l. split; [right|]; auto.
    + destruct (IH _ _ Hloop) as [l [Hin Hl]]. exists l. split; [right|]; auto.
    + inversion Hloop; subst. exists line. split; [left|]; auto.
Qed.

(** *** strings.Index and the comment *)

Lemma append_cons (a : ascii) (x y : string) :
  String a x +:+ y = String a (x +:+ y).
Proof. reflexivity. Qed.

Lemma append_empty_r (x : string) : x +:+ "" = x.
Proof.
  induction x as [|a x IH]; [reflexivity|].
  rewrite append_cons, IH. reflexivity.
Qed.

Lemma IndexByte_range (s : string) (c : ascii) :
  IndexByte s c = -1
  \/ 0 <= IndexByte s c < Z.of_nat (String.length s).
Proof.
  induction s as [|a s IH]; simpl; [left; reflexivity|].
  destruct (Ascii.eqb a c); [right; lia|].
  destruct (IndexByte s c <? 0) eqn:Hneg; [left; reflexivity|].
  apply Z.ltb_ge in Hneg. right. lia.
Qed.

Lemma IndexByte_absent (s : string) (c : ascii) :
  IndexByte s c = -1 -> forall i, String.get i s <> Some c.
Proof.
  induction s as [|a s IH]; simpl; intros Hidx i; [discriminate|].
  destruct (Ascii.eqb a c) eqn:Hac; [discriminate|].
  destruct (IndexByte s c <? 0) eqn:Hneg.
  - destruct i as [|i].
    + intros Heq. inversion Heq; subst. rewrite Ascii.eqb_refl in Hac.
      discriminate.
    + apply IH. destruct (IndexByte_range s c) as [Hm | Hr]; [exact Hm|].
      apply Z.ltb_lt in Hneg. lia.
  - apply Z.ltb_ge in Hneg. lia.
Qed.



(** *** strings.TrimSpace *)









Section Trimming.

Variable len : list ascii -> nat.
Variable removed : list ascii -> Prop.
Hypothesis len_le : forall s, (len s <= length s)%nat.
Hypothesis len_removed :
  forall s n, len s = S n -> removed (firstn (S n) s).



End Trimming.



End LineProperties.

(** ** getPrefixes *)

Section AggregatorProperties.

Context `{GoLib}.

Local Open Scope Z_scope.

Lemma only_network_refl (w : World) : only_network w w.
Proof. unfold only_network. repeat split; reflexivity. Qed.

Lemma only_network_trans (w1 w2 w3 : World) :
  only_network w1 w2 -> only_network w2 w3 -> only_network w1 w3.
Proof.
  unfold only_network.
  intros (E1 & F1 & D1 & Fa1 & L1 & R1) (E2 & F2 & D2 & Fa2 & L2 & R2).
  repeat split; congruence.
Qed.

Lemma fetch_only_network (s : URLIPRange) (api : string) (w : World) :
  only_network w (snd (fetch s api w)).
Proof.
  destruct (fetch_world s api w) as [n [t Heq]]. rewrite Heq.
  unfold only_network, after_attempts; simpl. repeat split; reflexivity.
Qed.

Lemma getPrefixes_loop_only_network (s : URLIPRange) (urls : list string) :
  forall full w, only_network w (snd (getPrefixes_loop s urls full w)).
Proof.
  induction urls as [|url rest IH]; intros full w; simpl.
  - apply only_network_refl.
  - pose proof (fetch_only_network s url w) as Hf.
    destruct (fetch s url w) as [[prefixes | err] w1]; simpl in Hf.
    + eapply only_network_trans; [exact Hf | apply IH].
    + exact Hf.
Qed.

Lemma getPrefixes_only_network (s : URLIPRange) (w : World) :
  only_network w (snd (getPrefixes s w)).
Proof. apply getPrefixes_loop_only_network. Qed.

(** All fetches succeed: the results are appended in order. *)
Lemma getPrefixes_loop_ok (s : URLIPRange) (urls : list string)
    (w w' : World) (results : list (list Prefix)) :
  aggregates s urls w results w' ->
  forall full,
    getPrefixes_loop s urls full w = (Ok (full ++ concat results), w').
Proof.
  induction 1 as [w | url rest w w1 w' prefixes more Hfetch Hagg IH];
    intros full; simpl.
  - rewrite app_nil_r. reflexivity.
  - rewrite Hfetch, IH, app_assoc. reflexivity.
Qed.

(** The first failing fetch ends the loop with its error. *)
Lemma getPrefixes_loop_err (s : URLIPRange) (done : list string)
    (w w1 : World) (results : list (list Prefix)) :
  aggregates s done w results w1 ->
  forall url rest w2 err full,
    fetch s url w1 = (Err err, w2) ->
    getPrefixes_loop s (done ++ url :: rest) full w = (Err err, w2).
Proof.
  induction 1 as [w | u r w w1 w' prefixes more Hfetch Hagg IH];
    intros url rest w2 err full Hfail; simpl.
  - rewrite Hfail. reflexivity.
  - rewrite Hfetch. apply IH. exact Hfail.
Qed.

Lemma getPrefixes_loop_cases (s : URLIPRange) (urls : list string) :
  forall w,
    (exists results w', aggregates s urls w results w')
    \/ (exists done url rest results w1 w2 err,
          urls = done ++ url :: rest
          /\ aggregates s done w results w1
          /\ fetch s url w1 = (Err err, w2)).
Proof.
  induction urls as [|url rest IH]; intros w.
  - left. exists [], w. constructor.
  - destruct (fetch s url w) as [[prefixes | err] w1] eqn:Hfetch.
    + destruct (IH w1) as [[results [w' Hagg]]
                          | (done & u & r & results & wa & wb & err & Hurls
                             & Hagg & Hfail)].
      * left. exists (prefixes :: results), w'.
        econstructor; eassumption.
      * right. exists (url :: done), u, r, (prefixes :: results), wa, wb, err.
        split; [rewrite Hurls; reflexivity|].
        split; [econstructor; eassumption | exact Hfail].
    + right. exists [], url, rest, [], w, w1, err.
      split; [reflexivity|]. split; [constructor | exact Hfetch].
Qed.

(** The requests of the loop are grouped by URL, in the order of the
    list: [counts] tells how many requests each URL received. *)
Lemma getPrefixes_loop_requests (s : URLIPRange) (urls : list string) :
  forall full w,
    exists counts : list nat,
      length counts = length urls
      /\ w_requests (snd (getPrefixes_loop s urls full w))
         = w_requests w
           ++ concat (map (fun p => repeat (fst p) (snd p))
                          (combine urls counts)).
Proof.
  induction urls as [|url rest IH]; intros full w; simpl.
  - exists []. split; [reflexivity | rewrite app_nil_r; reflexivity].
  - destruct (fetch_world s url w) as [n [t Hw]].
    destruct (fetch s url w) as [[prefixes | err] w1]; simpl in Hw; subst w1.
    + destruct (IH (full ++ prefixes) (after_attempts w url n t))
        as [counts [Hlen Hreq]].
      exists (n :: counts). split; [simpl; lia|].
      rewrite Hreq. simpl. rewrite <- app_assoc. reflexivity.
    + exists (n :: repeat 0%nat (length rest)). split.
      * simpl. rewrite repeat_length. reflexivity.
      * simpl. f_equal.
        assert (Hnil : forall l : list string,
                   concat (map (fun p => repeat (fst p) (snd p))
                               (combine l (repeat 0%nat (length l)))) = []).
        { induction l as [|a l IHl]; [reflexivity | simpl; exact IHl]. }
        rewrite Hnil, app_nil_r. reflexivity.
Qed.

End AggregatorProperties.

(** ** The cache file *)

Section CacheProperties.

Context `{GoLib}.

Local Open Scope Z_scope.

Lemma cachePath_env (s : URLIPRange) (w w' : World) :
  w_env w' = w_env w -> cachePath s w' = cachePath s w.
Proof. intros Henv. unfold cachePath. rewrite Henv. reflexivity. Qed.

(** The path is always resolved. *)
Lemma cachePath_Ok (s : URLIPRange) (w : World) :
  exists path, cachePath s w = Ok path.
Proof.
  unfold cachePath.
  destruct (negb (String.eqb (CacheFile s) "")); eexists; reflexivity.
Qed.

Lemma take_fault_frame (w : World) :
  w_env (snd (take_fault w)) = w_env w
  /\ w_files (snd (take_fault w)) = w_files w
  /\ w_requests (snd (take_fault w)) = w_requests w
  /\ w_clock (snd (take_fault w)) = w_clock w
  /\ w_refreshLoops (snd (take_fault w)) = w_refreshLoops w
  /\ w_warnings (snd (take_fault w)) = w_warnings w.
Proof.
  unfold take_fault. destruct (w_faults w); simpl; repeat split; reflexivity.
Qed.

(** Loading reads: it leaves the files, the requests, the log and the
    goroutines as they are. *)
Lemma loadFromCache_frame (s : URLIPRange) (w : World) :
  let w' := snd (loadFromCache s w) in
  w_env w' = w_env w /\ w_files w' = w_files w
  /\ w_requests w' = w_requests w /\ w_clock w' = w_clock w
  /\ w_refreshLoops w' = w_refreshLoops w
  /\ w_warnings w' = w_warnings w.
Proof.
  unfold loadFromCache.
  destruct (cachePath s w) as [path | err]; [| simpl; repeat split; reflexivity].
  unfold os_Open.
  pose proof (take_fault_frame w) as Hf.
  destruct (take_fault w) as [[e|] w1]; simpl in Hf; [exact Hf |].
  destruct (w_files w1 !! path) as [data|]; [| exact Hf].
  destruct (json_Decode data); exact Hf.
Qed.

(** The loop over the cached strings: every string that parses adds its
    prefix, in order. *)
Lemma parseCached_Forall2 (ps : list string) (parsed : list Prefix) :
  Forall2 (fun p q => CIDRExpressionToPrefix p = Ok q) ps parsed ->
  forall prefixes, parseCached ps prefixes = Ok (prefixes ++ parsed).
Proof.
  induction 1 as [| p q ps parsed Hp Hrest IH]; intros prefixes; simpl.
  - rewrite app_nil_r. reflexivity.
  - rewrite Hp, IH, <- app_assoc. reflexivity.
Qed.

Lemma parseCached_valid (ps : list string) :
  Forall (fun p => exists q, CIDRExpressionToPrefix p = Ok q) ps ->
  exists parsed,
    Forall2 (fun p q => CIDRExpressionToPrefix p = Ok q) ps parsed.
Proof.
  induction 1 as [| p ps [q Hq] Hrest [parsed IH]].
  - exists []. constructor.
  - exists (q :: parsed). constructor; assumption.
Qed.

(** One invalid string fails the whole load. *)
Lemma parseCached_invalid (ps : list string) :
  Exists (fun p => exists e, CIDRExpressionToPrefix p = Err e) ps ->
  forall prefixes, exists p e, parseCached ps prefixes = Err (ErrInvalidCached p e).
Proof.
  induction ps as [|p ps IH]; intros Hex prefixes.
  - inversion Hex.
  - simpl. destruct (CIDRExpressionToPrefix p) as [q | e] eqn:Hp.
    + apply IH. inversion Hex as [? ? [e He] | ? ? Hrest]; subst;
        [congruence | exact Hrest].
    + exists p, e. reflexivity.
Qed.

Lemma parseCached_printed (P : list Prefix) :
  Forall (fun p => CIDRExpressionToPrefix (Prefix_String p) = Ok p) P ->
  Forall2 (fun str q => CIDRExpressionToPrefix str = Ok q)
          (map Prefix_String P) P.
Proof.
  induction 1 as [| p P Hp Hrest IH]; simpl; constructor; assumption.
Qed.

(** A load that finds [data] at the cache path. *)
Lemma loadFromCache_found (s : URLIPRange) (w : World) (path data : string) :
  cachePath s w = Ok path ->
  hd None (w_faults w) = None ->
  w_files w !! path = Some data ->
  fst (loadFromCache s w)
  = match json_Decode data with
    | Err err => Err err
    | Ok contents => parseCached (Prefixes contents) []
    end.
Proof.
  intros Hpath Hfault Hfile.
  unfold loadFromCache, os_Open, take_fault. rewrite Hpath.
  destruct (w_faults w) as [|f rest] eqn:Hfaults; simpl in Hfault.
  - rewrite Hfile. destruct (json_Decode data); reflexivity.
  - subst f. simpl. rewrite Hfile. destruct (json_Decode data); reflexivity.
Qed.

Lemma fs_only_refl (w : World) : fs_only w w.
Proof. unfold fs_only. repeat split; reflexivity. Qed.

Lemma fs_only_trans (w1 w2 w3 : World) :
  fs_only w1 w2 -> fs_only w2 w3 -> fs_only w1 w3.
Proof.
  unfold fs_only.
  intros (E1 & R1 & C1 & L1 & W1) (E2 & R2 & C2 & L2 & W2).
  repeat split; congruence.
Qed.

Lemma take_fault_fs_only (w : World) : fs_only w (snd (take_fault w)).
Proof.
  unfold take_fault, fs_only.
  destruct (w_faults w); simpl; repeat split; reflexivity.
Qed.

Ltac fs_call :=
  match goal with
  | |- fs_only ?w (snd (match take_fault ?w with _ => _ end)) =>
      let Hf := fresh "Hf" in
      pose proof (take_fault_fs_only w) as Hf;
      destruct (take_fault w) as [[?e|] ?w1]; simpl in Hf |- *;
      try exact Hf
  end.

Lemma os_MkdirAll_fs_only (dir : string) (w : World) :
  fs_only w (snd (os_MkdirAll dir w)).
Proof. unfold os_MkdirAll. fs_call. Qed.

Lemma os_OpenFile_trunc_fs_only (path : string) (w : World) :
  fs_only w (snd (os_OpenFile_trunc path w)).
Proof. unfold os_OpenFile_trunc. fs_call. Qed.

Lemma file_Write_fs_only (path data : string) (w : World) :
  fs_only w (snd (file_Write path data w)).
Proof. unfold file_Write. fs_call. Qed.

Lemma file_Close_fs_only (w : World) : fs_only w (snd (file_Close w)).
Proof. apply take_fault_fs_only. Qed.

Lemma os_Remove_fs_only (path : string) (w : World) :
  fs_only w (snd (os_Remove path w)).
Proof.
  unfold os_Remove. fs_call.
  destruct (w_files w1 !! path); simpl; exact Hf.
Qed.

Lemma os_Rename_fs_only (old new : string) (w : World) :
  fs_only w (snd (os_Rename old new w)).
Proof.
  unfold os_Rename. fs_call.
  destruct (w_files w1 !! old); simpl; exact Hf.
Qed.

Lemma Encode_fs_only (tmp : string) (c : cacheFileContents) (w : World) :
  fs_only w (snd (Encode tmp c w)).
Proof.
  unfold Encode. destruct (json_Encode c); simpl;
    [apply file_Write_fs_only | apply fs_only_refl].
Qed.

Lemma saveToCache_fs_only (s : URLIPRange) (prefixes : list Prefix)
    (w : World) :
  fs_only w (snd (saveToCache s prefixes w)).
Proof.
  unfold saveToCache.
  destruct (cachePath s w) as [path | err]; [| apply fs_only_refl].
  pose proof (os_MkdirAll_fs_only (filepath.Dir path) w) as H1.
  destruct (os_MkdirAll (filepath.Dir path) w) as [[e1|] w1];
    simpl in H1 |- *; [exact H1|].
  pose proof (os_OpenFile_trunc_fs_only (path +:+ ".tmp") w1) as H2.
  destruct (os_OpenFile_trunc (path +:+ ".tmp") w1) as [[e2|] w2];
    simpl in H2 |- *; [eapply fs_only_trans; eassumption|].
  match goal with
  | |- context [Encode ?t ?c w2] =>
      pose proof (Encode_fs_only t c w2) as H3;
      destruct (Encode t c w2) as [[e3|] w3]; simpl in H3 |- *
  end.
  - pose proof (file_Close_fs_only w3) as H4.
    pose proof (os_Remove_fs_only (path +:+ ".tmp") (snd (file_Close w3)))
      as H5.
    exact (fs_only_trans _ _ _ H1 (fs_only_trans _ _ _ H2
             (fs_only_trans _ _ _ H3 (fs_only_trans _ _ _ H4 H5)))).
  - pose proof (file_Close_fs_only w3) as H4.
    destruct (file_Close w3) as [[e4|] w4]; simpl in H4 |- *.
    + pose proof (os_Remove_fs_only (path +:+ ".tmp") w4) as H5.
      exact (fs_only_trans _ _ _ H1 (fs_only_trans _ _ _ H2
               (fs_only_trans _ _ _ H3 (fs_only_trans _ _ _ H4 H5)))).
    + pose proof (os_Rename_fs_only (path +:+ ".tmp") path w4) as H5.
      exact (fs_only_trans _ _ _ H1 (fs_only_trans _ _ _ H2
               (fs_only_trans _ _ _ H3 (fs_only_trans _ _ _ H4 H5)))).
Qed.

(** A save that returns no error has written the encoded contents and
    renamed the temporary file to the cache path. *)
Lemma saveToCache_success (s : URLIPRange) (prefixes : list Prefix)
    (w w' : World) :
  saveToCache s prefixes w = (None, w') ->
  exists path data,
    cachePath s w = Ok path
    /\ json_Encode (mkCacheFileContents (map Prefix_String prefixes)
                                        (w_clock w))
       = Ok data
    /\ w_files w' !! path = Some data.
Proof.
  unfold saveToCache.
  destruct (cachePath s w) as [path | err] eqn:Hpath; [| discriminate].
  unfold os_MkdirAll.
  pose proof (take_fault_frame w) as (_ & _ & _ & C1 & _).
  destruct (take_fault w) as [[e1|] w1]; [discriminate|]. simpl in C1.
  unfold os_OpenFile_trunc.
  set (w1d := set_dirs w1 _).
  assert (Hclock : time_Now w1d = w_clock w) by exact C1.
  rewrite Hclock.
  destruct (take_fault w1d) as [[e2|] w2]; [discriminate|].
  unfold Encode.
  destruct (json_Encode _) as [data | err] eqn:Henc.
  2:{ destruct (file_Close _); destruct (os_Remove _ _); discriminate. }
  unfold file_Write.
  set (w2f := set_files w2 _).
  destruct (take_fault w2f) as [[e3|] w3].
  { destruct (file_Close _); destruct (os_Remove _ _); discriminate. }
  set (w3f := set_files w3 _).
  unfold file_Close.
  pose proof (take_fault_frame w3f) as (_ & F4 & _).
  destruct (take_fault w3f) as [[e4|] w4]; simpl in F4.
  { destruct (os_Remove _ _); discriminate. }
  unfold os_Rename.
  pose proof (take_fault_frame w4) as (_ & F5 & _).
  destruct (take_fault w4) as [[e5|] w5]; [discriminate|]. simpl in F5.
  assert (Htmp : w_files w5 !! (path +:+ ".tmp") = Some data).
  { rewrite F5, F4. subst w3f. simpl. apply lookup_insert_eq. }
  rewrite Htmp. intros Heq. inversion Heq; subst w'.
  exists path, data. split; [reflexivity|].
  split; [reflexivity|]. simpl. apply lookup_insert_eq.
Qed.

End CacheProperties.

(** ** The path of the cache file *)

Section PathProperties.

Context `{GoLib}.

Local Open Scope Z_scope.

Lemma append_assoc (x y z : string) : (x +:+ y) +:+ z = x +:+ (y +:+ z).
Proof.
  induction x as [|a x IH]; [reflexivity|].
  rewrite !append_cons, IH. reflexivity.
Qed.

Lemma append_inv_head (x y z : string) : x +:+ y = x +:+ z -> y = z.
Proof.
  induction x as [|a x IH]; intros Heq; [exact Heq|].
  rewrite !append_cons in Heq. inversion Heq. auto.
Qed.

Lemma append_eq_empty (x y : string) : x +:+ y = "" -> y = "".
Proof.
  destruct x as [|a x]; [auto|]. rewrite append_cons. discriminate.
Qed.

(** *** filepath.Join with a file name *)

Lemma split_no_separator (n : string) :
  no_separator n = true ->
  forall cur, filepath.split n cur = [cur +:+ n].
Proof.
  induction n as [|c n IH]; intros Hn cur; simpl in *.
  - rewrite append_empty_r. reflexivity.
  - apply andb_true_iff in Hn. destruct Hn as [Hc Hn].
    apply negb_true_iff in Hc. rewrite Hc, (IH Hn), append_assoc.
    reflexivity.
Qed.

Lemma split_append_name (a n : string) :
  no_separator n = true ->
  forall cur,
    filepath.split (a +:+ "/" +:+ n) cur = filepath.split a cur ++ [n].
Proof.
  intros Hn. induction a as [|c a IH]; intros cur.
  - change ("" +:+ "/" +:+ n) with (String "/" n).
    simpl. rewrite (split_no_separator n Hn). reflexivity.
  - rewrite append_cons. simpl.
    destruct (Ascii.eqb c filepath.Separator); rewrite IH; reflexivity.
Qed.

Lemma strings_Join_snoc (l : list string) (sep n : string) :
  strings_Join (l ++ [n]) sep
  = match l with
    | [] => n
    | _ => strings_Join l sep +:+ sep +:+ n
    end.
Proof.
  induction l as [|e l IH]; [reflexivity|].
  destruct l as [|e' l]; [reflexivity|].
  change ((e :: e' :: l) ++ [n]) with (e :: ((e' :: l) ++ [n])).
  change (strings_Join (e :: (e' :: l) ++ [n]) sep)
    with (e +:+ sep +:+ strings_Join ((e' :: l) ++ [n]) sep).
  rewrite IH.
  change (strings_Join (e :: e' :: l) sep)
    with (e +:+ sep +:+ strings_Join (e' :: l) sep).
  rewrite !append_assoc. reflexivity.
Qed.

(** Under a directory that is not empty, [Join] puts a file name
    behind a prefix that the directory alone decides. *)
Lemma Join_plain_name (dir : string) :
  dir <> "" ->
  exists prefix, forall n,
    plain_name n = true -> filepath.Join dir n = prefix +:+ n.
Proof.
  intros Hdir.
  set (r := filepath.rooted dir).
  set (st := fold_left (filepath.push r) (filepath.split dir "") []).
  exists ((if r then "/" else "")
          +:+ match rev st with
              | [] => ""
              | l => strings_Join l "/" +:+ "/"
              end).
  intros n Hn. unfold plain_name in Hn.
  repeat (apply andb_true_iff in Hn; destruct Hn as [Hn ?]).
  apply negb_true_iff in Hn.
  assert (Hd : String.eqb dir "" = false) by (apply String.eqb_neq; exact Hdir).
  unfold filepath.Join. rewrite Hd. unfold filepath.Clean.
  assert (Hr : filepath.rooted (dir +:+ "/" +:+ n) = r).
  { destruct dir as [|c dir]; [congruence | reflexivity]. }
  rewrite Hr, split_append_name by assumption.
  rewrite fold_left_app. cbn [fold_left]. fold st.
  assert (Hpush : filepath.push r st n = n :: st).
  { unfold filepath.push. rewrite Hn. cbn [orb].
    repeat match goal with
           | Hb : negb _ = true |- _ => apply negb_true_iff in Hb; rewrite Hb
           end.
    reflexivity. }
  rewrite Hpush. cbn [rev]. rewrite strings_Join_snoc.
  assert (Hne : forall x, String.eqb (x +:+ n) "" = false).
  { intros x. apply String.eqb_neq. intros Hx.
    apply append_eq_empty in Hx. apply String.eqb_neq in Hn. auto. }
  destruct r.
  - destruct (rev st) as [|e l]; [reflexivity|].
    rewrite !append_cons. f_equal. rewrite !append_assoc. reflexivity.
  - destruct (rev st) as [|e l].
    + pose proof (Hne "") as Hx. change ("" +:+ n) with n in Hx.
      rewrite Hx. reflexivity.
    + rewrite <- append_assoc, Hne.
      change ("" +:+ ?x) with x. rewrite !append_assoc. reflexivity.
Qed.

Lemma Join_plain_inj (dir n1 n2 : string) :
  dir <> "" -> plain_name n1 = true -> plain_name n2 = true ->
  filepath.Join dir n1 = filepath.Join dir n2 -> n1 = n2.
Proof.
  intros Hdir H1 H2 Heq.
  destruct (Join_plain_name dir Hdir) as [prefix Hjoin].
  rewrite (Hjoin n1 H1), (Hjoin n2 H2) in Heq.
  apply append_inv_head in Heq. exact Heq.
Qed.

(** *** The derived file name *)

Lemma list_ascii_of_append (x y : string) :
  list_ascii_of_string (x +:+ y)
  = list_ascii_of_string x ++ list_ascii_of_string y.
Proof.
  induction x as [|a x IH]; [reflexivity|].
  rewrite append_cons. simpl. rewrite IH. reflexivity.
Qed.

Lemma append_inv_tail (x y t : string) : x +:+ t = y +:+ t -> x = y.
Proof.
  intros Heq. apply (f_equal list_ascii_of_string) in Heq.
  rewrite !list_ascii_of_append in Heq. apply app_inv_tail in Heq.
  rewrite <- (string_of_list_ascii_of_string x),
          <- (string_of_list_ascii_of_string y), Heq.
  reflexivity.
Qed.

Lemma no_separator_append (x y : string) :
  no_separator (x +:+ y) = no_separator x && no_separator y.
Proof.
  induction x as [|a x IH]; [reflexivity|].
  rewrite append_cons. simpl. rewrite IH, andb_assoc. reflexivity.
Qed.

Lemma be_bytes_range (n : nat) (x : Z) :
  Forall (fun b => 0 <= b < 256) (sha256.be_bytes n x).
Proof.
  unfold sha256.be_bytes. apply Forall_map, Forall_forall.
  intros i _. apply Z.mod_pos_bound. lia.
Qed.

Lemma Sum256_range (data : string) :
  Forall (fun b => 0 <= b < 256) (sha256.Sum256 data).
Proof.
  unfold sha256.Sum256. apply Forall_flat_map, Forall_forall.
  intros x _. apply be_bytes_range.
Qed.

Lemma hex_digit_code (d : Z) :
  0 <= d < 16 ->
  N_of_ascii (hex.digit d) = Z.to_N (if d <? 10 then 48 + d else 87 + d).
Proof.
  intros Hd. unfold hex.digit. apply N_ascii_embedding.
  destruct (d <? 10) eqn:Hlt; lia.
Qed.

Lemma hex_digit_inj (a b : Z) :
  0 <= a < 16 -> 0 <= b < 16 -> hex.digit a = hex.digit b -> a = b.
Proof.
  intros Ha Hb Heq. apply (f_equal N_of_ascii) in Heq.
  rewrite !hex_digit_code in Heq by assumption.
  destruct (a <? 10) eqn:Ha10; destruct (b <? 10) eqn:Hb10;
    try apply Z.ltb_lt in Ha10; try apply Z.ltb_ge in Ha10;
    try apply Z.ltb_lt in Hb10; try apply Z.ltb_ge in Hb10; lia.
Qed.

Lemma hex_digit_not_separator (d : Z) :
  0 <= d < 16 -> Ascii.eqb (hex.digit d) filepath.Separator = false.
Proof.
  intros Hd. apply Ascii.eqb_neq. intros Heq.
  apply (f_equal N_of_ascii) in Heq. rewrite hex_digit_code in Heq by exact Hd.
  change (N_of_ascii filepath.Separator) with 47%N in Heq.
  destruct (d <? 10); lia.
Qed.

Lemma byte_digits (b : Z) :
  0 <= b < 256 -> 0 <= b / 16 < 16 /\ 0 <= b mod 16 < 16.
Proof.
  intros Hb. split.
  - split; [apply Z.div_pos; lia | apply Z.div_lt_upper_bound; lia].
  - apply Z.mod_pos_bound. lia.
Qed.

Lemma EncodeToString_no_separator (bs : list Z) :
  Forall (fun b => 0 <= b < 256) bs ->
  no_separator (hex.EncodeToString bs) = true.
Proof.
  induction 1 as [| b bs Hb Hrest IH]; [reflexivity|].
  destruct (byte_digits b Hb) as [Hhi Hlo]. simpl.
  rewrite (hex_digit_not_separator _ Hhi), (hex_digit_not_separator _ Hlo), IH.
  reflexivity.
Qed.

Lemma EncodeToString_inj (l1 l2 : list Z) :
  Forall (fun b => 0 <= b < 256) l1 ->
  Forall (fun b => 0 <= b < 256) l2 ->
  hex.EncodeToString l1 = hex.EncodeToString l2 -> l1 = l2.
Proof.
  intros H1. revert l2.
  induction H1 as [| a l1 Ha Hl1 IH]; intros l2 H2 Heq.
  - destruct l2; [reflexivity | discriminate].
  - destruct H2 as [| b l2 Hb Hl2]; [discriminate|].
    simpl in Heq. inversion Heq as [[Hhi Hlo Hrest]].
    destruct (byte_digits a Ha) as [Ha1 Ha2].
    destruct (byte_digits b Hb) as [Hb1 Hb2].
    apply hex_digit_inj in Hhi; [| assumption | assumption].
    apply hex_digit_inj in Hlo; [| assumption | assumption].
    f_equal; [| apply IH; assumption].
    rewrite (Z.div_mod a 16), (Z.div_mod b 16) by lia. congruence.
Qed.

(** The derived name is a file name, and it determines the digest. *)
Lemma cache_name_plain (urls : list string) :
  plain_name (cache_name urls) = true.
Proof.
  unfold plain_name, cache_name.
  rewrite !no_separator_append, EncodeToString_no_separator
    by apply Sum256_range.
  reflexivity.
Qed.

Lemma cache_name_inj (urls1 urls2 : list string) :
  cache_name urls1 = cache_name urls2 ->
  sha256.Sum256 (strings_Join urls1 "|")
  = sha256.Sum256 (strings_Join urls2 "|").
Proof.
  unfold cache_name. intros Heq.
  apply append_inv_head in Heq. apply append_inv_tail in Heq.
  apply EncodeToString_inj in Heq; [exact Heq | |]; apply Sum256_range.
Qed.

(** *** strings.Join on URLs without vertical bar *)

Lemma no_bar_cons (a : ascii) (u : string) :
  no_bar (String a u) -> a <> "|"%char /\ no_bar u.
Proof.
  unfold no_bar. simpl.
  destruct (Ascii.eqb a "|") eqn:Ha; [discriminate|].
  apply Ascii.eqb_neq in Ha.
  destruct (IndexByte u "|" <? 0) eqn:Hneg.
  - intros _. split; [exact Ha|].
    destruct (IndexByte_range u "|") as [Hm | Hr]; [exact Hm|].
    apply Z.ltb_lt in Hneg. lia.
  - apply Z.ltb_ge in Hneg. lia.
Qed.

Lemma no_bar_not_joined (e1 e2 y : string) :
  no_bar e1 -> e1 <> e2 +:+ String "|" y.
Proof.
  revert e1. induction e2 as [|c e2 IH]; intros e1 Hno Heq.
  - change ("" +:+ String "|" y) with (String "|" y) in Heq. subst e1.
    apply no_bar_cons in Hno. destruct Hno as [Hne _]. congruence.
  - rewrite append_cons in Heq. subst e1.
    apply no_bar_cons in Hno. destruct Hno as [_ Hno].
    exact (IH _ Hno eq_refl).
Qed.

Lemma append_bar_inj (e1 e2 x y : string) :
  no_bar e1 -> no_bar e2 ->
  e1 +:+ String "|" x = e2 +:+ String "|" y -> e1 = e2 /\ x = y.
Proof.
  revert e2. induction e1 as [|a e1 IH]; intros e2 H1 H2 Heq.
  - destruct e2 as [|c e2].
    + inversion Heq. split; reflexivity.
    + rewrite append_cons in Heq.
      change ("" +:+ String "|" x) with (String "|" x) in Heq.
      inversion Heq; subst c.
      apply no_bar_cons in H2. destruct H2 as [Hne _]. congruence.
  - destruct e2 as [|c e2].
    + rewrite append_cons in Heq.
      change ("" +:+ String "|" y) with (String "|" y) in Heq.
      inversion Heq; subst a.
      apply no_bar_cons in H1. destruct H1 as [Hne _]. congruence.
    + rewrite !append_cons in Heq. inversion Heq; subst c.
      apply no_bar_cons in H1. apply no_bar_cons in H2.
      destruct (IH e2 (proj2 H1) (proj2 H2)) as [He Hxy]; [assumption|].
      split; [f_equal; exact He | exact Hxy].
Qed.

(** Lists of URLs that are not empty and hold no vertical bar are
    determined by their joined string. *)
Lemma strings_Join_bar_inj (l1 : list string) :
  forall l2,
    l1 <> [] -> l2 <> [] ->
    Forall no_bar l1 -> Forall no_bar l2 ->
    strings_Join l1 "|" = strings_Join l2 "|" -> l1 = l2.
Proof.
  induction l1 as [|e1 r1 IH]; intros l2 Hne1 Hne2 H1 H2 Heq;
    [congruence|].
  destruct l2 as [|e2 r2]; [congruence|].
  inversion H1 as [| ? ? He1 Hr1]; subst.
  inversion H2 as [| ? ? He2 Hr2]; subst.
  destruct r1 as [|f1 r1]; destruct r2 as [|f2 r2].
  - simpl in Heq. congruence.
  - exfalso. apply (no_bar_not_joined e1 e2 (strings_Join (f2 :: r2) "|") He1).
    exact Heq.
  - exfalso. apply (no_bar_not_joined e2 e1 (strings_Join (f1 :: r1) "|") He2).
    symmetry. exact Heq.
  - change (e1 +:+ String "|" (strings_Join (f1 :: r1) "|")
            = e2 +:+ String "|" (strings_Join (f2 :: r2) "|")) in Heq.
    destruct (append_bar_inj _ _ _ _ He1 He2 Heq) as [He Hrest].
    f_equal; [exact He|].
    apply IH; [discriminate | discriminate | assumption | assumption |
               exact Hrest].
Qed.

Lemma cachePath_derived (s : URLIPRange) (w : World) :
  CacheFile s = "" ->
  cachePath s w
  = Ok (filepath.Join
          (if String.eqb (env_appDataDir (w_env w)) "" then "."
           else env_appDataDir (w_env w))
          (cache_name (URLs s))).
Proof. intros Hc. unfold cachePath. rewrite Hc. reflexivity. Qed.

End PathProperties.

(** ** UnmarshalCaddyfile: the loop ends before its fuel does *)

Section UnmarshalProperties.

Context `{GoLib}.

Import caddyfile.
Local Open Scope Z_scope.

Lemma moves_forward_refl (d : Dispenser) : moves_forward d d.
Proof. unfold moves_forward. split; [reflexivity | lia]. Qed.

Lemma moves_forward_trans (d1 d2 d3 : Dispenser) :
  moves_forward d1 d2 -> moves_forward d2 d3 -> moves_forward d1 d3.
Proof.
  unfold moves_forward, len. intros [T1 C1] [T2 C2].
  rewrite T1 in C2. split; [congruence | lia].
Qed.

Lemma set_nesting_moves (d : Dispenser) (n : Z) :
  moves_forward d (set_nesting d n).
Proof. unfold moves_forward; simpl. split; [reflexivity | lia]. Qed.

Lemma Next_moves (d : Dispenser) :
  moves_forward d (snd (Next d))
  /\ (fst (Next d) = true -> cursor (snd (Next d)) = cursor d + 1).
Proof.
  unfold Next, moves_forward, len.
  destruct (cursor d <? Z.of_nat (length (tokens d)) - 1) eqn:Hlt; simpl.
  - apply Z.ltb_lt in Hlt. split; [split; [reflexivity | lia] | reflexivity].
  - split; [split; [reflexivity | lia] | discriminate].
Qed.

Lemma nextOnSameLine_moves (d : Dispenser) :
  moves_forward d (snd (nextOnSameLine d))
  /\ (fst (nextOnSameLine d) = true ->
      cursor (snd (nextOnSameLine d)) = cursor d + 1).
Proof.
  unfold nextOnSameLine, moves_forward, len.
  destruct (cursor d <? 0) eqn:Hneg; simpl.
  - apply Z.ltb_lt in Hneg. split; [split; [reflexivity | lia] | reflexivity].
  - apply Z.ltb_ge in Hneg.
    destruct (Z.of_nat (length (tokens d)) - 1 <=? cursor d) eqn:Hend; simpl.
    + split; [split; [reflexivity | lia] | discriminate].
    + apply Z.leb_gt in Hend.
      destruct (negb (isNextOnNewLine _ _)); simpl.
      * split; [split; [reflexivity | lia] | reflexivity].
      * split; [split; [reflexivity | lia] | discriminate].
Qed.

Lemma NextArg_moves (d : Dispenser) : moves_forward d (snd (NextArg d)).
Proof.
  unfold NextArg.
  destruct (nextOnSameLine_moves d) as [Hm Hc].
  destruct (nextOnSameLine d) as [b d1]; simpl in *.
  destruct b; simpl; [| exact Hm].
  destruct (String.eqb (Val d1) "{"); simpl; [| exact Hm].
  specialize (Hc eq_refl). destruct Hm as [Ht Hr].
  unfold moves_forward; simpl. split; [exact Ht | lia].
Qed.

(** A turn of the loop that enters the block moves the cursor. *)
Lemma NextBlock_moves (n : Z) (d : Dispenser) :
  moves_forward d (snd (NextBlock n d))
  /\ (fst (NextBlock n d) = true -> cursor d < cursor (snd (NextBlock n d))).
Proof.
  unfold NextBlock.
  destruct (n <? nesting d).
  - destruct (Next_moves d) as [Hm Hc].
    destruct (Next d) as [b d1]; simpl in *.
    destruct b; simpl; [| split; [exact Hm | discriminate]].
    specialize (Hc eq_refl).
    match goal with
    | |- moves_forward d ?d3 /\ _ =>
        assert (H3 : moves_forward d1 d3); [| generalize dependent d3]
    end.
    { destruct (String.eqb (Val d1) "}").
      - destruct (nextOnSameLine_moves d1) as [Hm2 _].
        destruct (nextOnSameLine d1) as [b2 d2]; simpl in *.
        destruct b2; simpl.
        + destruct (String.eqb (Val d2) "{"); [| exact Hm2].
          destruct (nextOnSameLine_moves d2) as [Hm3 _].
          destruct (nextOnSameLine d2) as [b3 d2']; simpl in *.
          destruct b3; simpl.
          * eapply moves_forward_trans; eassumption.
          * eapply moves_forward_trans; [exact Hm2|].
            eapply moves_forward_trans; [exact Hm3|].
            apply set_nesting_moves.
        + eapply moves_forward_trans; [exact Hm2 | apply set_nesting_moves].
      - destruct (String.eqb (Val d1) "{"); [| apply moves_forward_refl].
        destruct (nextOnSameLine_moves d1) as [Hm2 _].
        destruct (nextOnSameLine d1) as [b2 d2]; simpl in *.
        destruct b2; simpl; [exact Hm2|].
        eapply moves_forward_trans; [exact Hm2 | apply set_nesting_moves]. }
    intros d3 H3. split.
    + eapply moves_forward_trans; eassumption.
    + intros _. destruct H3 as [_ H3]. lia.
  - destruct (nextOnSameLine_moves d) as [Hm Hc].
    destruct (nextOnSameLine d) as [b d1]; simpl in *.
    destruct b; simpl; [| split; [exact Hm | discriminate]].
    specialize (Hc eq_refl).
    destruct (String.eqb (Val d1) "{"); simpl.
    + destruct (Next_moves d1) as [Hm2 _].
      destruct (String.eqb (Val (snd (Next d1))) "}"); simpl.
      * split; [eapply moves_forward_trans; eassumption | discriminate].
      * split.
        -- eapply moves_forward_trans; [exact Hm|].
           eapply moves_forward_trans; [exact Hm2|].
           apply set_nesting_moves.
        -- intros _. destruct Hm2 as [_ Hm2]. lia.
    + split; [| discriminate].
      destruct Hm as [Ht Hr]. unfold moves_forward; simpl.
      split; [exact Ht | lia].
Qed.

Lemma directive_moves (m : URLIPRange) (d : Dispenser) :
  moves_forward d (snd (directive m d)).
Proof.
  unfold directive.
  pose proof (NextArg_moves d) as Hm.
  repeat match goal with
         | |- context [if String.eqb ?a ?b then _ else _] =>
             destruct (String.eqb a b)
         end;
    try (destruct (NextArg d) as [b d1]; simpl in *;
         destruct b; simpl; try exact Hm;
         repeat match goal with
                | |- context [match ?x with _ => _ end] => destruct x; simpl
                end;
         exact Hm).
  simpl. apply moves_forward_refl.
Qed.

(** With more fuel than tokens left, one unit more changes nothing:
    the loop ends because [NextBlock] or a directive ends it. *)
Lemma unmarshal_loop_fuel (fuel : nat) :
  forall (n : Z) (m : URLIPRange) (d : Dispenser),
    cursor d <= Z.max (len d - 1) 0 ->
    len d - cursor d < Z.of_nat fuel ->
    unmarshal_loop (S fuel) n m d = unmarshal_loop fuel n m d.
Proof.
  induction fuel as [|fuel IH]; intros n m d Hrange Hfuel.
  - unfold len in *. lia.
  - cbn [unmarshal_loop].
    destruct (NextBlock_moves n d) as [[Ht Hr] Hadv].
    destruct (NextBlock n d) as [b d1]; simpl in *.
    destruct b; simpl; [| reflexivity].
    specialize (Hadv eq_refl).
    pose proof (directive_moves m d1) as [Ht2 Hr2].
    destruct (directive m d1) as [[m1 | err] d2]; simpl in *; [| reflexivity].
    assert (Hlen1 : len d1 = len d) by (unfold len; rewrite Ht; reflexivity).
    assert (Hlen2 : len d2 = len d)
      by (unfold len; rewrite Ht2, Ht; reflexivity).
    change (unmarshal_loop (S fuel) n m1 d2 = unmarshal_loop fuel n m1 d2).
    apply IH; lia.
Qed.

Lemma UnmarshalCaddyfile_fuel (m : URLIPRange) (d : Dispenser)
    (extra : nat) :
  -1 <= cursor d <= Z.max (len d - 1) 0 ->
  let d2 := snd (NextArg (snd (Next d))) in
  unmarshal_loop (extra + S (S (length (tokens d2)))) (Nesting d2) m d2
  = unmarshal_loop (S (S (length (tokens d2)))) (Nesting d2) m d2.
Proof.
  intros Hrange d2.
  assert (Hd2 : moves_forward d d2).
  { eapply moves_forward_trans; [apply Next_moves | apply NextArg_moves]. }
  destruct Hd2 as [Ht Hr].
  assert (Hlen : len d2 = len d) by (unfold len; rewrite Ht; reflexivity).
  induction extra as [|extra IH]; [reflexivity|].
  cbn [Nat.add]. rewrite <- IH.
  apply unmarshal_loop_fuel; unfold len in *; lia.
Qed.

End UnmarshalProperties.

(** * The claims of the specification *)

Section Claims.

Context `{GoLib}.

Local Open Scope Z_scope.


(** C3 (amended). With [Retries s >= 0] and a URL a request can be
    built for: when a 2xx response in which the scanner delivers a
    malformed line follows [k <= Retries s] retryable failures, fetch
    returns the error of that line at once, after exactly [k + 1]
    requests, however many attempts remain. Every 2xx body that has a
    malformed line and no line of [MaxScanTokenSize] bytes or more is
    such a response. The attempts that are followed by another one are
    those that end in a retryable failure: a transport failure, a
    status outside 200-299, or a scanner error (a read error of the
    body, or a line of [MaxScanTokenSize] bytes or more). *)
Theorem fetch_parse_error_not_retried (s : URLIPRange) (api : string)
    (w : World) :
  0 <= Retries s ->
  env_newRequest (w_env w) api = None ->
  (forall (k : nat) (e : error),
      Z.of_nat k <= Retries s ->
      (forall i, (i < k)%nat ->
                 exists e', retryable_failure api (outcome_at w api i) e') ->
      parse_failure (outcome_at w api k) e ->
      fetch s api w = (Err e, after_attempts w api (k + 1) (Z.of_nat k))
      /\ requests_between w (snd (fetch s api w)) = Z.of_nat k + 1)
  /\ (forall (status : Z) (body : Body),
         200 <= status <= 299 ->
         Forall (fun m => m < MaxScanTokenSize)
                (line_lengths (list_ascii_of_string (body_bytes body)) 0) ->
         Exists malformed (lines_of (body_bytes body)) ->
         exists e line,
           In line (lines_of (body_bytes body))
           /\ parseLine line = LineError e
           /\ parse_failure (DoResponse status body) e)
  /\ (forall i : nat,
         Z.of_nat i + 1 < requests_between w (snd (fetch s api w)) ->
         exists e, retryable_failure api (outcome_at w api i) e).
Proof.
  intros Hr Hreq. split; [| split].
  - intros k e Hk Hfail Hbad.
    pose proof (fetch_aborts_after s api w k e Hreq Hk Hfail Hbad) as Heq.
    split; [exact Heq|].
    rewrite Heq. cbn [snd]. rewrite requests_between_after. lia.
  - intros status body Hst Hshort Hex.
    destruct (scanLoop_malformed _ Hex []) as [e He].
    destruct (scanLoop_Err _ _ _ He) as [line [Hin Hline]].
    exists e, line. split; [exact Hin|]. split; [exact Hline|].
    apply (pf_intro status body (lines_of (body_bytes body))
                    (body_readErr body) e Hst).
    + apply Scan_short_lines. exact Hshort.
    + exact He.
  - intros i Hi.
    destruct (fetch_cases s api w Hr Hreq) as [k [_ [Hbefore Hcase]]].
    assert (Hn : requests_between w (snd (fetch s api w)) = Z.of_nat k + 1).
    { destruct Hcase as [[ps [_ Heq]] | [[e [_ Heq]] | [last [_ [_ Heq]]]]];
        rewrite Heq; cbn [snd]; rewrite requests_between_after; lia. }
    apply Hbefore. lia.
Qed.


(** C7. getPrefixes fetches the URLs of the configuration strictly in
    order. When all fetches succeed, the result is the concatenation of
    their results in that order. The first URL whose fetch fails ends
    the aggregation with that error: no list is returned, and the
    world is the one that fetch left, so no later URL is requested.
    One of the two always is the case, and the requests sent are
    grouped by URL in the order of the list. *)
Theorem getPrefixes_in_order (s : URLIPRange) (w : World) :
  (forall (results : list (list Prefix)) (w' : World),
      aggregates s (URLs s) w results w' ->
      getPrefixes s w = (Ok (concat results), w'))
  /\ (forall (done : list string) (url : string) (rest : list string)
             (results : list (list Prefix)) (w1 w2 : World) (err : error),
         URLs s = done ++ url :: rest ->
         aggregates s done w results w1 ->
         fetch s url w1 = (Err err, w2) ->
         getPrefixes s w = (Err err, w2))
  /\ ((exists results w', aggregates s (URLs s) w results w')
      \/ (exists done url rest results w1 w2 err,
             URLs s = done ++ url :: rest
             /\ aggregates s done w results w1
             /\ fetch s url w1 = (Err err, w2)))
  /\ (exists counts : list nat,
         length counts = length (URLs s)
         /\ w_requests (snd (getPrefixes s w))
            = w_requests w
              ++ concat (map (fun p => repeat (fst p) (snd p))
                             (combine (URLs s) counts))).
Proof.
  split; [| split; [| split]].
  - intros results w' Hagg. unfold getPrefixes.
    rewrite (getPrefixes_loop_ok s (URLs s) w w' results Hagg []).
    reflexivity.
  - intros done url rest results w1 w2 err Hurls Hagg Hfail.
    unfold getPrefixes. rewrite Hurls.
    apply (getPrefixes_loop_err s done w w1 results Hagg). exact Hfail.
  - apply getPrefixes_loop_cases.
  - apply getPrefixes_loop_requests.
Qed.


(** C4. One cycle of the refresh loop. When the aggregate fetch fails,
    the instance is left as it is, so the published prefixes are the
    same, and no file system call is made: the files (the cache file
    among them, byte for byte), the directories and the pending faults
    are the same; the loop then goes on with the next event. When the
    fetch succeeds, the published prefixes are replaced by the new
    list as a whole, whatever the save to the cache returns. The loop
    ends at the cancellation of the context. *)
Theorem refreshCycle_contract (s : URLIPRange) (w : World) :
  (forall (err : error) (w1 : World),
      getPrefixes s w = (Err err, w1) ->
      fst (refreshCycle s w) = s
      /\ GetIPRanges (fst (refreshCycle s w)) = GetIPRanges s
      /\ w_files (snd (refreshCycle s w)) = w_files w
      /\ w_dirs (snd (refreshCycle s w)) = w_dirs w
      /\ w_faults (snd (refreshCycle s w)) = w_faults w
      /\ forall events,
           refreshLoop_select s w (TickerC :: events)
           = refreshLoop_select s (snd (refreshCycle s w)) events)
  /\ (forall (fullPrefixes : list Prefix) (w1 : World),
         getPrefixes s w = (Ok fullPrefixes, w1) ->
         GetIPRanges (fst (refreshCycle s w)) = fullPrefixes
         /\ fst (refreshCycle s w) = set_ranges s fullPrefixes
         /\ snd (refreshCycle s w)
            = match saveToCache (set_ranges s fullPrefixes) fullPrefixes w1
              with
              | (Some _, w2) =>
                  log_Warn "failed to save IP ranges cache after refresh" w2
              | (None, w2) => w2
              end)
  /\ (forall events, refreshLoop_select s w (CtxDone :: events) = (s, w)).
Proof.
  split; [| split].
  - intros err w1 Hget.
    pose proof (getPrefixes_only_network s w) as Hnet.
    rewrite Hget in Hnet.
    destruct Hnet as (_ & Hfiles & Hdirs & Hfaults & _).
    assert (Hcycle : refreshCycle s w
                     = (s, log_Warn
                             "failed to refresh IP ranges; keeping existing cache"
                             w1)).
    { unfold refreshCycle. rewrite Hget. reflexivity. }
    rewrite Hcycle. simpl in *.
    repeat split; try assumption; try reflexivity.
    intros events. rewrite Hcycle. reflexivity.
  - intros fullPrefixes w1 Hget.
    unfold refreshCycle. rewrite Hget.
    destruct (saveToCache (set_ranges s fullPrefixes) fullPrefixes w1)
      as [[e|] w2]; repeat split; reflexivity.
  - intros events. reflexivity.
Qed.

(** C5. The round trip of the cache. For every list [P] of prefixes
    that netip reads back from what it prints, and whose strings the
    JSON decoder finds again in what the encoder wrote: when
    [saveToCache s P] returns no error, a following [loadFromCache s]
    whose [os.Open] meets no I/O fault returns a list equal to [P],
    in the same order. *)
Theorem cache_round_trip (s : URLIPRange) (w w1 : World) (P : list Prefix) :
  Forall prints_and_parses P ->
  json_round_trip
    (mkCacheFileContents (map Prefix_String P) (w_clock w)) ->
  saveToCache s P w = (None, w1) ->
  hd None (w_faults w1) = None ->
  fst (loadFromCache s w1) = Ok P.
Proof.
  intros Hnetip Hjson Hsave Hopen.
  destruct (saveToCache_success s P w w1 Hsave)
    as (path & data & Hpath & Henc & Hfile).
  pose proof (saveToCache_fs_only s P w) as Hfs.
  rewrite Hsave in Hfs. destruct Hfs as (Henv & _).
  rewrite (loadFromCache_found s w1 path data).
  - destruct (Hjson data Henc) as (c' & Hdec & Hstrs).
    rewrite Hdec, Hstrs. cbn [Prefixes].
    rewrite (parseCached_Forall2 (map Prefix_String P) P).
    + reflexivity.
    + apply parseCached_printed. exact Hnetip.
  - rewrite (cachePath_env s w w1 Henv). exact Hpath.
  - exact Hopen.
  - exact Hfile.
Qed.

(** C6 (amended). The path of the cache file. An explicit override
    path is returned as it is. Otherwise the path is [filepath.Join]
    of the application data directory (of [.] when that is empty) and
    the file name [ip-list-cache-<hex>.json], where [<hex>] is the
    SHA-256 digest of the URLs joined by a vertical bar. Two
    configurations without override whose URL lists are identical, or
    have the same joined string, resolve to the same path; two whose
    joined strings have different digests resolve to different paths;
    and two different lists of URLs, not empty and without vertical
    bar, have different joined strings. *)
Theorem cachePath_resolution (s1 s2 : URLIPRange) (w : World) :
  (CacheFile s1 <> "" -> cachePath s1 w = Ok (CacheFile s1))
  /\ (CacheFile s1 = "" ->
      cachePath s1 w
      = Ok (filepath.Join
              (if String.eqb (env_appDataDir (w_env w)) "" then "."
               else env_appDataDir (w_env w))
              ("ip-list-cache-"
               +:+ hex.EncodeToString
                     (sha256.Sum256 (strings_Join (URLs s1) "|"))
               +:+ ".json")))
  /\ (CacheFile s1 = "" -> CacheFile s2 = "" ->
      URLs s1 = URLs s2 -> cachePath s1 w = cachePath s2 w)
  /\ (CacheFile s1 = "" -> CacheFile s2 = "" ->
      strings_Join (URLs s1) "|" = strings_Join (URLs s2) "|" ->
      cachePath s1 w = cachePath s2 w)
  /\ (CacheFile s1 = "" -> CacheFile s2 = "" ->
      sha256.Sum256 (strings_Join (URLs s1) "|")
      <> sha256.Sum256 (strings_Join (URLs s2) "|") ->
      cachePath s1 w <> cachePath s2 w)
  /\ (URLs s1 <> [] -> URLs s2 <> [] ->
      Forall no_bar (URLs s1) -> Forall no_bar (URLs s2) ->
      URLs s1 <> URLs s2 ->
      strings_Join (URLs s1) "|" <> strings_Join (URLs s2) "|").
Proof.
  split; [| split; [| split; [| split; [| split]]]].
  - intros Hset. unfold cachePath.
    apply String.eqb_neq in Hset. rewrite Hset. reflexivity.
  - intros Hc. apply cachePath_derived. exact Hc.
  - intros H1 H2 Hurls.
    rewrite !cachePath_derived by assumption. rewrite Hurls. reflexivity.
  - intros H1 H2 Hjoin.
    rewrite !cachePath_derived by assumption.
    unfold cache_name. rewrite Hjoin. reflexivity.
  - intros H1 H2 Hsum Heq.
    rewrite !cachePath_derived in Heq by assumption.
    inversion Heq as [Hjoin].
    apply Join_plain_inj in Hjoin.
    + apply Hsum. apply cache_name_inj. exact Hjoin.
    + destruct (String.eqb (env_appDataDir (w_env w)) "") eqn:Hdir;
        [discriminate | apply String.eqb_neq; exact Hdir].
    + apply cache_name_plain.
    + apply cache_name_plain.
  - intros Hne1 Hne2 Hb1 Hb2 Hdiff Hjoin. apply Hdiff.
    apply strings_Join_bar_inj; assumption.
Qed.

(** C9 (amended). A configuration without source URL is accepted.
    UnmarshalCaddyfile returns no error for the block [list { }] and
    leaves the list of URLs empty; for every configuration whose list
    of URLs is empty, Provision returns no error, sends no request,
    publishes the empty list of prefixes, calls the save to the cache
    for the empty list and starts the refresh loop. The world that
    Provision leaves is the one the save of the empty list leaves from
    the initial world, with a warning when the save fails and with the
    refresh loop started; when the save succeeds the cache file holds
    the record of the empty list. *)
Theorem empty_URLs_accepted (s : URLIPRange) (w : World) :
  URLs s = [] ->
  fst (fst (Provision s w)) = None
  /\ GetIPRanges (snd (fst (Provision s w))) = []
  /\ w_requests (snd (Provision s w)) = w_requests w
  /\ w_refreshLoops (snd (Provision s w)) = S (w_refreshLoops w)
  /\ (exists (saveErr : option error) (w2 : World),
         saveToCache (set_ranges s []) [] w = (saveErr, w2)
         /\ Provision s w
            = (None, set_ranges s [],
               go_refreshLoop
                 match saveErr with
                 | Some _ => log_Warn "failed to save IP ranges cache" w2
                 | None => w2
                 end))
  /\ (forall w2 : World,
         saveToCache (set_ranges s []) [] w = (None, w2) ->
         exists path data,
           cachePath s w = Ok path
           /\ json_Encode (mkCacheFileContents [] (w_clock w)) = Ok data
           /\ w_files (snd (Provision s w)) !! path = Some data)
  /\ fst (fst (UnmarshalCaddyfile zero_URLIPRange Scenario.empty_block))
     = None
  /\ URLs (snd (fst (UnmarshalCaddyfile zero_URLIPRange
                                        Scenario.empty_block))) = [].
Proof.
  intros Hurls.
  assert (Hget : getPrefixes s w = (Ok [], w)).
  { unfold getPrefixes. rewrite Hurls. reflexivity. }
  pose proof (saveToCache_fs_only (set_ranges s []) [] w) as Hfs.
  destruct (saveToCache (set_ranges s []) [] w) as [saveErr w2] eqn:Hsave.
  destruct Hfs as (_ & Hreq & _ & Hloops & _). cbn [snd] in Hreq, Hloops.
  assert (Hprov : Provision s w
                  = (None, set_ranges s [],
                     go_refreshLoop
                       match saveErr with
                       | Some _ =>
                           log_Warn "failed to save IP ranges cache" w2
                       | None => w2
                       end)).
  { unfold Provision. rewrite Hget, Hsave. destruct saveErr; reflexivity. }
  rewrite Hprov.
  split; [reflexivity|]. split; [reflexivity|].
  split; [destruct saveErr; simpl; exact Hreq|].
  split; [destruct saveErr; simpl; rewrite Hloops; reflexivity|].
  split; [exists saveErr, w2; split; reflexivity|].
  split; [| split; reflexivity].
  intros w2' Hnone. inversion Hnone; subst.
  destruct (saveToCache_success (set_ranges s []) [] w w2' Hsave)
    as (path & data & Hpath & Henc & Hfile).
  exists path, data. split; [exact Hpath|]. split; [exact Henc|].
  exact Hfile.
Qed.

(** C10. The load from the cache does not look at [updated_at] nor at
    the clock. For every cache file that decodes to a record whose
    prefix strings are all valid CIDR expressions, whatever its
    [updated_at] and whatever the time of the load, [loadFromCache]
    returns the prefixes of these strings, in order; and a Provision
    whose aggregate fetch fails publishes them and returns no error. *)
Theorem loadFromCache_ignores_age (s : URLIPRange) (w : World)
    (path data : string) (strs : list string) (updated_at : Z) :
  cachePath s w = Ok path ->
  hd None (w_faults w) = None ->
  w_files w !! path = Some data ->
  json_Decode data = Ok (mkCacheFileContents strs updated_at) ->
  Forall (fun str => exists p, CIDRExpressionToPrefix str = Ok p) strs ->
  exists parsed : list Prefix,
    Forall2 (fun str p => CIDRExpressionToPrefix str = Ok p) strs parsed
    /\ fst (loadFromCache s w) = Ok parsed
    /\ forall (err : error) (w1 : World),
         getPrefixes s w = (Err err, w1) ->
         fst (fst (Provision s w)) = None
         /\ GetIPRanges (snd (fst (Provision s w))) = parsed.
Proof.
  intros Hpath Hopen Hfile Hdec Hvalid.
  destruct (parseCached_valid strs Hvalid) as [parsed Hparsed].
  exists parsed. split; [exact Hparsed|].
  assert (Hload : forall w0,
             w_env w0 = w_env w -> w_faults w0 = w_faults w ->
             w_files w0 = w_files w ->
             fst (loadFromCache s w0) = Ok parsed).
  { intros w0 Henv Hfaults Hfiles.
    rewrite (loadFromCache_found s w0 path data).
    - rewrite Hdec. cbn [Prefixes].
      apply (parseCached_Forall2 strs parsed Hparsed []).
    - rewrite (cachePath_env s w w0 Henv). exact Hpath.
    - rewrite Hfaults. exact Hopen.
    - rewrite Hfiles. exact Hfile. }
  split; [apply Hload; reflexivity|].
  intros err w1 Hget.
  pose proof (getPrefixes_only_network s w) as Hnet.
  rewrite Hget in Hnet.
  destruct Hnet as (Henv & Hfiles & _ & Hfaults & _). simpl in *.
  specialize (Hload w1 Henv Hfaults Hfiles).
  destruct (loadFromCache s w1) as [[cached | cacheErr] w2] eqn:Hl;
    simpl in Hload; [| discriminate].
  inversion Hload; subst cached.
  unfold Provision. rewrite Hget, Hl. split; reflexivity.
Qed.

End Claims.

(** * Witnesses, counterexamples and tests *)

Section Witnesses.

Import Model Scenario.
Local Open Scope Z_scope.



(** A malformed second line in the first response, with [retries = 2]:
    the error of that line after one request. *)
Lemma fetch_parse_error_not_retried_witness :
  @fetch lib sB url wM
  = (Err (ErrLib "unable to parse IP"), after_attempts wM url 1 0)
  /\ requests_between wM (snd (@fetch lib sB url wM)) = 1.
Proof.
  assert (Hr : 0 <= @Retries lib sB) by (simpl; lia).
  assert (Hreq : env_newRequest (w_env wM) url = None) by reflexivity.
  destruct (@fetch_parse_error_not_retried lib sB url wM Hr Hreq)
    as [Haborts _].
  apply (Haborts 0%nat (ErrLib "unable to parse IP")).
  - simpl. lia.
  - intros i Hi. lia.
  - apply (pf_intro (H := lib) 200 (text_body bad_body)
             ["10.0.0.0/8"; "not-a-cidr # oops"] None).
    + lia.
    + reflexivity.
    + reflexivity.
Defined.

(** C3 as stated fails. The body of the first response is one line of
    [MaxScanTokenSize] bytes and its line feed, a malformed line; the
    scanner ends with
    [ErrTooLong], which is neither a transport failure nor a status
    outside 200-299, and fetch does not return a parse error: with
    [retries = 1] it sends a second request and returns its prefix. *)
Lemma fetch_retries_overlong_line :
  outcome_at wL url 0 = DoResponse 200 (text_body long_body)
  /\ Exists (@malformed lib) (lines_of long_body)
  /\ Scan (text_body long_body) = ([], Some ErrTooLong)
  /\ (forall e, ~ transport_or_status_failure url (outcome_at wL url 0) e)
  /\ fst (@fetch lib sL url wL) = Ok [mkPrefix4 [10; 0; 0; 0] 8]
  /\ requests_between wL (snd (@fetch lib sL url wL)) = 2.
Proof.
  assert (Hout : outcome_at wL url 0 = DoResponse 200 (text_body long_body)).
  { cbv [outcome_at wL world peer w_env env_http requests_to w_requests
         count_occ Nat.add nth]. reflexivity. }
  split; [exact Hout|]. split; [| split; [| split; [| split]]].
  - apply malformedb_spec. vm_compute. reflexivity.
  - vm_compute. reflexivity.
  - intros e Hts. rewrite Hout in Hts. clear Hout.
    remember (text_body long_body) as body eqn:Hbody. clear Hbody.
    inversion Hts; lia.
  - vm_compute. reflexivity.
  - vm_compute. reflexivity.
Qed.


(** Three sources. When all answer, their prefixes come in the order
    of the configuration; when the second one is down, its error is
    the result and the third one is never requested. *)
Lemma getPrefixes_in_order_witness :
  @getPrefixes lib s3 wUp
  = (Ok [mkPrefix4 [10; 0; 0; 0] 8; mkPrefix4 [172; 16; 0; 0] 12;
         mkPrefix4 [172; 32; 0; 0] 11; mkPrefix4 [192; 0; 2; 1] 32],
     after_attempts
       (after_attempts (after_attempts wUp url1 1 0) url2 1 0) url3 1 0)
  /\ @getPrefixes lib s3 wDown
     = (Err (ErrAfterRetries 1 (Some (ErrHTTPStatus url2 500))),
        after_attempts (after_attempts wDown url1 1 0) url2 2 1).
Proof.
  destruct (@getPrefixes_in_order lib s3 wUp) as [Hall _].
  destruct (@getPrefixes_in_order lib s3 wDown) as [_ [Hfirst _]].
  set (r1 := [mkPrefix4 [10; 0; 0; 0] 8] : list (@Prefix lib)).
  set (r2 := [mkPrefix4 [172; 16; 0; 0] 12; mkPrefix4 [172; 32; 0; 0] 11]
             : list (@Prefix lib)).
  set (r3 := [mkPrefix4 [192; 0; 2; 1] 32] : list (@Prefix lib)).
  split.
  - apply (Hall [r1; r2; r3]).
    apply (@agg_cons lib s3 url1 [url2; url3] wUp
             (after_attempts wUp url1 1 0) _ r1 [r2; r3]);
      [vm_compute; reflexivity|].
    apply (@agg_cons lib s3 url2 [url3] _
             (after_attempts (after_attempts wUp url1 1 0) url2 1 0) _
             r2 [r3]);
      [vm_compute; reflexivity|].
    apply (@agg_cons lib s3 url3 [] _
             (after_attempts
                (after_attempts (after_attempts wUp url1 1 0) url2 1 0)
                url3 1 0) _ r3 []);
      [vm_compute; reflexivity | apply agg_nil].
  - apply (Hfirst [url1] url2 [url3] [r1] (after_attempts wDown url1 1 0)).
    + reflexivity.
    + apply (@agg_cons lib s3 url1 [] wDown
               (after_attempts wDown url1 1 0) _ r1 []);
        [vm_compute; reflexivity | apply agg_nil].
    + vm_compute. reflexivity.
Defined.


(** An instance that serves [198.51.100.0/24]. A cycle with the second
    source down keeps that range and the files; a cycle with all
    sources up replaces it by the four new prefixes. *)
Lemma refreshCycle_contract_witness :
  (@GetIPRanges lib (fst (@refreshCycle lib s3_serving wDown))
   = [mkPrefix4 [198; 51; 100; 0] 24]
   /\ w_files (snd (@refreshCycle lib s3_serving wDown)) = w_files wDown)
  /\ @GetIPRanges lib (fst (@refreshCycle lib s3_serving wUp))
     = [mkPrefix4 [10; 0; 0; 0] 8; mkPrefix4 [172; 16; 0; 0] 12;
        mkPrefix4 [172; 32; 0; 0] 11; mkPrefix4 [192; 0; 2; 1] 32].
Proof.
  destruct (@refreshCycle_contract lib s3_serving wDown) as [Hfail _].
  destruct (@refreshCycle_contract lib s3_serving wUp) as [_ [Hok _]].
  split.
  - destruct (Hfail (ErrAfterRetries 1 (Some (ErrHTTPStatus url2 500)))
                    (after_attempts (after_attempts wDown url1 1 0) url2 2 1))
      as [_ [Hranges [Hfiles _]]].
    + vm_compute. reflexivity.
    + split; [exact Hranges | exact Hfiles].
  - destruct (Hok [mkPrefix4 [10; 0; 0; 0] 8; mkPrefix4 [172; 16; 0; 0] 12;
                   mkPrefix4 [172; 32; 0; 0] 11; mkPrefix4 [192; 0; 2; 1] 32]
                  (after_attempts
                     (after_attempts (after_attempts wUp url1 1 0) url2 1 0)
                     url3 1 0))
      as [Hranges _].
    + vm_compute. reflexivity.
    + exact Hranges.
Defined.

(** Two prefixes saved under the derived path and loaded again. *)
Lemma cache_round_trip_witness :
  fst (@loadFromCache lib sB
         (snd (@saveToCache lib sB
                 [mkPrefix4 [172; 16; 0; 0] 12; mkPrefix4 [10; 0; 0; 0] 8]
                 wC)))
  = Ok [mkPrefix4 [172; 16; 0; 0] 12; mkPrefix4 [10; 0; 0; 0] 8].
Proof.
  apply (@cache_round_trip lib sB wC).
  - repeat constructor.
  - intros data Henc. vm_compute in Henc. inversion Henc; subst data.
    eexists. split; vm_compute; reflexivity.
  - vm_compute. reflexivity.
  - vm_compute. reflexivity.
Defined.

(** Two single sources: different digests, different paths; and the
    override path as it is. *)
Lemma cachePath_resolution_witness :
  @cachePath lib (config [url1] 0 "") wC
  <> @cachePath lib (config [url2] 0 "") wC
  /\ @cachePath lib sD wC = Ok cacheD.
Proof.
  destruct (@cachePath_resolution lib (config [url1] 0 "")
              (config [url2] 0 "") wC) as [_ [_ [_ [_ [Hdiffer _]]]]].
  destruct (@cachePath_resolution lib sD sD wC) as [Hoverride _].
  split.
  - apply Hdiffer.
    + reflexivity.
    + reflexivity.
    + vm_compute. discriminate.
  - apply Hoverride. vm_compute. discriminate.
Defined.

(** C6 as stated fails. A list of one URL that holds a vertical bar
    and the list of its two halves differ, yet they have the same
    joined string and resolve to the same path. *)
Lemma cachePath_shared_by_different_lists :
  @URLs lib s_one <> @URLs lib s_two
  /\ @CacheFile lib s_one = "" /\ @CacheFile lib s_two = ""
  /\ @cachePath lib s_one wC = @cachePath lib s_two wC.
Proof.
  split; [| split; [| split]].
  - vm_compute. discriminate.
  - reflexivity.
  - reflexivity.
  - vm_compute. reflexivity.
Qed.

(** The zero configuration in the world of scenario C: the save
    succeeds and leaves the cache file. *)
Lemma empty_URLs_accepted_witness :
  fst (fst (@Provision lib zero_URLIPRange wC)) = None
  /\ @GetIPRanges lib (snd (fst (@Provision lib zero_URLIPRange wC))) = []
  /\ w_requests (snd (@Provision lib zero_URLIPRange wC)) = []
  /\ exists path data,
       @cachePath lib zero_URLIPRange wC = Ok path
       /\ w_files (snd (@Provision lib zero_URLIPRange wC)) !! path
          = Some data.
Proof.
  destruct (@empty_URLs_accepted lib zero_URLIPRange wC eq_refl)
    as (Herr & Hranges & Hreq & _ & _ & Hsaved & _).
  split; [exact Herr|]. split; [exact Hranges|]. split; [exact Hreq|].
  destruct (Hsaved (snd (@saveToCache lib (set_ranges zero_URLIPRange [])
                           [] wC)))
    as (path & data & Hpath & _ & Hfile).
  - vm_compute. reflexivity.
  - exists path, data. split; [exact Hpath | exact Hfile].
Defined.

(** C9 as stated fails. The block [list { }], which the test
    [TestDefault] of the module unmarshals and provisions, names no
    URL; unmarshalling returns no error, and provisioning the result
    returns no error and starts the refresh loop. *)
Lemma empty_block_provisions :
  fst (fst (@UnmarshalCaddyfile lib zero_URLIPRange empty_block)) = None
  /\ @URLs lib
       (snd (fst (@UnmarshalCaddyfile lib zero_URLIPRange empty_block))) = []
  /\ fst (fst (@Provision lib
                 (snd (fst (@UnmarshalCaddyfile lib zero_URLIPRange
                              empty_block))) wC)) = None
  /\ w_refreshLoops
       (snd (@Provision lib
               (snd (fst (@UnmarshalCaddyfile lib zero_URLIPRange
                            empty_block))) wC)) = 1%nat.
Proof. repeat split; vm_compute; reflexivity. Qed.

(** The cache file of scenario D was written in 1999 and is loaded in
    2023. *)
Lemma loadFromCache_ignores_age_witness :
  w_clock wD - 946684799 > 20 * 365 * 86400
  /\ fst (@loadFromCache lib sD wD)
     = Ok [mkPrefix4 [10; 0; 0; 0] 8; mkPrefix4 [172; 16; 0; 0] 12].
Proof.
  split; [vm_compute; reflexivity|].
  destruct (@loadFromCache_ignores_age lib sD wD cacheD dataD
              ["10.0.0.0/8"; "172.16.0.0/12"] 946684799)
    as (parsed & Hparsed & Hload & _).
  - reflexivity.
  - reflexivity.
  - vm_compute. reflexivity.
  - vm_compute. reflexivity.
  - repeat constructor; eexists; vm_compute; reflexivity.
  - rewrite Hload. f_equal.
    inversion Hparsed as [| ? p1 ? ps1 Hp1 Hrest1]; subst.
    inversion Hrest1 as [| ? p2 ? ps2 Hp2 Hrest2]; subst.
    inversion Hrest2; subst.
    vm_compute in Hp1. vm_compute in Hp2.
    inversion Hp1. inversion Hp2. reflexivity.
Defined.

(** The tests of the module, run on the model. *)

(** TestUnmarshal: an interval of 90 minutes, a timeout of 30 seconds. *)
Example TestUnmarshal :
  fst (fst (@UnmarshalCaddyfile lib zero_URLIPRange test_unmarshal)) = None
  /\ @Interval lib
       (snd (fst (@UnmarshalCaddyfile lib zero_URLIPRange test_unmarshal)))
     = 90 * 60 * 1000000000
  /\ @Timeout lib
       (snd (fst (@UnmarshalCaddyfile lib zero_URLIPRange test_unmarshal)))
     = 30 * 1000000000.
Proof. repeat split; vm_compute; reflexivity. Qed.

(** TestUnmarshalNested: the same inside another block; afterwards the
    cursor is in front of [other_module]. *)
Example TestUnmarshalNested :
  fst (fst (@UnmarshalCaddyfile lib zero_URLIPRange test_nested)) = None
  /\ @Interval lib
       (snd (fst (@UnmarshalCaddyfile lib zero_URLIPRange test_nested)))
     = 90 * 60 * 1000000000
  /\ caddyfile.Val
       (snd (caddyfile.Next
               (snd (@UnmarshalCaddyfile lib zero_URLIPRange test_nested))))
     = "other_module".
Proof. repeat split; vm_compute; reflexivity. Qed.

(** TestRetriesProvision: two failures and one success are three calls
    to the backend, and Provision returns no error. *)
Example TestRetriesProvision :
  fst (fst (@Provision lib sB wB)) = None
  /\ length (w_requests (snd (@Provision lib sB wB))) = 3%nat.
Proof. split; vm_compute; reflexivity. Qed.

(** TestRetriesProvisionAllFail: three attempts, and an error. *)
Example TestRetriesProvisionAllFail :
  fst (fst (@Provision lib sB wC)) <> None
  /\ length (w_requests (snd (@Provision lib sB wC))) = 3%nat.
Proof. split; vm_compute; [discriminate | reflexivity]. Qed.

End Witnesses.



(** * Further properties of the code *)

(** ** fetch *)

Section MoreFetch.

Context `{GoLib}.

Local Open Scope Z_scope.

Lemma fetch_effort (s : URLIPRange) (api : string) (w : World) :
  exists n : nat,
    snd (fetch s api w)
    = after_attempts w api n (Z.max 0 (Z.of_nat n - 1))
    /\ Z.of_nat n <= Z.max 0 (Retries s + 1).
Proof.
  destruct (Z_lt_dec (Retries s) 0) as [Hneg | Hpos].
  { rewrite fetch_negative_retries by exact Hneg.
    exists 0%nat. simpl. split; [symmetry; apply after_attempts_zero | lia]. }
  destruct (env_newRequest (w_env w) api) as [err|] eqn:Hreq.
  { rewrite (fetch_bad_request s api w err) by (lia || assumption).
    exists 0%nat. simpl. split; [symmetry; apply after_attempts_zero | lia]. }
  destruct (fetch_cases s api w) as [k [Hk [_ Hcase]]]; [lia | exact Hreq |].
  exists (k + 1)%nat.
  replace (Z.max 0 (Z.of_nat (k + 1) - 1)) with (Z.of_nat k) by lia.
  split; [| lia].
  destruct Hcase as [[ps [_ Heq]] | [[e [_ Heq]] | [last [_ [_ Heq]]]]];
    rewrite Heq; reflexivity.
Qed.

(** X1. Whatever the source answers, fetch sends at most [Retries + 1]
    requests (none when [Retries] is negative), all of them to its URL,
    sleeps one second between two attempts and never after the last
    one, and changes nothing else in the world. *)
Theorem fetch_attempts_bounded (s : URLIPRange) (api : string) (w : World) :
  exists n : nat,
    snd (fetch s api w)
    = after_attempts w api n (Z.max 0 (Z.of_nat n - 1))
    /\ Z.of_nat n <= Z.max 0 (Retries s + 1)
    /\ w_requests (snd (fetch s api w)) = w_requests w ++ repeat api n
    /\ w_clock (snd (fetch s api w)) = w_clock w + Z.max 0 (Z.of_nat n - 1).
Proof.
  destruct (fetch_effort s api w) as [n [Heq Hn]].
  exists n. rewrite Heq. repeat split; [exact Hn].
Qed.

(** X2. A negative retry count, which a JSON configuration can hold, allows
    no attempt at all: fetch returns at once an error that wraps no
    cause, the aggregate fetch of a list that is not empty fails the
    same way, and Provision sends no request; it succeeds exactly when
    the cache can be loaded. *)
Theorem negative_retries_never_fetch (s : URLIPRange) (w : World)
    (url : string) (rest : list string) :
  Retries s < 0 ->
  URLs s = url :: rest ->
  fetch s url w = (Err (ErrAfterRetries (Retries s) None), w)
  /\ getPrefixes s w = (Err (ErrAfterRetries (Retries s) None), w)
  /\ w_requests (snd (Provision s w)) = w_requests w
  /\ (fst (fst (Provision s w)) = None
      <-> is_Ok (fst (loadFromCache s w)) = true).
Proof.
  intros Hneg Hurls.
  pose proof (fetch_negative_retries s url w Hneg) as Hfetch.
  assert (Hget : getPrefixes s w
                 = (Err (ErrAfterRetries (Retries s) None), w)).
  { unfold getPrefixes. rewrite Hurls. cbn [getPrefixes_loop].
    rewrite Hfetch. reflexivity. }
  split; [exact Hfetch|]. split; [exact Hget|].
  pose proof (loadFromCache_frame s w) as Hframe.
  unfold Provision. rewrite Hget.
  destruct (loadFromCache s w) as [[cached | cacheErr] w2];
    simpl in Hframe |- *; destruct Hframe as (_ & _ & Hreq & _).
  - split; [exact Hreq | split; reflexivity].
  - split; [exact Hreq | split; discriminate].
Qed.

(** X3. A URL for which no request can be built ends the loop at the first
    attempt ([break]): whatever the retry count, no request is sent,
    fetch does not sleep, and the error wraps the error of
    [http.NewRequestWithContext]. *)
Theorem fetch_request_error_breaks (s : URLIPRange) (api : string)
    (w : World) (err : error) :
  0 <= Retries s ->
  env_newRequest (w_env w) api = Some err ->
  fetch s api w = (Err (ErrAfterRetries (Retries s) (Some err)), w)
  /\ requests_between w (snd (fetch s api w)) = 0
  /\ w_clock (snd (fetch s api w)) = w_clock w.
Proof.
  intros Hr Hreq.
  rewrite (fetch_bad_request s api w err Hr Hreq). cbn [snd].
  split; [reflexivity|]. split; [| reflexivity].
  unfold requests_between. lia.
Qed.

Lemma well_formed_checked (line : string) :
  malformedb line = false -> well_formed line.
Proof.
  unfold malformedb, well_formed. intros Hb e He. rewrite He in Hb.
  discriminate.
Qed.

(** X4. The scanning loop, for every list of lines. When no line is
    malformed, the result is the list of the prefixes of the lines that
    are not blank, one per line and in the order of the lines, behind
    the prefixes found before. When a line is malformed, the result is
    the error of the first such line, whatever follows it. *)
Theorem scanLoop_in_order (lines : list string) (prefixes : list Prefix) :
  (Forall well_formed lines ->
   scanLoop lines prefixes = Ok (prefixes ++ line_prefixes lines))
  /\ (forall (good : list string) (bad : string) (rest : list string)
             (e : error),
         lines = good ++ bad :: rest ->
         Forall well_formed good ->
         parseLine bad = LineError e ->
         scanLoop lines prefixes = Err e).
Proof.
  split.
  - intros Hwf. revert prefixes.
    induction Hwf as [| line lines Hline Hrest IH]; intros prefixes.
    + simpl. rewrite app_nil_r. reflexivity.
    + cbn [scanLoop line_prefixes flat_map].
      destruct (parseLine line) as [| p | e] eqn:Hp.
      * apply IH.
      * rewrite IH, <- app_assoc. reflexivity.
      * exfalso. exact (Hline e Hp).
  - intros good bad rest e -> Hgood Hbad. revert prefixes.
    induction Hgood as [| line good Hline Hrest IH]; intros prefixes.
    + simpl. rewrite Hbad. reflexivity.
    + cbn [app scanLoop].
      destruct (parseLine line) as [| p | e'] eqn:Hp.
      * apply IH.
      * apply IH.
      * exfalso. exact (Hline e' Hp).
Qed.

(** X5. A 2xx response without any prefix is a success: when every line of
    the body is blank or a comment (an empty body has no line), fetch
    returns the empty list after one request. *)
Theorem fetch_blank_body (s : URLIPRange) (api : string) (w : World)
    (status : Z) (body : Body) (lines : list string) :
  0 <= Retries s ->
  env_newRequest (w_env w) api = None ->
  outcome_at w api 0 = DoResponse status body ->
  200 <= status <= 299 ->
  Scan body = (lines, None) ->
  Forall (fun line => TrimSpace (stripComment line) = "") lines ->
  fetch s api w = (Ok [], after_attempts w api 1 0).
Proof.
  intros Hr Hreq Hout Hst Hscan Hblank.
  apply (fetch_succeeds_after s api w 0 [] Hreq).
  - simpl. lia.
  - intros i Hi. lia.
  - rewrite Hout. apply (suc_intro status body lines []); [lia | exact Hscan |].
    clear Hscan. induction Hblank as [| line lines Hline Hrest IH].
    + reflexivity.
    + cbn [scanLoop]. unfold parseLine. rewrite Hline. exact IH.
Qed.

End MoreFetch.

(** ** The cache: saveToCache and loadFromCache *)

Section MoreCache.

Context `{GoLib}.

Local Open Scope Z_scope.

Lemma length_append (x y : string) :
  String.length (x +:+ y) = (String.length x + String.length y)%nat.
Proof.
  induction x as [|a x IH]; [reflexivity|].
  rewrite append_cons. simpl. rewrite IH. reflexivity.
Qed.

Lemma tmp_neq (path : string) : path +:+ ".tmp" <> path.
Proof.
  intros Heq. apply (f_equal String.length) in Heq.
  rewrite length_append in Heq. simpl in Heq. lia.
Qed.

(** The ways through saveToCache, by the faults its file system calls
    meet. *)
Ltac save_leaf :=
  let Heq := fresh "Heq" in
  intros Heq; inversion Heq; subst; clear Heq; cbn -[append];
  first
    [ right; eexists; split; [reflexivity|]; intros q Hq;
      rewrite ?lookup_delete_ne, ?lookup_insert_ne by congruence;
      reflexivity
    | left; split; [reflexivity|]; eexists;
      split; [first [eassumption | reflexivity]|];
      repeat split; reflexivity ].

Ltac save_call :=
  match goal with
  | |- context [match ?l with [] => _ | _ :: _ => _ end] =>
      is_var l; destruct l as [|[?e|] ?l]
  | |- context [match json_Encode ?c with _ => _ end] =>
      let Henc := fresh "Henc" in
      destruct (json_Encode c) as [?data | ?err] eqn:Henc
  end; cbn -[append]; rewrite ?lookup_insert_eq; cbn -[append].

Lemma saveToCache_outcomes (s : URLIPRange) (P : list Prefix) (w w' : World)
    (r : option error) (path : string) :
  cachePath s w = Ok path ->
  saveToCache s P w = (r, w') ->
  (r = None
   /\ exists data,
        json_Encode (mkCacheFileContents (map Prefix_String P) (w_clock w))
        = Ok data
        /\ w_files w'
           = <[path := data]>
               (delete (path +:+ ".tmp")
                  (<[path +:+ ".tmp" := data]>
                     (<[path +:+ ".tmp" := ""]> (w_files w))))
        /\ w_dirs w' = w_dirs w ++ [filepath.Dir path]
        /\ firstn 5 (w_faults w ++ repeat None 5) = repeat None 5
        /\ w_faults w' = skipn 5 (w_faults w))
  \/ (exists e, r = Some e
      /\ forall q, q <> path +:+ ".tmp" ->
                   w_files w' !! q = w_files w !! q).
Proof.
  intros Hpath. unfold saveToCache. rewrite Hpath. clear Hpath.
  destruct w as [env reqs clk files dirs faults warns loops].
  unfold os_MkdirAll, os_OpenFile_trunc, Encode, file_Write, file_Close,
    os_Remove, os_Rename, take_fault, time_Now.
  cbn -[append].
  repeat (first [solve [save_leaf] | save_call]).
Qed.

(** X6. A save that fails leaves the cache file as it was: the record of
    an earlier save is still there, byte for byte. *)
Theorem saveToCache_failure_keeps_cache (s : URLIPRange) (P : list Prefix)
    (w w' : World) (e : error) (path : string) :
  cachePath s w = Ok path ->
  saveToCache s P w = (Some e, w') ->
  w_files w' !! path = w_files w !! path.
Proof.
  intros Hpath Hsave.
  destruct (saveToCache_outcomes s P w w' (Some e) path Hpath Hsave)
    as [[Hnone _] | [e' [_ Hframe]]]; [discriminate|].
  apply Hframe. intros Heq. exact (tmp_neq path (eq_sym Heq)).
Qed.

(** X7. Whatever its outcome, a save touches no file but the cache file and
    its temporary file [path.tmp]. *)
Theorem saveToCache_touches_two_files (s : URLIPRange) (P : list Prefix)
    (w : World) (path q : string) :
  cachePath s w = Ok path ->
  q <> path ->
  q <> path +:+ ".tmp" ->
  w_files (snd (saveToCache s P w)) !! q = w_files w !! q.
Proof.
  intros Hpath Hq Hqtmp.
  destruct (saveToCache s P w) as [r w'] eqn:Hsave. cbn [snd].
  destruct (saveToCache_outcomes s P w w' r path Hpath Hsave)
    as [[_ [data [_ [Hfiles _]]]] | [e [_ Hframe]]].
  - rewrite Hfiles.
    rewrite lookup_insert_ne, lookup_delete_ne, !lookup_insert_ne
      by congruence.
    reflexivity.
  - apply Hframe. exact Hqtmp.
Qed.

(** X8. A save that returns no error went through its five file system
    calls ([MkdirAll], [OpenFile], the write of the encoder, [Close],
    [Rename]) without a failure; afterwards the cache file holds the
    encoded record, stamped with the time of the save, the temporary
    file is gone, and the directory of the cache file was asked for. *)
Theorem saveToCache_success_state (s : URLIPRange) (P : list Prefix)
    (w w' : World) (path : string) :
  cachePath s w = Ok path ->
  saveToCache s P w = (None, w') ->
  exists data,
    json_Encode (mkCacheFileContents (map Prefix_String P) (time_Now w))
    = Ok data
    /\ w_files w' !! path = Some data
    /\ w_files w' !! (path +:+ ".tmp") = None
    /\ w_dirs w' = w_dirs w ++ [filepath.Dir path]
    /\ firstn 5 (w_faults w ++ repeat None 5) = repeat None 5
    /\ w_faults w' = skipn 5 (w_faults w).
Proof.
  intros Hpath Hsave.
  destruct (saveToCache_outcomes s P w w' None path Hpath Hsave)
    as [[_ [data (Henc & Hfiles & Hdirs & Hfaults & Hrest)]]
       | [e [Habs _]]]; [| discriminate].
  exists data. split; [exact Henc|]. rewrite Hfiles.
  split; [apply lookup_insert_eq|].
  split.
  { rewrite lookup_insert_ne by (intros Heq; exact (tmp_neq path (eq_sym Heq))).
    apply lookup_delete_eq. }
  split; [exact Hdirs|]. split; [exact Hfaults | exact Hrest].
Qed.

(** X9. What becomes of the temporary file when a save fails. When the
    write or the close fails and [os.Remove] does not, the temporary
    file is removed. When the rename fails, the temporary file is left
    behind with the encoded record in it. *)
Theorem saveToCache_temporary_file (s : URLIPRange) (P : list Prefix)
    (w : World) (path data : string) :
  cachePath s w = Ok path ->
  json_Encode (mkCacheFileContents (map Prefix_String P) (time_Now w))
  = Ok data ->
  (forall (e : error) (c : option error) (rest : list (option error)),
      w_faults w = [None; None; Some e; c; None] ++ rest ->
      fst (saveToCache s P w) = Some e
      /\ w_files (snd (saveToCache s P w)) !! (path +:+ ".tmp") = None)
  /\ (forall (e : error) (rest : list (option error)),
         w_faults w = [None; None; None; Some e; None] ++ rest ->
         fst (saveToCache s P w) = Some e
         /\ w_files (snd (saveToCache s P w)) !! (path +:+ ".tmp") = None)
  /\ (forall (e : error) (rest : list (option error)),
         w_faults w = [None; None; None; None; Some e] ++ rest ->
         fst (saveToCache s P w) = Some e
         /\ w_files (snd (saveToCache s P w)) !! (path +:+ ".tmp")
            = Some data).
Proof.
  intros Hpath Henc. unfold saveToCache. rewrite Hpath. clear Hpath.
  destruct w as [env reqs clk files dirs faults warns loops].
  unfold os_MkdirAll, os_OpenFile_trunc, Encode, file_Write, file_Close,
    os_Remove, os_Rename, take_fault, time_Now in *.
  cbn -[append] in *.
  split; [| split].
  - intros e c rest ->. cbn -[append]. rewrite Henc. cbn -[append].
    destruct c; cbn -[append]; rewrite lookup_insert_eq; cbn -[append];
      (split; [reflexivity | apply lookup_delete_eq]).
  - intros e rest ->. cbn -[append]. rewrite Henc. cbn -[append].
    rewrite lookup_insert_eq. cbn -[append].
    split; [reflexivity | apply lookup_delete_eq].
  - intros e rest ->. cbn -[append]. rewrite Henc. cbn -[append].
    split; [reflexivity | apply lookup_insert_eq].
Qed.

Lemma upto_last_sep_name (n : string) :
  no_separator n = true -> filepath.upto_last_sep n = "".
Proof.
  induction n as [|c n IH]; [reflexivity|].
  simpl. intros Hn. apply andb_true_iff in Hn. destruct Hn as [Hc Hn].
  rewrite (IH Hn). apply negb_true_iff in Hc. rewrite Hc. reflexivity.
Qed.

Lemma upto_last_sep_append (p n : string) :
  no_separator n = true ->
  filepath.upto_last_sep (p +:+ n) = filepath.upto_last_sep p.
Proof.
  intros Hn. induction p as [|c p IH].
  - change ("" +:+ n) with n. rewrite upto_last_sep_name by exact Hn.
    reflexivity.
  - rewrite append_cons. cbn [filepath.upto_last_sep]. rewrite IH.
    reflexivity.
Qed.

(** X10. The temporary file lies in the directory of the cache file, the
    one [os.MkdirAll] is called for, and it is never the cache file
    itself: the rename stays in one directory. *)
Theorem temporary_file_in_cache_directory (path : string) :
  filepath.Dir (path +:+ ".tmp") = filepath.Dir path
  /\ path +:+ ".tmp" <> path.
Proof.
  split; [| apply tmp_neq].
  unfold filepath.Dir. rewrite upto_last_sep_append; reflexivity.
Qed.

(** X11. Loading only reads: the files, the directories, the requests,
    the clock, the log and the goroutines are the same afterwards,
    whether it succeeds or fails; of the pending I/O faults it takes
    one, that of opening and reading the file. *)
Theorem loadFromCache_reads_only (s : URLIPRange) (w : World) :
  let w' := snd (loadFromCache s w) in
  w_files w' = w_files w /\ w_dirs w' = w_dirs w
  /\ w_requests w' = w_requests w /\ w_clock w' = w_clock w
  /\ w_warnings w' = w_warnings w
  /\ w_refreshLoops w' = w_refreshLoops w
  /\ w_faults w' = tl (w_faults w).
Proof.
  unfold loadFromCache.
  destruct (cachePath_Ok s w) as [path Hpath]. rewrite Hpath.
  unfold os_Open, take_fault.
  destruct w as [env reqs clk files dirs faults warns loops]. cbn.
  destruct faults as [|[e|] faults]; cbn;
    try (destruct (files !! path) as [data|]; cbn;
         try destruct (json_Decode data); cbn);
    repeat split; reflexivity.
Qed.

(** X12. What a load refuses. Without a file at the cache path the error is
    that of [os.Open]; a file the decoder refuses gives the error of
    the decoder; a record with a string that is no CIDR expression
    gives an error that names the first such string and wraps the
    error of the parser, and no prefix of the record is returned. *)
Theorem loadFromCache_refuses (s : URLIPRange) (w : World) (path : string) :
  cachePath s w = Ok path ->
  hd None (w_faults w) = None ->
  (w_files w !! path = None ->
   fst (loadFromCache s w) = Err (ErrNotExist path))
  /\ (forall (data : string) (e : error),
         w_files w !! path = Some data ->
         json_Decode data = Err e ->
         fst (loadFromCache s w) = Err e)
  /\ (forall (data : string) (good : list string) (bad : string)
             (rest : list string) (updated_at : Z) (e : error),
         w_files w !! path = Some data ->
         json_Decode data
         = Ok (mkCacheFileContents (good ++ bad :: rest) updated_at) ->
         Forall (fun str => exists p, CIDRExpressionToPrefix str = Ok p)
                good ->
         CIDRExpressionToPrefix bad = Err e ->
         fst (loadFromCache s w) = Err (ErrInvalidCached bad e)).
Proof.
  intros Hpath Hfault. split; [| split].
  - intros Hfile. unfold loadFromCache, os_Open, take_fault. rewrite Hpath.
    destruct (w_faults w) as [|f faults]; simpl in Hfault |- *.
    + rewrite Hfile. reflexivity.
    + subst f. simpl. rewrite Hfile. reflexivity.
  - intros data e Hfile Hdec.
    rewrite (loadFromCache_found s w path data Hpath Hfault Hfile), Hdec.
    reflexivity.
  - intros data good bad rest updated_at e Hfile Hdec Hgood Hbad.
    rewrite (loadFromCache_found s w path data Hpath Hfault Hfile), Hdec.
    cbn [Prefixes]. clear Hdec. generalize (@nil Prefix) as prefixes.
    induction Hgood as [| str good [p Hp] Hrest IH]; intros prefixes.
    + simpl. rewrite Hbad. reflexivity.
    + cbn [app parseCached]. rewrite Hp. apply IH.
Qed.

(** X13. With [cache_file] set, the cache is bound to that path and not to
    the list of URLs: two configurations with the same [cache_file]
    load the same record and overwrite each other's, whatever their
    URLs are. *)
Theorem cache_file_shared_across_url_lists (s1 s2 : URLIPRange) (w : World)
    (P : list Prefix) :
  CacheFile s1 <> "" ->
  CacheFile s2 = CacheFile s1 ->
  loadFromCache s1 w = loadFromCache s2 w
  /\ saveToCache s1 P w = saveToCache s2 P w.
Proof.
  intros Hset Hsame.
  assert (Hpath : cachePath s2 w = cachePath s1 w).
  { unfold cachePath. rewrite Hsame.
    apply String.eqb_neq in Hset. rewrite Hset. reflexivity. }
  unfold loadFromCache, saveToCache. rewrite Hpath. split; reflexivity.
Qed.

End MoreCache.

(** ** getPrefixes, Provision and the refresh loop *)

Section MoreProvision.

Context `{GoLib}.

Local Open Scope Z_scope.

Lemma getPrefixes_loop_effort (s : URLIPRange) (urls : list string) :
  forall full w,
    let w' := snd (getPrefixes_loop s urls full w) in
    0 <= requests_between w w'
      <= Z.of_nat (length urls) * Z.max 0 (Retries s + 1)
    /\ 0 <= w_clock w' - w_clock w
       <= Z.of_nat (length urls) * Z.max 0 (Retries s).
Proof.
  induction urls as [|url rest IH]; intros full w.
  - cbn. unfold requests_between. lia.
  - cbn [getPrefixes_loop length].
    destruct (fetch_effort s url w) as [n [Hw Hn]].
    assert (Hreq : requests_between w (snd (fetch s url w)) = Z.of_nat n)
      by (rewrite Hw; apply requests_between_after).
    assert (Hclk : w_clock (snd (fetch s url w))
                   = w_clock w + Z.max 0 (Z.of_nat n - 1))
      by (rewrite Hw; reflexivity).
    rewrite Nat2Z.inj_succ.
    destruct (fetch s url w) as [[prefixes | err] w1]; cbn [snd] in *.
    + specialize (IH (full ++ prefixes) w1). cbv zeta in IH |- *.
      unfold requests_between in *. lia.
    + cbv zeta. unfold requests_between in *. nia.
Qed.

(** X14. The aggregate fetch talks to the network and does nothing else: the
    files, the directories, the log and the goroutines are the same
    afterwards, whether it succeeds or fails. It sends at most
    [Retries + 1] requests per URL and sleeps at most [Retries] seconds
    per URL, which bounds the time Provision waits between attempts. *)
Theorem getPrefixes_effort_bounded (s : URLIPRange) (w : World) :
  let w' := snd (getPrefixes s w) in
  only_network w w'
  /\ 0 <= requests_between w w'
       <= Z.of_nat (length (URLs s)) * Z.max 0 (Retries s + 1)
  /\ 0 <= w_clock w' - w_clock w
       <= Z.of_nat (length (URLs s)) * Z.max 0 (Retries s).
Proof.
  split; [apply getPrefixes_only_network|].
  apply getPrefixes_loop_effort.
Qed.

Lemma cachePath_depends (s s' : URLIPRange) (w w' : World) :
  URLs s' = URLs s ->
  CacheFile s' = CacheFile s ->
  env_appDataDir (w_env w') = env_appDataDir (w_env w) ->
  cachePath s' w' = cachePath s w.
Proof.
  intros Hurls Hfile Hdir. unfold cachePath.
  rewrite Hurls, Hfile, Hdir. reflexivity.
Qed.

(** X15. A start that saved its prefixes protects the next start. When
    Provision fetched [initial] and saved it, a later Provision of the
    same sources and cache location whose aggregate fetch fails, and
    that finds the cache file as the save left it, returns no error and
    publishes [initial] again (for prefixes that netip reads back from
    what it prints and that the JSON decoder finds again). *)
Theorem restart_from_saved_cache (s s' : URLIPRange) (w w1 w2 r r1 : World)
    (initial : list Prefix) (err : error) :
  Forall prints_and_parses initial ->
  json_round_trip
    (mkCacheFileContents (map Prefix_String initial) (time_Now w1)) ->
  getPrefixes s w = (Ok initial, w1) ->
  saveToCache (set_ranges s initial) initial w1 = (None, w2) ->
  URLs s' = URLs s ->
  CacheFile s' = CacheFile s ->
  env_appDataDir (w_env r) = env_appDataDir (w_env w) ->
  (forall path, cachePath s w = Ok path ->
                w_files r !! path = w_files w2 !! path) ->
  hd None (w_faults r) = None ->
  getPrefixes s' r = (Err err, r1) ->
  snd (Provision s w) = go_refreshLoop w2
  /\ fst (fst (Provision s' r)) = None
  /\ GetIPRanges (snd (fst (Provision s' r))) = initial.
Proof.
  intros Hnetip Hjson Hget Hsave Hurls Hfile Hdir Hkept Hfault Hdown.
  split.
  { unfold Provision. rewrite Hget, Hsave. reflexivity. }
  destruct (saveToCache_success _ _ _ _ Hsave)
    as (path & data & Hpath & Henc & Hdata).
  pose proof (getPrefixes_only_network s w) as Hnet.
  rewrite Hget in Hnet. destruct Hnet as (Henv & _). cbn [snd] in Henv.
  assert (Hpath0 : cachePath s w = Ok path).
  { rewrite <- Hpath. apply cachePath_depends; [reflexivity.. |].
    rewrite Henv. reflexivity. }
  pose proof (getPrefixes_only_network s' r) as Hnet'.
  rewrite Hdown in Hnet'.
  destruct Hnet' as (Henv' & Hfiles' & _ & Hfaults' & _). cbn [snd] in *.
  assert (Hload : fst (loadFromCache s' r1) = Ok initial).
  { rewrite (loadFromCache_found s' r1 path data).
    - destruct (Hjson data Henc) as (c' & Hdec & Hstrs).
      rewrite Hdec, Hstrs. cbn [Prefixes].
      rewrite (parseCached_Forall2 (map Prefix_String initial) initial).
      + reflexivity.
      + apply parseCached_printed. exact Hnetip.
    - rewrite <- Hpath0. apply cachePath_depends; try assumption.
      rewrite Henv'. exact Hdir.
    - rewrite Hfaults'. exact Hfault.
    - rewrite Hfiles', (Hkept path Hpath0). exact Hdata. }
  unfold Provision. rewrite Hdown.
  destruct (loadFromCache s' r1) as [[cached | cacheErr] r2];
    cbn [fst] in Hload; [| discriminate].
  inversion Hload; subst cached. split; reflexivity.
Qed.

(** X16. Provision and the refresh cycle log a warning on their degraded
    paths and nowhere else: Provision when the save fails after a
    successful fetch, or when the cache replaces a failed fetch (it
    logs nothing when it returns an error); a refresh cycle when the
    fetch fails, or when the save fails after a successful fetch. *)
Theorem degraded_paths_are_logged (s : URLIPRange) (w : World) :
  w_warnings (snd (Provision s w))
  = w_warnings w
    ++ match getPrefixes s w with
       | (Ok initial, w1) =>
           match fst (saveToCache (set_ranges s initial) initial w1) with
           | Some _ => ["failed to save IP ranges cache"]
           | None => []
           end
       | (Err _, w1) =>
           match fst (loadFromCache s w1) with
           | Ok _ => ["using cached IP ranges due to fetch failure on startup"]
           | Err _ => []
           end
       end
  /\ w_warnings (snd (refreshCycle s w))
     = w_warnings w
       ++ match getPrefixes s w with
          | (Ok fullPrefixes, w1) =>
              match fst (saveToCache (set_ranges s fullPrefixes)
                                     fullPrefixes w1) with
              | Some _ => ["failed to save IP ranges cache after refresh"]
              | None => []
              end
          | (Err _, w1) =>
              ["failed to refresh IP ranges; keeping existing cache"]
          end.
Proof.
  pose proof (getPrefixes_only_network s w) as Hnet.
  unfold Provision, refreshCycle.
  destruct (getPrefixes s w) as [[prefixes | err] w1]; cbn [snd] in Hnet;
    destruct Hnet as (_ & _ & _ & _ & Hwarn & _).
  - pose proof (saveToCache_fs_only (set_ranges s prefixes) prefixes w1)
      as Hfs.
    destruct (saveToCache (set_ranges s prefixes) prefixes w1)
      as [[e|] w2]; cbn [fst snd] in *;
      destruct Hfs as (_ & _ & _ & _ & Hwarn2);
      split; cbn; rewrite ?app_nil_r; congruence.
  - pose proof (loadFromCache_frame s w1) as Hframe.
    destruct (loadFromCache s w1) as [[cached | cacheErr] w2];
      cbn [fst snd] in *; destruct Hframe as (_ & _ & _ & _ & _ & Hwarn2);
      split; cbn; rewrite ?app_nil_r; congruence.
Qed.

Lemma refreshCycle_configuration (s : URLIPRange) (w : World) :
  let s' := fst (refreshCycle s w) in
  let w' := snd (refreshCycle s w) in
  (s' = s \/ exists r, s' = set_ranges s r)
  /\ w_env w' = w_env w /\ w_refreshLoops w' = w_refreshLoops w.
Proof.
  pose proof (getPrefixes_only_network s w) as Hnet.
  unfold refreshCycle.
  destruct (getPrefixes s w) as [[prefixes | err] w1]; cbn [snd] in Hnet;
    destruct Hnet as (Henv & _ & _ & _ & _ & Hloops).
  - pose proof (saveToCache_fs_only (set_ranges s prefixes) prefixes w1)
      as Hfs.
    destruct (saveToCache (set_ranges s prefixes) prefixes w1)
      as [[e|] w2]; cbn [fst snd] in *;
      destruct Hfs as (Henv2 & _ & _ & Hloops2 & _);
      (split; [right; eexists; reflexivity |]); cbn; split; congruence.
  - cbn. split; [left; reflexivity | split; assumption].
Qed.

Lemma refreshLoop_select_configuration (events : list select_event) :
  forall (s : URLIPRange) (w : World),
    let s' := fst (refreshLoop_select s w events) in
    let w' := snd (refreshLoop_select s w events) in
    URLs s' = URLs s /\ Interval s' = Interval s /\ Timeout s' = Timeout s
    /\ Retries s' = Retries s /\ CacheFile s' = CacheFile s
    /\ w_env w' = w_env w /\ w_refreshLoops w' = w_refreshLoops w.
Proof.
  induction events as [|[|] events IH]; intros s w;
    [cbn; repeat split; reflexivity | | cbn; repeat split; reflexivity].
  cbn [refreshLoop_select].
  pose proof (refreshCycle_configuration s w) as (Hs & Henv & Hloops).
  destruct (refreshCycle s w) as [s1 w1]. cbn [fst snd] in *.
  specialize (IH s1 w1). cbv zeta in IH |- *.
  destruct IH as (U & I & T & R & C & E & L).
  rewrite U, I, T, R, C, E, L, Henv, Hloops.
  destruct Hs as [-> | [r ->]]; repeat split; reflexivity.
Qed.

(** X17. The refresh loop never changes the configuration: whatever the
    ticks bring, the URLs, the timeout, the retry count and the cache
    location of the instance stay as they are (so every cycle fetches
    the same sources and writes the same cache file), the interval is
    the configured one, or one hour when none is configured, and no
    further goroutine is started. *)
Theorem refreshLoop_keeps_configuration (s : URLIPRange) (w : World)
    (events : list select_event) :
  let s' := fst (refreshLoop s w events) in
  let w' := snd (refreshLoop s w events) in
  URLs s' = URLs s /\ Timeout s' = Timeout s /\ Retries s' = Retries s
  /\ CacheFile s' = CacheFile s
  /\ Interval s' = (if Interval s =? 0 then Hour else Interval s)
  /\ cachePath s' w' = cachePath s w
  /\ w_refreshLoops w' = w_refreshLoops w.
Proof.
  unfold refreshLoop.
  set (s0 := if Interval s =? 0 then set_Interval s Hour else s).
  pose proof (refreshLoop_select_configuration events s0 w)
    as (U & I & T & R & C & E & L).
  assert (H0 : URLs s0 = URLs s /\ Timeout s0 = Timeout s
               /\ Retries s0 = Retries s /\ CacheFile s0 = CacheFile s
               /\ Interval s0 = (if Interval s =? 0 then Hour
                                 else Interval s)).
  { subst s0. destruct (Interval s =? 0); repeat split; reflexivity. }
  destruct H0 as (U0 & T0 & R0 & C0 & I0).
  cbv zeta. rewrite U, T, R, C, I, L.
  repeat split; try assumption.
  apply cachePath_depends; [congruence | congruence |].
  rewrite E. reflexivity.
Qed.

Lemma fetch_loop_Retries (s1 s2 : URLIPRange) (api : string) (fuel : nat) :
  Retries s1 = Retries s2 ->
  forall attempt lastErr w,
    fetch_loop s1 api fuel attempt lastErr w
    = fetch_loop s2 api fuel attempt lastErr w.
Proof.
  intros Hr. induction fuel as [|fuel IH]; intros attempt lastErr w;
    cbn [fetch_loop]; rewrite Hr; [reflexivity|].
  destruct (attempt <=? Retries s2); [| reflexivity].
  destruct (env_newRequest (w_env w) api); [reflexivity|].
  destruct (http_Do api w) as [out w1].
  destruct out as [err | status body]; [apply IH|].
  destruct ((status <? 200) || (299 <? status)); [apply IH|].
  destruct (Scan body) as [lines scanErr].
  destruct (scanLoop lines []); [| reflexivity].
  destruct scanErr; [apply IH | reflexivity].
Qed.

Lemma getPrefixes_set_Interval (s : URLIPRange) (i : Z) (w : World) :
  getPrefixes (set_Interval s i) w = getPrefixes s w.
Proof.
  unfold getPrefixes. cbn [URLs set_Interval]. generalize (@nil Prefix).
  revert w. induction (URLs s) as [|url rest IH]; intros w full;
    [reflexivity|].
  cbn [getPrefixes_loop]. unfold fetch. cbn [Retries set_Interval].
  rewrite (fetch_loop_Retries (set_Interval s i) s) by reflexivity.
  destruct (fetch_loop s url _ 0 None w) as [[prefixes | err] w1];
    [apply IH | reflexivity].
Qed.

Lemma refreshLoop_select_outage (s : URLIPRange) (w : World)
    (events : list select_event) :
  (forall w0, w_env w0 = w_env w ->
              exists err w1, getPrefixes s w0 = (Err err, w1)) ->
  let w' := snd (refreshLoop_select s w events) in
  fst (refreshLoop_select s w events) = s
  /\ w_files w' = w_files w /\ w_dirs w' = w_dirs w
  /\ w_faults w' = w_faults w.
Proof.
  intros Hdown. revert w Hdown.
  induction events as [|[|] events IH]; intros w Hdown;
    [cbn; repeat split; reflexivity | | cbn; repeat split; reflexivity].
  cbn [refreshLoop_select]. unfold refreshCycle.
  destruct (Hdown w eq_refl) as (err & w1 & Hget). rewrite Hget.
  pose proof (getPrefixes_only_network s w) as Hnet. rewrite Hget in Hnet.
  destruct Hnet as (Henv & Hfiles & Hdirs & Hfaults & _). cbn [snd] in *.
  set (w2 := log_Warn _ w1).
  destruct (IH w2) as (Hs & F & D & Fa).
  { intros w0 Hw0. apply Hdown. rewrite Hw0. exact Henv. }
  cbv zeta. rewrite Hs, F, D, Fa. repeat split; assumption.
Qed.

(** X18. While the sources are down, the refresh loop keeps serving what it
    has: when every aggregate fetch fails, then whatever the number of
    ticks, the published prefixes are those the loop started with, and
    the files (the cache file among them), the directories and the
    pending faults are untouched. *)
Theorem refreshLoop_outage_keeps_ranges (s : URLIPRange) (w : World)
    (events : list select_event) :
  (forall w0, w_env w0 = w_env w ->
              exists err w1, getPrefixes s w0 = (Err err, w1)) ->
  let w' := snd (refreshLoop s w events) in
  GetIPRanges (fst (refreshLoop s w events)) = GetIPRanges s
  /\ w_files w' = w_files w /\ w_dirs w' = w_dirs w
  /\ w_faults w' = w_faults w.
Proof.
  intros Hdown. unfold refreshLoop.
  set (s0 := if Interval s =? 0 then set_Interval s Hour else s).
  destruct (refreshLoop_select_outage s0 w events) as (Hs & F & D & Fa).
  { intros w0 Hw0. subst s0.
    destruct (Interval s =? 0); [rewrite getPrefixes_set_Interval|];
      apply Hdown; exact Hw0. }
  cbv zeta. rewrite Hs, F, D, Fa.
  split; [| repeat split; reflexivity].
  subst s0. destruct (Interval s =? 0); reflexivity.
Qed.

End MoreProvision.

(** ** UnmarshalCaddyfile *)

Section MoreUnmarshal.

Context `{GoLib}.

Import caddyfile.
Local Open Scope Z_scope.

Ltac zbool :=
  first [apply Z.ltb_lt | apply Z.ltb_ge | apply Z.leb_le | apply Z.leb_gt];
  lia.

Lemma count_LF_nonneg (s : string) : 0 <= count_LF s.
Proof.
  induction s as [|c s IH]; simpl; [lia|].
  destruct (Ascii.eqb c LF); lia.
Qed.

Lemma len_app (d : Dispenser) (pre suf : list Token) :
  tokens d = pre ++ suf ->
  len d = Z.of_nat (length pre) + Z.of_nat (length suf).
Proof. intros Ht. unfold len. rewrite Ht, length_app. lia. Qed.

Lemma token_at_middle (d : Dispenser) (pre suf : list Token) (t : Token) :
  tokens d = pre ++ t :: suf ->
  token_at d (Z.of_nat (length pre)) = t.
Proof.
  intros Ht. unfold token_at. rewrite Nat2Z.id, Ht. apply nth_middle.
Qed.

Lemma Val_at (d : Dispenser) (pre suf : list Token) (t : Token) :
  tokens d = pre ++ t :: suf ->
  cursor d = Z.of_nat (length pre) ->
  Val d = Text t.
Proof.
  intros Ht Hc. unfold Val.
  rewrite (len_app d pre (t :: suf) Ht), Hc. cbn [length].
  replace (Z.of_nat (length pre) <? 0) with false by (symmetry; zbool).
  replace (Z.of_nat (length pre) + Z.of_nat (S (length suf))
           <=? Z.of_nat (length pre)) with false by (symmetry; zbool).
  cbn [orb]. rewrite (token_at_middle d pre suf t Ht). reflexivity.
Qed.

(** The cursor on a token whose successor is on the same line. *)
Lemma nextOnSameLine_at (d : Dispenser) (pre suf : list Token)
    (t1 t2 : Token) :
  tokens d = pre ++ t1 :: t2 :: suf ->
  cursor d = Z.of_nat (length pre) ->
  Line t2 <= Line t1 ->
  nextOnSameLine d = (true, set_cursor d (cursor d + 1)).
Proof.
  intros Ht Hc Hline. unfold nextOnSameLine.
  rewrite (len_app d pre (t1 :: t2 :: suf) Ht), Hc. cbn [length].
  replace (Z.of_nat (length pre) <? 0) with false by (symmetry; zbool).
  replace (Z.of_nat (length pre) + Z.of_nat (S (S (length suf))) - 1
           <=? Z.of_nat (length pre)) with false by (symmetry; zbool).
  rewrite (token_at_middle d pre (t2 :: suf) t1 Ht).
  assert (Ht' : tokens d = (pre ++ [t1]) ++ t2 :: suf)
    by (rewrite <- app_assoc; exact Ht).
  replace (Z.of_nat (length pre) + 1) with (Z.of_nat (length (pre ++ [t1])))
    by (rewrite length_app; simpl; lia).
  rewrite (token_at_middle d (pre ++ [t1]) suf t2 Ht').
  unfold isNextOnNewLine. pose proof (count_LF_nonneg (Text t1)).
  replace (Line t1 + count_LF (Text t1) <? Line t2) with false
    by (symmetry; zbool).
  reflexivity.
Qed.

(** The cursor on the last token of its line. *)
Lemma nextOnSameLine_last (d : Dispenser) (pre suf : list Token)
    (t1 : Token) :
  tokens d = pre ++ t1 :: suf ->
  cursor d = Z.of_nat (length pre) ->
  (forall t2, hd_error suf = Some t2 ->
              Line t1 + count_LF (Text t1) < Line t2) ->
  nextOnSameLine d = (false, d).
Proof.
  intros Ht Hc Hline. unfold nextOnSameLine.
  rewrite (len_app d pre (t1 :: suf) Ht), Hc.
  replace (Z.of_nat (length pre) <? 0) with false by (symmetry; zbool).
  destruct suf as [|t2 suf].
  - cbn [length].
    replace (Z.of_nat (length pre) + Z.of_nat 1 - 1
             <=? Z.of_nat (length pre)) with true by (symmetry; zbool).
    reflexivity.
  - cbn [length].
    replace (Z.of_nat (length pre) + Z.of_nat (S (S (length suf))) - 1
             <=? Z.of_nat (length pre)) with false by (symmetry; zbool).
    rewrite (token_at_middle d pre (t2 :: suf) t1 Ht).
    assert (Ht' : tokens d = (pre ++ [t1]) ++ t2 :: suf)
      by (rewrite <- app_assoc; exact Ht).
    replace (Z.of_nat (length pre) + 1)
      with (Z.of_nat (length (pre ++ [t1])))
      by (rewrite length_app; simpl; lia).
    rewrite (token_at_middle d (pre ++ [t1]) suf t2 Ht').
    unfold isNextOnNewLine. specialize (Hline t2 eq_refl).
    replace (Line t1 + count_LF (Text t1) <? Line t2) with true
      by (symmetry; zbool).
    reflexivity.
Qed.

Lemma Next_at (d : Dispenser) (pre suf : list Token) (t1 t2 : Token) :
  tokens d = pre ++ t1 :: t2 :: suf ->
  cursor d = Z.of_nat (length pre) ->
  Next d = (true, set_cursor d (cursor d + 1)).
Proof.
  intros Ht Hc. unfold Next.
  rewrite (len_app d pre (t1 :: t2 :: suf) Ht), Hc. cbn [length].
  replace (Z.of_nat (length pre)
           <? Z.of_nat (length pre) + Z.of_nat (S (S (length suf))) - 1)
    with true by (symmetry; zbool).
  reflexivity.
Qed.

(** A name with its argument on the same line. *)
Lemma NextArg_at (d : Dispenser) (pre suf : list Token) (t1 t2 : Token) :
  tokens d = pre ++ t1 :: t2 :: suf ->
  cursor d = Z.of_nat (length pre) ->
  Line t2 <= Line t1 ->
  NextArg d
  = if String.eqb (Text t2) "{" then (false, set_cursor d (cursor d + 1 - 1))
    else (true, set_cursor d (cursor d + 1)).
Proof.
  intros Ht Hc Hline. unfold NextArg.
  rewrite (nextOnSameLine_at d pre suf t1 t2 Ht Hc Hline). cbn [negb].
  assert (Hv : Val (set_cursor d (cursor d + 1)) = Text t2).
  { apply (Val_at _ (pre ++ [t1]) suf).
    - cbn [tokens set_cursor]. rewrite <- app_assoc. exact Ht.
    - cbn [cursor set_cursor]. rewrite Hc, length_app. simpl. lia. }
  rewrite Hv. destruct (String.eqb (Text t2) "{"); reflexivity.
Qed.

Lemma directive_at (m : URLIPRange) (d : Dispenser) (pre suf : list Token)
    (e : entry) :
  tokens d
  = pre ++ mkToken (e_name e) (e_line e) :: mkToken (e_value e) (e_line e)
        :: suf ->
  cursor d = Z.of_nat (length pre) ->
  e_value e <> "{" ->
  fst (directive m d) = setting m (e_name e) (e_value e)
  /\ (forall m1, setting m (e_name e) (e_value e) = Ok m1 ->
                 snd (directive m d) = set_cursor d (cursor d + 1)).
Proof.
  intros Ht Hc Hv.
  pose proof (NextArg_at d pre suf _ _ Ht Hc (Z.le_refl _)) as Harg.
  cbn [Text] in Harg.
  apply String.eqb_neq in Hv. rewrite Hv in Harg.
  assert (Hval : Val (set_cursor d (cursor d + 1)) = e_value e).
  { apply (Val_at _ (pre ++ [mkToken (e_name e) (e_line e)]) suf
                   (mkToken (e_value e) (e_line e))).
    - cbn [tokens set_cursor]. rewrite <- app_assoc. exact Ht.
    - cbn [cursor set_cursor]. rewrite Hc, length_app. simpl. lia. }
  unfold directive, setting.
  rewrite (Val_at d pre _ _ Ht Hc). cbn [Text].
  rewrite Harg. cbn [negb]. rewrite Hval.
  repeat match goal with
         | |- context [String.eqb (e_name e) ?k] =>
             destruct (String.eqb (e_name e) k)
         end;
    repeat match goal with
           | |- context [match ?x with Ok _ => _ | Err _ => _ end] =>
               destruct x
           | |- context [if ?b then _ else _] => destruct b
           end;
    split; try reflexivity; intros m1 Hm1; try discriminate; reflexivity.
Qed.

Lemma entry_tokens_length (es : list entry) :
  length (entry_tokens es) = (2 * length es)%nat.
Proof. induction es as [|e es IH]; simpl; lia. Qed.

Lemma directive_keeps (m m1 : URLIPRange) (d d1 : Dispenser) :
  directive m d = (Ok m1, d1) ->
  ranges m1 = ranges m
  /\ (0 <= Retries m -> 0 <= Retries m1)
  /\ (exists more, URLs m1 = URLs m ++ more).
Proof.
  unfold directive.
  repeat match goal with
         | |- context [String.eqb (Val d) ?k] =>
             destruct (String.eqb (Val d) k)
         end;
    try (destruct (NextArg d) as [[|] d2]; cbn [negb]);
    repeat match goal with
           | |- context [match ?x with Ok _ => _ | Err _ => _ end] =>
               destruct x
           | |- context [if ?a <? ?b then _ else _] =>
               let Hlt := fresh "Hlt" in destruct (a <? b) eqn:Hlt
           end;
    intros Heq; inversion Heq; subst; clear Heq; cbn;
    (split; [reflexivity|]); (split; [try (intros; assumption)|]);
    try (exists []; rewrite app_nil_r; reflexivity);
    try (eexists; reflexivity).
  intros _. apply Z.ltb_ge in Hlt. exact Hlt.
Qed.

Lemma unmarshal_loop_keeps (fuel : nat) :
  forall (n0 : Z) (m : URLIPRange) (d : Dispenser),
    let m' := snd (fst (unmarshal_loop fuel n0 m d)) in
    ranges m' = ranges m
    /\ (0 <= Retries m -> 0 <= Retries m')
    /\ (exists more, URLs m' = URLs m ++ more).
Proof.
  induction fuel as [|fuel IH]; intros n0 m d; cbn [unmarshal_loop].
  - cbn. split; [reflexivity|]. split; [auto|].
    exists []. rewrite app_nil_r. reflexivity.
  - destruct (NextBlock n0 d) as [[|] d1]; cbn [negb].
    + destruct (directive m d1) as [[m1 | err] d2] eqn:Hdir.
      * destruct (directive_keeps m m1 d1 d2 Hdir) as (Hr & Hn & more & Hu).
        specialize (IH n0 m1 d2). cbv zeta in IH |- *.
        destruct IH as (Hr' & Hn' & more' & Hu').
        split; [congruence|]. split; [auto|].
        exists (more ++ more'). rewrite Hu', Hu, app_assoc. reflexivity.
      * cbn. split; [reflexivity|]. split; [auto|].
        exists []. rewrite app_nil_r. reflexivity.
    + cbn. split; [reflexivity|]. split; [auto|].
      exists []. rewrite app_nil_r. reflexivity.
Qed.

(** X19. What UnmarshalCaddyfile never does, whatever the tokens are and
    whether it returns an error or not: it leaves the published
    prefixes alone, it takes no URL away from the module (a second
    unmarshalling adds to the list of the first), and it stores no
    negative retry count. *)
Theorem UnmarshalCaddyfile_keeps (m : URLIPRange) (d : Dispenser) :
  let m' := snd (fst (UnmarshalCaddyfile m d)) in
  ranges m' = ranges m
  /\ (0 <= Retries m -> 0 <= Retries m')
  /\ (exists more, URLs m' = URLs m ++ more).
Proof.
  unfold UnmarshalCaddyfile.
  destruct (NextArg (snd (Next d))) as [[|] d2].
  - cbn. split; [reflexivity|]. split; [auto|].
    exists []. rewrite app_nil_r. reflexivity.
  - apply unmarshal_loop_keeps.
Qed.

(** X20. An argument on the line of the module name is refused: when the
    token behind the name is on the same line and is no opening brace,
    UnmarshalCaddyfile returns the argument error and leaves the module
    as it is. *)
Theorem UnmarshalCaddyfile_same_line_argument (m : URLIPRange)
    (d : Dispenser) (pre suf : list Token) (head arg : Token) :
  tokens d = pre ++ head :: arg :: suf ->
  cursor d = Z.of_nat (length pre) - 1 ->
  Line arg <= Line head ->
  Text arg <> "{" ->
  fst (UnmarshalCaddyfile m d) = (Some ErrArg, m).
Proof.
  intros Ht Hc Hline Harg. unfold UnmarshalCaddyfile.
  assert (Hnext : Next d = (true, set_cursor d (cursor d + 1))).
  { unfold Next. rewrite (len_app d _ _ Ht), Hc. cbn [length].
    replace (Z.of_nat (length pre) - 1
             <? Z.of_nat (length pre) + Z.of_nat (S (S (length suf))) - 1)
      with true by (symmetry; zbool).
    reflexivity. }
  rewrite Hnext. cbn [snd].
  rewrite (NextArg_at _ pre suf head arg).
  - apply String.eqb_neq in Harg. rewrite Harg. reflexivity.
  - exact Ht.
  - cbn [cursor set_cursor]. lia.
  - exact Hline.
Qed.

(** The directives in front of the cursor that succeed are applied one
    turn of the loop each. *)
Lemma unmarshal_loop_prefix (es : list entry) :
  forall (fuel : nat) (n0 : Z) (m : URLIPRange) (d : Dispenser)
         (pre tail : list Token) (prev : Token),
    Forall no_brace es ->
    tokens d = (pre ++ [prev]) ++ entry_tokens es ++ tail ->
    cursor d = Z.of_nat (length pre) ->
    nesting d = n0 + 1 ->
    match settings m es with
    | (Some err, m') =>
        fst (unmarshal_loop (length es + fuel) n0 m d) = (Some err, m')
    | (None, m') =>
        unmarshal_loop (length es + fuel) n0 m d
        = unmarshal_loop fuel n0 m'
            (mkDispenser (tokens d)
               (Z.of_nat (length pre) + 2 * Z.of_nat (length es)) (n0 + 1))
    end.
Proof.
  induction es as [|e es IH];
    intros fuel n0 m d pre tail prev Hes Ht Hc Hn.
  - cbn [settings length Nat.add]. f_equal.
    destruct d as [toks c n]. cbn in *. subst. f_equal. lia.
  - cbn [length Nat.add unmarshal_loop settings].
    cbn [entry_tokens] in Ht.
    unfold NextBlock. rewrite Hn.
    replace (n0 <? n0 + 1) with true by (symmetry; zbool).
    pose proof (Forall_inv Hes) as (Hname1 & Hname2 & Hvalue).
    pose proof (Forall_inv_tail Hes) as Hrest.
    assert (Ht0 : tokens d
                  = pre ++ prev :: mkToken (e_name e) (e_line e)
                        :: (mkToken (e_value e) (e_line e)
                            :: entry_tokens es ++ tail))
      by (rewrite Ht, <- app_assoc; reflexivity).
    rewrite (Next_at d pre _ prev _ Ht0 Hc). cbn [negb].
    set (d1 := set_cursor d (cursor d + 1)).
    assert (Ht1 : tokens d1
                  = (pre ++ [prev])
                    ++ mkToken (e_name e) (e_line e)
                       :: mkToken (e_value e) (e_line e)
                       :: (entry_tokens es ++ tail))
      by exact Ht.
    assert (Hc1 : cursor d1 = Z.of_nat (length (pre ++ [prev])))
      by (subst d1; cbn [cursor set_cursor]; rewrite Hc, length_app;
          simpl; lia).
    rewrite (Val_at d1 _ _ _ Ht1 Hc1). cbn [Text].
    apply String.eqb_neq in Hname1, Hname2. rewrite Hname1, Hname2.
    replace (nesting d1) with (n0 + 1) by (symmetry; exact Hn).
    replace (n0 <? n0 + 1) with true by (symmetry; zbool).
    cbn [negb].
    destruct (directive_at m d1 _ _ e Ht1 Hc1 Hvalue) as [Hres Hdisp].
    destruct (directive m d1) as [[m1 | err] d2]; cbn [fst snd] in *;
      rewrite <- Hres; [| reflexivity].
    specialize (Hdisp m1 (eq_sym Hres)). subst d2.
    set (d2 := set_cursor d1 (cursor d1 + 1)).
    specialize (IH fuel n0 m1 d2
                   (pre ++ [prev; mkToken (e_name e) (e_line e)]) tail
                   (mkToken (e_value e) (e_line e)) Hrest).
    assert (Hlen : Z.of_nat (length (pre ++ [prev; mkToken (e_name e)
                                                           (e_line e)]))
                   = Z.of_nat (length pre) + 2)
      by (rewrite length_app; simpl; lia).
    rewrite Hlen in IH.
    replace (Z.of_nat (length pre) + 2 * Z.of_nat (S (length es)))
      with (Z.of_nat (length pre) + 2 + 2 * Z.of_nat (length es)) by lia.
    apply IH.
    + subst d2 d1. cbn [tokens set_cursor]. rewrite Ht.
      rewrite <- !app_assoc. reflexivity.
    + subst d2. cbn [cursor set_cursor]. rewrite Hc1, length_app.
      simpl. lia.
    + exact Hn.
Qed.

Lemma Next_before (d : Dispenser) (pre suf : list Token) (t : Token) :
  tokens d = pre ++ t :: suf ->
  cursor d = Z.of_nat (length pre) - 1 ->
  Next d = (true, set_cursor d (cursor d + 1)).
Proof.
  intros Ht Hc. unfold Next.
  rewrite (len_app d pre (t :: suf) Ht), Hc. cbn [length].
  replace (Z.of_nat (length pre) - 1
           <? Z.of_nat (length pre) + Z.of_nat (S (length suf)) - 1)
    with true by (symmetry; zbool).
  reflexivity.
Qed.

(** A name that is the last token of its line has no argument. *)
Lemma unmarshal_loop_lone_name (fuel : nat) (n0 : Z) (m : URLIPRange)
    (d : Dispenser) (pre suf : list Token) (nm : string) (L : Z) :
  tokens d = pre ++ mkToken nm L :: suf ->
  cursor d = Z.of_nat (length pre) - 1 ->
  nesting d = n0 + 1 ->
  nm <> "{" -> nm <> "}" ->
  (forall t, hd_error suf = Some t -> L + count_LF nm < Line t) ->
  fst (unmarshal_loop (S fuel) n0 m d) = (Some ErrArg, m).
Proof.
  intros Ht Hc Hn Hname1 Hname2 Hlast. cbn [unmarshal_loop].
  unfold NextBlock. rewrite Hn.
  replace (n0 <? n0 + 1) with true by (symmetry; zbool).
  rewrite (Next_before d pre _ _ Ht Hc). cbn [negb].
  set (d1 := set_cursor d (cursor d + 1)).
  assert (Ht1 : tokens d1 = pre ++ mkToken nm L :: suf) by exact Ht.
  assert (Hc1 : cursor d1 = Z.of_nat (length pre))
    by (subst d1; cbn [cursor set_cursor]; lia).
  rewrite (Val_at d1 _ _ _ Ht1 Hc1). cbn [Text].
  apply String.eqb_neq in Hname1, Hname2. rewrite Hname1, Hname2.
  replace (nesting d1) with (n0 + 1) by (symmetry; exact Hn).
  replace (n0 <? n0 + 1) with true by (symmetry; zbool).
  cbn [negb].
  assert (Harg : NextArg d1 = (false, d1)).
  { unfold NextArg.
    rewrite (nextOnSameLine_last d1 _ _ _ Ht1 Hc1) by exact Hlast.
    reflexivity. }
  unfold directive. rewrite (Val_at d1 _ _ _ Ht1 Hc1), Harg. cbn [Text negb].
  repeat match goal with
         | |- context [String.eqb nm ?k] => destruct (String.eqb nm k)
         end; reflexivity.
Qed.

(** The first turn of the loop, which enters the block, goes on as a
    turn inside the block does. *)
Lemma unmarshal_loop_enters (fuel : nat) (n0 : Z) (m : URLIPRange)
    (d : Dispenser) (pre suf : list Token) (head open t : Token) :
  tokens d = pre ++ head :: open :: t :: suf ->
  cursor d = Z.of_nat (length pre) ->
  nesting d = n0 ->
  Line open <= Line head ->
  Text open = "{" ->
  Text t <> "{" -> Text t <> "}" ->
  unmarshal_loop (S fuel) n0 m d
  = unmarshal_loop (S fuel) n0 m
      (mkDispenser (tokens d) (Z.of_nat (length pre) + 1) (n0 + 1)).
Proof.
  intros Ht Hc Hn Hline Hopen Ht1 Ht2. cbn [unmarshal_loop].
  assert (Hsame : NextBlock n0 d
                  = NextBlock n0 (mkDispenser (tokens d)
                                    (Z.of_nat (length pre) + 1) (n0 + 1))).
  { apply String.eqb_neq in Ht1, Ht2.
    assert (Ht' : tokens d = (pre ++ [head]) ++ open :: t :: suf)
      by (rewrite <- app_assoc; exact Ht).
    assert (Hlen : Z.of_nat (length (pre ++ [head]))
                   = Z.of_nat (length pre) + 1)
      by (rewrite length_app; simpl; lia).
    assert (Ht'' : tokens d = (pre ++ [head; open]) ++ t :: suf)
      by (rewrite <- app_assoc; exact Ht).
    assert (Hlen' : Z.of_nat (length (pre ++ [head; open]))
                    = Z.of_nat (length pre) + 2)
      by (rewrite length_app; simpl; lia).
    unfold NextBlock. rewrite Hn. cbn [nesting].
    replace (n0 <? n0) with false by (symmetry; zbool).
    replace (n0 <? n0 + 1) with true by (symmetry; zbool).
    rewrite (nextOnSameLine_at d pre _ head open Ht Hc Hline). cbn [negb].
    rewrite (Val_at (set_cursor d (cursor d + 1)) (pre ++ [head]) _ open)
      by (cbn [tokens cursor set_cursor];
          first [exact Ht' | rewrite ?Hlen, ?Hlen', ?Hc; lia]).
    rewrite Hopen. cbn [String.eqb Ascii.eqb Bool.eqb negb].
    rewrite (Next_at (set_cursor d (cursor d + 1)) (pre ++ [head]) suf open t)
      by (cbn [tokens cursor set_cursor];
          first [exact Ht' | rewrite ?Hlen, ?Hlen', ?Hc; lia]).
    cbn [snd].
    rewrite (Val_at (set_cursor (set_cursor d (cursor d + 1)) _)
                    (pre ++ [head; open]) suf t)
      by (cbn [tokens cursor set_cursor];
          first [exact Ht'' | rewrite ?Hlen, ?Hlen', ?Hc; lia]).
    rewrite Ht2.
    rewrite (Next_at (mkDispenser (tokens d) _ _) (pre ++ [head]) suf open t)
      by (cbn [tokens cursor];
          first [exact Ht' | rewrite ?Hlen, ?Hlen', ?Hc; lia]).
    cbn [negb].
    rewrite (Val_at (set_cursor (mkDispenser (tokens d) _ _) _)
                    (pre ++ [head; open]) suf t)
      by (cbn [tokens cursor set_cursor];
          first [exact Ht'' | rewrite ?Hlen, ?Hlen', ?Hc; lia]).
    rewrite Ht1, Ht2. cbn [nesting set_cursor].
    replace (n0 <? n0 + 1) with true by (symmetry; zbool).
    f_equal. unfold set_nesting, set_cursor. cbn. rewrite Hn, Hc.
    f_equal. }
  rewrite Hsame. reflexivity.
Qed.

Lemma UnmarshalCaddyfile_opens (m : URLIPRange) (d : Dispenser)
    (pre rest : list Token) (head open : Token) :
  tokens d = pre ++ head :: open :: rest ->
  cursor d = Z.of_nat (length pre) - 1 ->
  Line open <= Line head ->
  Text open = "{" ->
  UnmarshalCaddyfile m d
  = unmarshal_loop (S (S (length (tokens d)))) (nesting d) m
      (mkDispenser (tokens d) (Z.of_nat (length pre)) (nesting d)).
Proof.
  intros Ht Hc Hline Hopen. unfold UnmarshalCaddyfile.
  assert (Hnext : Next d = (true, set_cursor d (cursor d + 1))).
  { unfold Next. rewrite (len_app d _ _ Ht), Hc. cbn [length].
    replace (Z.of_nat (length pre) - 1
             <? Z.of_nat (length pre) + Z.of_nat (S (S (length rest))) - 1)
      with true by (symmetry; zbool).
    reflexivity. }
  rewrite Hnext. cbn [snd].
  rewrite (NextArg_at _ pre rest head open)
    by (cbn [tokens cursor set_cursor]; first [exact Ht | lia]).
  rewrite Hopen. cbn [String.eqb Ascii.eqb Bool.eqb tokens set_cursor].
  unfold Nesting. cbn [nesting set_cursor].
  do 2 f_equal. unfold set_cursor. cbn. f_equal. lia.
Qed.

(** X21. A directive without argument. When the directives in front of it
    succeed and a name then stands last on its line, UnmarshalCaddyfile
    returns the argument error, whatever the name is, and the module
    holds what the directives before it set. *)
Theorem UnmarshalCaddyfile_missing_argument (m : URLIPRange)
    (pre suf : list Token) (name nm : string) (line L n0 : Z)
    (es : list entry) :
  Forall no_brace es ->
  nm <> "{" -> nm <> "}" ->
  (forall t, hd_error suf = Some t -> L + count_LF nm < Line t) ->
  let d := mkDispenser
             (pre ++ mkToken name line :: mkToken "{" line
                  :: entry_tokens es ++ mkToken nm L :: suf)
             (Z.of_nat (length pre) - 1) n0 in
  fst (UnmarshalCaddyfile m d)
  = match settings m es with
    | (None, m') => (Some ErrArg, m')
    | failed => failed
    end.
Proof.
  intros Hes Hname1 Hname2 Hlast d.
  set (toks := tokens d).
  assert (Ht : toks = pre ++ mkToken name line :: mkToken "{" line
                          :: entry_tokens es ++ mkToken nm L :: suf)
    by reflexivity.
  rewrite (UnmarshalCaddyfile_opens m d pre _ _ _ Ht eq_refl (Z.le_refl _)
                                    eq_refl).
  fold toks. cbn [nesting d].
  assert (Hinside : exists t rest,
             entry_tokens es ++ mkToken nm L :: suf = t :: rest
             /\ Text t <> "{" /\ Text t <> "}").
  { destruct es as [|e es].
    - eexists _, _. split; [reflexivity|]. cbn. split; assumption.
    - pose proof (Forall_inv Hes) as (Hn1 & Hn2 & _).
      eexists _, _. split; [reflexivity|]. cbn. split; assumption. }
  destruct Hinside as (t & rest & Hin & Htl & Htr).
  rewrite (unmarshal_loop_enters _ n0 m _ pre rest (mkToken name line)
             (mkToken "{" line) t)
    by (cbn [tokens cursor nesting Text Line];
        first [rewrite Ht, Hin; reflexivity | reflexivity | lia
              | assumption]).
  cbn [tokens].
  set (d1 := mkDispenser toks (Z.of_nat (length pre) + 1) (n0 + 1)).
  assert (Hlen : (length es <= length toks)%nat).
  { rewrite Ht, length_app. cbn [length].
    rewrite length_app, entry_tokens_length. lia. }
  replace (S (S (length toks)))
    with (length es + S (S (length toks) - length es))%nat by lia.
  pose proof (unmarshal_loop_prefix es (S (S (length toks) - length es)) n0 m
                d1 (pre ++ [mkToken name line]) (mkToken nm L :: suf)
                (mkToken "{" line) Hes) as Hprefix.
  destruct (settings m es) as [[err|] m'].
  - apply Hprefix.
    + subst d1. cbn [tokens]. rewrite Ht, <- !app_assoc. reflexivity.
    + subst d1. cbn [cursor]. rewrite length_app. simpl. lia.
    + reflexivity.
  - rewrite Hprefix.
    + apply (unmarshal_loop_lone_name _ n0 m' _
               ((pre ++ [mkToken name line])
                ++ mkToken "{" line :: entry_tokens es) suf nm L).
      * cbn [tokens]. subst d1. cbn [tokens]. rewrite Ht.
        rewrite <- !app_assoc. reflexivity.
      * cbn [cursor]. rewrite !length_app. cbn [length].
        rewrite entry_tokens_length. lia.
      * reflexivity.
      * exact Hname1.
      * exact Hname2.
      * exact Hlast.
    + subst d1. cbn [tokens]. rewrite Ht, <- !app_assoc. reflexivity.
    + subst d1. cbn [cursor]. rewrite length_app. simpl. lia.
    + reflexivity.
Qed.

(** The closing brace of the block, last on its line, ends the loop. *)
Lemma unmarshal_loop_closes (fuel : nat) (n0 : Z) (m : URLIPRange)
    (d : Dispenser) (pre post : list Token) (close : Z) :
  tokens d = pre ++ mkToken "}" close :: post ->
  cursor d = Z.of_nat (length pre) - 1 ->
  nesting d = n0 + 1 ->
  (forall t, hd_error post = Some t -> close < Line t) ->
  unmarshal_loop (S fuel) n0 m d
  = (None, m, mkDispenser (tokens d) (Z.of_nat (length pre)) n0).
Proof.
  intros Ht Hc Hn Hpost. cbn [unmarshal_loop].
  unfold NextBlock. rewrite Hn.
  replace (n0 <? n0 + 1) with true by (symmetry; zbool).
  rewrite (Next_before d pre _ _ Ht Hc). cbn [negb].
  set (d1 := set_cursor d (cursor d + 1)).
  assert (Ht1 : tokens d1 = pre ++ mkToken "}" close :: post) by exact Ht.
  assert (Hc1 : cursor d1 = Z.of_nat (length pre))
    by (subst d1; cbn [cursor set_cursor]; lia).
  rewrite (Val_at d1 _ _ _ Ht1 Hc1).
  cbn [Text String.eqb Ascii.eqb Bool.eqb].
  rewrite (nextOnSameLine_last d1 _ _ _ Ht1 Hc1)
    by (intros t Hhd; cbn; specialize (Hpost t Hhd); lia).
  cbn [negb nesting set_nesting]. subst d1. cbn [nesting set_cursor].
  rewrite Hn.
  replace (n0 <? n0 + 1 - 1) with false by (symmetry; zbool).
  cbn [negb]. do 2 f_equal. unfold set_nesting, set_cursor. cbn.
  rewrite Hc. f_equal; lia.
Qed.

Lemma UnmarshalCaddyfile_entries (m : URLIPRange) (pre post : list Token)
    (name : string) (line close n0 : Z) (es : list entry) :
  Forall no_brace es ->
  (forall t, hd_error post = Some t -> close < Line t) ->
  let d := mkDispenser (pre ++ block_of name line es close ++ post)
                       (Z.of_nat (length pre) - 1) n0 in
  fst (UnmarshalCaddyfile m d) = settings m es
  /\ (fst (settings m es) = None ->
      snd (UnmarshalCaddyfile m d)
      = mkDispenser (tokens d)
          (Z.of_nat (length pre) + 2 + 2 * Z.of_nat (length es)) n0).
Proof.
  intros Hes Hpost d.
  set (toks := tokens d).
  set (head := mkToken name line).
  set (open := mkToken "{" line).
  assert (Ht : toks = pre ++ head :: open
                          :: entry_tokens es ++ mkToken "}" close :: post).
  { subst toks d. cbn [tokens]. unfold block_of. cbn [app].
    rewrite <- app_assoc. reflexivity. }
  rewrite (UnmarshalCaddyfile_opens m d pre _ _ _ Ht eq_refl (Z.le_refl _)
                                    eq_refl).
  fold toks. cbn [nesting d].
  destruct es as [|e es].
  - (* [name { }] *)
    cbn [entry_tokens app length settings fst] in *.
    set (d1 := mkDispenser toks (Z.of_nat (length pre)) n0).
    cbn [unmarshal_loop]. unfold NextBlock. cbn [nesting d1].
    replace (n0 <? n0) with false by (symmetry; zbool).
    rewrite (nextOnSameLine_at d1 pre _ head open Ht eq_refl (Z.le_refl _)).
    cbn [negb].
    assert (Ht' : toks = (pre ++ [head]) ++ open :: mkToken "}" close :: post)
      by (rewrite <- app_assoc; exact Ht).
    assert (Hlen : Z.of_nat (length (pre ++ [head]))
                   = Z.of_nat (length pre) + 1)
      by (rewrite length_app; simpl; lia).
    rewrite (Val_at (set_cursor d1 (cursor d1 + 1)) (pre ++ [head]) _ open)
      by (cbn [tokens cursor set_cursor d1];
          first [exact Ht' | rewrite Hlen; lia]).
    cbn [Text open String.eqb Ascii.eqb Bool.eqb negb].
    rewrite (Next_at (set_cursor d1 (cursor d1 + 1)) (pre ++ [head]) post
                     open (mkToken "}" close))
      by (cbn [tokens cursor set_cursor d1];
          first [exact Ht' | rewrite Hlen; lia]).
    cbn [snd].
    assert (Ht'' : toks = (pre ++ [head; open]) ++ mkToken "}" close :: post)
      by (rewrite <- app_assoc; exact Ht).
    assert (Hlen' : Z.of_nat (length (pre ++ [head; open]))
                    = Z.of_nat (length pre) + 2)
      by (rewrite length_app; simpl; lia).
    rewrite (Val_at (set_cursor (set_cursor d1 _) _) (pre ++ [head; open])
                    post (mkToken "}" close))
      by (cbn [tokens cursor set_cursor d1];
          first [exact Ht'' | rewrite Hlen'; lia]).
    cbn [Text String.eqb Ascii.eqb Bool.eqb fst snd].
    split; [reflexivity|]. intros _.
    unfold set_cursor. cbn. f_equal. lia.
  - pose proof (Forall_inv Hes) as (Hname1 & Hname2 & _).
    rewrite (unmarshal_loop_enters _ n0 m _ pre
               (mkToken (e_value e) (e_line e)
                :: entry_tokens es ++ mkToken "}" close :: post)
               head open (mkToken (e_name e) (e_line e)))
      by (cbn [tokens cursor nesting Text Line head open];
          first [exact Ht | reflexivity | lia | assumption]).
    cbn [tokens].
    set (d1 := mkDispenser toks (Z.of_nat (length pre) + 1) (n0 + 1)).
    set (n := length (e :: es)).
    assert (Hlen : (n <= length toks)%nat).
    { subst n. rewrite Ht, length_app. cbn [length].
      rewrite length_app, entry_tokens_length. cbn [length]. lia. }
    replace (S (S (length toks)))
      with (n + S (S (length toks) - n))%nat by lia.
    pose proof (unmarshal_loop_prefix (e :: es) (S (S (length toks) - n)) n0
                  m d1 (pre ++ [head]) (mkToken "}" close :: post) open Hes)
      as Hprefix.
    fold n in Hprefix.
    destruct (settings m (e :: es)) as [[err|] m'].
    + split; [| discriminate]. apply Hprefix.
      * subst d1. cbn [tokens]. rewrite Ht, <- !app_assoc. reflexivity.
      * subst d1. cbn [cursor]. rewrite length_app. simpl. lia.
      * reflexivity.
    + rewrite Hprefix.
      * rewrite (unmarshal_loop_closes _ n0 m' _
                   ((pre ++ [head]) ++ open :: entry_tokens (e :: es))
                   post close).
        -- cbn [fst snd tokens]. split; [reflexivity|]. intros _.
           f_equal. rewrite !length_app. cbn [length].
           rewrite entry_tokens_length. subst n. cbn [length]. lia.
        -- cbn [tokens]. subst d1. cbn [tokens]. rewrite Ht.
           rewrite <- !app_assoc. reflexivity.
        -- cbn [cursor]. rewrite !length_app. cbn [length].
           rewrite entry_tokens_length. subst n. cbn [length]. lia.
        -- reflexivity.
        -- exact Hpost.
      * subst d1. cbn [tokens]. rewrite Ht, <- !app_assoc. reflexivity.
      * subst d1. cbn [cursor]. rewrite length_app. simpl. lia.
      * reflexivity.
Qed.

(** X22. UnmarshalCaddyfile on a block [name { directives }], wherever it
    stands among the tokens: the directives are applied in order to the
    module, each by its [setting]; the first one that fails ends the
    parsing with its error and leaves the module as the directives
    before it made it. When none fails, the cursor is left on the
    closing brace of the block and the nesting is as before. *)
Theorem UnmarshalCaddyfile_block (m : URLIPRange) (pre post : list Token)
    (name : string) (line close n0 : Z) (es : list entry) :
  Forall no_brace es ->
  (forall t, hd_error post = Some t -> close < Line t) ->
  let d := mkDispenser (pre ++ block_of name line es close ++ post)
                       (Z.of_nat (length pre) - 1) n0 in
  fst (UnmarshalCaddyfile m d) = settings m es
  /\ (fst (settings m es) = None ->
      snd (UnmarshalCaddyfile m d)
      = mkDispenser (tokens d)
          (Z.of_nat (length pre) + 2 + 2 * Z.of_nat (length es)) n0).
Proof. apply UnmarshalCaddyfile_entries. Qed.

Lemma settings_urls (urls : list string) :
  forall (m : URLIPRange) (line : Z) (k : nat),
    settings m (map (fun p => mkEntry "url" (snd p) (line + Z.of_nat (fst p)))
                    (combine (seq k (length urls)) urls))
    = (None, set_URLs m (URLs m ++ urls)).
Proof.
  induction urls as [|u urls IH]; intros m line k.
  - cbn. rewrite app_nil_r. destruct m; reflexivity.
  - cbn [length seq combine map settings e_name e_value fst snd].
    change (setting m "url" u) with (Ok (set_URLs m (URLs m ++ [u]))).
    cbv iota. rewrite IH. unfold set_URLs. cbn. rewrite <- app_assoc.
    reflexivity.
Qed.

Lemma url_entries_no_brace (urls : list string) (line : Z) :
  Forall (fun u => u <> "{") urls ->
  Forall no_brace (url_entries urls line).
Proof.
  intros Hurls. unfold url_entries. generalize 0%nat as k.
  induction Hurls as [| u urls Hu Hrest IH]; intros k; cbn.
  - constructor.
  - constructor; [| apply IH].
    unfold no_brace. cbn. repeat split; try discriminate. exact Hu.
Qed.

Lemma NewDispenser_block (toks : list Token) :
  NewDispenser toks
  = mkDispenser ([] ++ toks ++ []) (Z.of_nat (length (@nil Token)) - 1) 0.
Proof. unfold NewDispenser. cbn. rewrite app_nil_r. reflexivity. Qed.

(** X23. A block of [url] directives only, read into the zero value of the
    module: the URLs are those of the block, in the order of the block;
    everything else has its default, so that the refresh loop ticks
    every hour, a request has no deadline, and fetch makes one attempt
    per URL. *)
Theorem url_block_defaults (urls : list string) (line close : Z) :
  Forall (fun u => u <> "{") urls ->
  let d := NewDispenser
             (block_of "list" line (url_entries urls (line + 1)) close) in
  let m := snd (fst (UnmarshalCaddyfile zero_URLIPRange d)) in
  fst (fst (UnmarshalCaddyfile zero_URLIPRange d)) = None
  /\ m = mkURLIPRange urls 0 0 0 "" []
  /\ refreshLoop_ticker m = (set_Interval m Hour, Ticker Hour)
  /\ getContext m = WithCancel
  /\ (forall api w, requests_between w (snd (fetch m api w)) <= 1).
Proof.
  intros Hurls d m.
  pose proof (UnmarshalCaddyfile_entries zero_URLIPRange [] [] "list" line
                close 0 (url_entries urls (line + 1))
                (url_entries_no_brace urls (line + 1) Hurls)) as Hblock.
  cbv zeta in Hblock. rewrite <- NewDispenser_block in Hblock.
  fold d in Hblock. destruct Hblock as [Hfst _]; [discriminate|].
  unfold url_entries in Hfst. rewrite settings_urls in Hfst.
  assert (Hm : m = mkURLIPRange urls 0 0 0 "" []).
  { subst m. rewrite Hfst. reflexivity. }
  rewrite Hfst, Hm. repeat split.
  intros api w.
  destruct (fetch_effort (mkURLIPRange urls 0 0 0 "" []) api w)
    as [n [Heq Hn]].
  rewrite Heq, requests_between_after. cbn in Hn. lia.
Qed.

(** X24. The durations of [interval] and [timeout] are stored as
    [ParseDuration] returns them, without a check of their sign (only
    [retries] has one). An interval of zero then means one hour, and a
    negative one makes the refresh loop panic in [time.NewTicker]; a
    timeout that is not positive means a request without deadline. *)
Theorem durations_are_not_validated (m : URLIPRange) (iv tv : string)
    (i t line close : Z) :
  ParseDuration iv = Ok i ->
  ParseDuration tv = Ok t ->
  iv <> "{" -> tv <> "{" ->
  let d := NewDispenser
             (block_of "list" line
                [mkEntry "interval" iv (line + 1);
                 mkEntry "timeout" tv (line + 2)] close) in
  let m' := snd (fst (UnmarshalCaddyfile m d)) in
  fst (fst (UnmarshalCaddyfile m d)) = None
  /\ Interval m' = i /\ Timeout m' = t
  /\ snd (refreshLoop_ticker m')
     = (if i =? 0 then Ticker Hour
        else if i <? 0 then TickerPanic else Ticker i)
  /\ getContext m' = (if 0 <? t then WithTimeout t else WithCancel).
Proof.
  intros Hi Ht Hiv Htv d m'.
  pose proof (UnmarshalCaddyfile_entries m [] [] "list" line close 0
                [mkEntry "interval" iv (line + 1);
                 mkEntry "timeout" tv (line + 2)]) as Hblock.
  cbv zeta in Hblock. rewrite <- NewDispenser_block in Hblock.
  fold d in Hblock. destruct Hblock as [Hfst _]; [| discriminate |].
  { repeat constructor; cbn; try discriminate; assumption. }
  assert (Hset : settings m [mkEntry "interval" iv (line + 1);
                             mkEntry "timeout" tv (line + 2)]
                 = (None, set_Timeout (set_Interval m i) t)).
  { cbn [settings e_name e_value]. unfold setting.
    cbn [String.eqb Ascii.eqb Bool.eqb]. rewrite Hi.
    cbn [String.eqb Ascii.eqb Bool.eqb]. rewrite Ht. reflexivity. }
  rewrite Hset in Hfst. subst m'. rewrite Hfst. cbn [fst snd].
  split; [reflexivity|]. split; [reflexivity|]. split; [reflexivity|].
  split; [| reflexivity].
  unfold refreshLoop_ticker, time_NewTicker.
  cbn [Interval set_Timeout set_Interval].
  destruct (i =? 0) eqn:Hz;
    cbn [snd Interval set_Interval set_Timeout].
  - reflexivity.
  - destruct (i <? 0) eqn:Hneg.
    + apply Z.ltb_lt in Hneg.
      replace (i <=? 0) with true by (symmetry; apply Z.leb_le; lia).
      reflexivity.
    + apply Z.ltb_ge in Hneg. apply Z.eqb_neq in Hz.
      replace (i <=? 0) with false by (symmetry; apply Z.leb_gt; lia).
      reflexivity.
Qed.

End MoreUnmarshal.

(** ** The earlier versions of fetch *)

Section MoreVersions.

Context `{GoLib}.

Import Earlier.
Local Open Scope Z_scope.

Lemma fetch_loop_v2_agrees (s : URLIPRange) (api : string) (env : Env)
    (fuel : nat) :
  scans_cleanly env api ->
  forall attempt lastErr w,
    w_env w = env ->
    fetch_loop_v2 s api fuel attempt lastErr w
    = fetch_loop s api fuel attempt lastErr w.
Proof.
  intros Hclean. induction fuel as [|fuel IH]; intros attempt lastErr w Henv;
    cbn [fetch_loop_v2 fetch_loop]; [reflexivity|].
  destruct (attempt <=? Retries s); [| reflexivity].
  destruct (env_newRequest (w_env w) api); [reflexivity|].
  unfold http_Do.
  assert (Hnext : forall e w1,
             w_env w1 = env ->
             fetch_loop_v2 s api fuel (attempt + 1) e
               (if attempt <? Retries s then time_Sleep1s w1 else w1)
             = fetch_loop s api fuel (attempt + 1) e
                 (if attempt <? Retries s then time_Sleep1s w1 else w1)).
  { intros e w1 Hw1. apply IH. destruct (attempt <? Retries s); exact Hw1. }
  destruct (env_http (w_env w) api (requests_to w api))
    as [err | status body] eqn:Hout.
  - apply Hnext. exact Henv.
  - destruct ((status <? 200) || (299 <? status)).
    + apply Hnext. exact Henv.
    + rewrite Henv in Hout. pose proof (Hclean _ _ _ Hout) as Hscan.
      destruct (Scan body) as [lines scanErr]. cbn [snd] in Hscan.
      subst scanErr. destruct (scanLoop lines []); reflexivity.
Qed.

(** X25. The check of the error of the scanner is what the present fetch
    adds to the second version. As long as no response makes the
    scanner fail, the two return the same result and leave the same
    world. On a 2xx response that makes the scanner fail after lines
    that all parse, the second version returned the prefixes read so
    far as a success. The present one returns an error when no retry
    is left. With a retry left it keeps the error of the scanner as
    the last error, waits one second and goes on with the second
    attempt: it sends at least two requests, and when the second
    response is a success it returns the prefixes of that response. *)
Theorem fetch_v2_ignored_scanner_error (s : URLIPRange) (api : string)
    (w : World) :
  (scans_cleanly (w_env w) api -> fetch_v2 s api w = fetch s api w)
  /\ (forall (status : Z) (body : Body) (lines : list string) (e : error)
             (prefixes : list Prefix),
         0 <= Retries s ->
         env_newRequest (w_env w) api = None ->
         outcome_at w api 0 = DoResponse status body ->
         200 <= status <= 299 ->
         Scan body = (lines, Some e) ->
         scanLoop lines [] = Ok prefixes ->
         fetch_v2 s api w = (Ok prefixes, after_attempts w api 1 0)
         /\ (Retries s = 0 ->
             fetch s api w
             = (Err (ErrAfterRetries 0 (Some e)), after_attempts w api 1 0))
         /\ (0 < Retries s ->
             fetch s api w
             = fetch_loop s api (Z.to_nat (Retries s)) 1 (Some e)
                 (after_attempts w api 1 1)
             /\ (exists n : nat,
                    (2 <= n)%nat
                    /\ snd (fetch s api w)
                       = after_attempts w api n (Z.of_nat n - 1))
             /\ (forall prefixes2 : list Prefix,
                    successful (outcome_at w api 1) prefixes2 ->
                    fetch s api w
                    = (Ok prefixes2, after_attempts w api 2 1)))).
Proof.
  split.
  - intros Hclean. unfold fetch_v2, fetch.
    apply (fetch_loop_v2_agrees s api (w_env w)); [exact Hclean | reflexivity].
  - intros status body lines e prefixes Hr Hreq Hout Hst Hscan Hloop.
    assert (Hb : ((status <? 200) || (299 <? status)) = false).
    { apply orb_false_iff. split; apply Z.ltb_ge; lia. }
    split; [| split].
    + unfold fetch_v2.
      replace (Z.to_nat (Retries s + 1)) with (S (Z.to_nat (Retries s)))
        by lia.
      cbn [fetch_loop_v2].
      replace (0 <=? Retries s) with true by (symmetry; apply Z.leb_le; lia).
      rewrite Hreq, http_Do_eq, Hout, Hb, Hscan, Hloop. reflexivity.
    + intros Hzero. unfold fetch. rewrite Hzero.
      change (Z.to_nat (0 + 1)) with 1%nat.
      cbn [fetch_loop]. rewrite Hzero. cbn [Z.leb Z.ltb Z.compare].
      rewrite Hreq, http_Do_eq, Hout, Hb, Hscan, Hloop. reflexivity.
    + intros Hpos.
      assert (Hretry : retryable_failure api (outcome_at w api 0) e).
      { right. rewrite Hout.
        exact (scf_intro status body lines e prefixes Hst Hscan Hloop). }
      split; [| split].
      * unfold fetch.
        replace (Z.to_nat (Retries s + 1)) with (S (Z.to_nat (Retries s)))
          by lia.
        rewrite (fetch_loop_retryable s api _ 0 None w e);
          [| lia | exact Hreq | exact Hretry].
        replace (0 <? Retries s) with true
          by (symmetry; apply Z.ltb_lt; exact Hpos).
        reflexivity.
      * destruct (fetch_cases s api w Hr Hreq) as (k & Hk & _ & Hcase).
        exists (k + 1)%nat.
        assert (Hk1 : (1 <= k)%nat).
        { destruct k as [|k]; [exfalso | lia].
          rewrite Hout in Hcase.
          destruct Hcase as [(ps & Hok & _) | [(e' & Hbad & _)
                                              | (last & Hlast & _)]].
          - inversion Hok; subst. congruence.
          - inversion Hbad; subst. congruence.
          - simpl in Hlast. lia. }
        split; [lia|].
        replace (Z.of_nat (k + 1) - 1) with (Z.of_nat k) by lia.
        destruct Hcase as [(ps & _ & Heq) | [(e' & _ & Heq)
                                            | (last & _ & _ & Heq)]];
          rewrite Heq; reflexivity.
      * intros prefixes2 Hok.
        rewrite (fetch_succeeds_after s api w 1 prefixes2 Hreq);
          [reflexivity | simpl; lia | | exact Hok].
        intros i Hi. exists e.
        replace i with 0%nat by lia. exact Hretry.
Qed.

(** X26. The first version of fetch against the present one without retry.
    On a 2xx response that the scanner reads to its end the two agree.
    Every list the present fetch returns, the first version returned
    as well. The first version did not look at the status: it parsed
    the body of an error response, where the present one fails. *)
Theorem fetch_v1_ignored_status (s : URLIPRange) (api : string) (w : World) :
  Retries s = 0 ->
  env_newRequest (w_env w) api = None ->
  (forall (status : Z) (body : Body),
      outcome_at w api 0 = DoResponse status body ->
      200 <= status <= 299 ->
      snd (Scan body) = None ->
      fetch_v1 api w = fetch s api w)
  /\ (forall prefixes,
         fst (fetch s api w) = Ok prefixes ->
         fst (fetch_v1 api w) = Ok prefixes)
  /\ (forall (status : Z) (body : Body),
         outcome_at w api 0 = DoResponse status body ->
         status < 200 \/ 299 < status ->
         fetch_v1 api w
         = (scanLoop (fst (Scan body)) [], after_attempts w api 1 0)
         /\ fetch s api w
            = (Err (ErrAfterRetries 0 (Some (ErrHTTPStatus api status))),
               after_attempts w api 1 0)).
Proof.
  intros Hzero Hreq.
  assert (Hfetch : fetch s api w
                   = match outcome_at w api 0 with
                     | DoError err =>
                         (Err (ErrAfterRetries 0 (Some err)),
                          after_attempts w api 1 0)
                     | DoResponse status body =>
                         if (status <? 200) || (299 <? status) then
                           (Err (ErrAfterRetries 0
                                   (Some (ErrHTTPStatus api status))),
                            after_attempts w api 1 0)
                         else
                           match scanLoop (fst (Scan body)) [] with
                           | Err err => (Err err, after_attempts w api 1 0)
                           | Ok prefixes =>
                               match snd (Scan body) with
                               | Some e =>
                                   (Err (ErrAfterRetries 0 (Some e)),
                                    after_attempts w api 1 0)
                               | None =>
                                   (Ok prefixes, after_attempts w api 1 0)
                               end
                           end
                     end).
  { unfold fetch. rewrite Hzero.
    change (Z.to_nat (0 + 1)) with 1%nat.
    cbn [fetch_loop]. rewrite Hzero. cbn [Z.leb Z.ltb Z.compare].
    rewrite Hreq, http_Do_eq.
    destruct (outcome_at w api 0) as [err | status body]; [reflexivity|].
    destruct ((status <? 200) || (299 <? status)); [reflexivity|].
    destruct (Scan body) as [lines scanErr]. cbn [fst snd].
    destruct (scanLoop lines []); [| reflexivity].
    destruct scanErr; reflexivity. }
  assert (Hv1 : fetch_v1 api w
                = match outcome_at w api 0 with
                  | DoError err => (Err err, after_attempts w api 1 0)
                  | DoResponse status body =>
                      (scanLoop (fst (Scan body)) [],
                       after_attempts w api 1 0)
                  end).
  { unfold fetch_v1. rewrite Hreq, http_Do_eq.
    destruct (outcome_at w api 0) as [err | status body]; [reflexivity|].
    destruct (Scan body) as [lines scanErr]. reflexivity. }
  split; [| split].
  - intros status body Hout Hst Hscan.
    rewrite Hfetch, Hv1, Hout, Hscan.
    replace ((status <? 200) || (299 <? status)) with false
      by (symmetry; apply orb_false_iff; split; apply Z.ltb_ge; lia).
    destruct (scanLoop (fst (Scan body)) []); reflexivity.
  - intros prefixes. rewrite Hfetch, Hv1.
    destruct (outcome_at w api 0) as [err | status body];
      [discriminate|].
    destruct ((status <? 200) || (299 <? status)); [discriminate|].
    destruct (scanLoop (fst (Scan body)) []) as [ps | err];
      [| discriminate].
    destruct (snd (Scan body)); [discriminate|]. intros Heq. exact Heq.
  - intros status body Hout Hst. rewrite Hfetch, Hv1, Hout.
    replace ((status <? 200) || (299 <? status)) with true
      by (symmetry; apply orb_true_iff;
          destruct Hst; [left | right]; apply Z.ltb_lt; lia).
    split; reflexivity.
Qed.

End MoreVersions.

(** ** The name of the derived cache file *)

Section MorePath.

Context `{GoLib}.

Local Open Scope Z_scope.

Lemma round_length (st : list Z) (kw : Z * Z) :
  length st = 8%nat -> length (sha256.round st kw) = 8%nat.
Proof.
  intros Hlen. do 9 (destruct st as [|? st]; try discriminate).
  reflexivity.
Qed.

Lemma compress_length (h block : list Z) :
  length h = 8%nat -> length (sha256.compress h block) = 8%nat.
Proof.
  intros Hlen. unfold sha256.compress.
  rewrite length_map, length_combine.
  assert (Hfold : forall l st,
             length st = 8%nat ->
             length (fold_left sha256.round l st) = 8%nat).
  { induction l as [|kw l IH]; intros st Hst; [exact Hst|].
    simpl. apply IH, round_length, Hst. }
  rewrite Hfold by exact Hlen. rewrite Hlen. reflexivity.
Qed.

Lemma blocks_length (fuel : nat) :
  forall h bs, length h = 8%nat -> length (sha256.blocks fuel h bs) = 8%nat.
Proof.
  induction fuel as [|fuel IH]; intros h bs Hlen; simpl; [exact Hlen|].
  destruct bs; [exact Hlen|]. apply IH, compress_length, Hlen.
Qed.

Lemma Sum256_length (data : string) :
  length (sha256.Sum256 data) = 32%nat.
Proof.
  unfold sha256.Sum256.
  assert (Hflat : forall l : list Z,
             length (flat_map (sha256.be_bytes 4) l) = (4 * length l)%nat).
  { induction l as [|x l IH]; [reflexivity|].
    cbn [flat_map]. rewrite length_app, IH.
    unfold sha256.be_bytes. rewrite length_map, length_rev, length_seq.
    cbn [length]. lia. }
  rewrite Hflat, blocks_length; reflexivity.
Qed.

Lemma EncodeToString_length (bs : list Z) :
  String.length (hex.EncodeToString bs) = (2 * length bs)%nat.
Proof. induction bs as [|b bs IH]; simpl; [reflexivity | rewrite IH; lia]. Qed.

(** X27. The cache file that is derived from the URLs lies under a prefix
    that the data directory alone decides, and its name is the fixed
    prefix [ip-list-cache-], the 64 digits of the digest and [.json]:
    83 bytes without path separator, whatever the number and the length
    of the URLs. *)
Theorem derived_cache_file_name (w : World) :
  exists prefix : string,
    forall s : URLIPRange,
      CacheFile s = "" ->
      cachePath s w = Ok (prefix +:+ cache_name (URLs s))
      /\ String.length (cache_name (URLs s)) = 83%nat
      /\ no_separator (cache_name (URLs s)) = true.
Proof.
  set (dir := if String.eqb (env_appDataDir (w_env w)) "" then "."
              else env_appDataDir (w_env w)).
  assert (Hdir : dir <> "").
  { subst dir. destruct (String.eqb (env_appDataDir (w_env w)) "") eqn:Hd;
      [discriminate | apply String.eqb_neq; exact Hd]. }
  destruct (Join_plain_name dir Hdir) as [prefix Hjoin].
  exists prefix. intros s Hc.
  pose proof (cache_name_plain (URLs s)) as Hplain.
  split; [| split].
  - rewrite cachePath_derived by exact Hc. fold dir.
    rewrite (Hjoin _ Hplain). reflexivity.
  - unfold cache_name. rewrite !length_append, EncodeToString_length,
      Sum256_length. reflexivity.
  - unfold plain_name in Hplain.
    apply andb_true_iff in Hplain. destruct Hplain as [_ Hsep]. exact Hsep.
Qed.

End MorePath.

(** ** The tests of the module, for every input of their kind *)

Section MoreTests.

Context `{GoLib}.

Import caddyfile.
Local Open Scope Z_scope.

(** X28. The tests [TestRetriesProvision] and
    [TestRetriesProvisionAllFail] for every retry count and every
    source. With one URL whose source fails retryably [k <= Retries]
    times and then answers a list, Provision returns no error, has
    sent exactly [k + 1] requests and publishes the list. With a source
    that fails every time and no cache file, Provision has sent exactly
    [Retries + 1] requests and returns the error of the last attempt
    together with that of the missing cache file. *)
Theorem Provision_with_retries (s : URLIPRange) (api : string) (w : World) :
  URLs s = [api] ->
  0 <= Retries s ->
  env_newRequest (w_env w) api = None ->
  (forall (k : nat) (prefixes : list Prefix),
      Z.of_nat k <= Retries s ->
      (forall i, (i < k)%nat ->
                 exists e, retryable_failure api (outcome_at w api i) e) ->
      successful (outcome_at w api k) prefixes ->
      fst (fst (Provision s w)) = None
      /\ GetIPRanges (snd (fst (Provision s w))) = prefixes
      /\ requests_between w (snd (Provision s w)) = Z.of_nat k + 1)
  /\ (forall path : string,
         (forall i, exists e, retryable_failure api (outcome_at w api i) e) ->
         cachePath s w = Ok path ->
         hd None (w_faults w) = None ->
         w_files w !! path = None ->
         (exists last,
             retryable_failure api
               (outcome_at w api (Z.to_nat (Retries s))) last
             /\ fst (fst (Provision s w))
                = Some (ErrProvision
                          (ErrAfterRetries (Retries s) (Some last))
                          (ErrNotExist path)))
         /\ requests_between w (snd (Provision s w)) = Retries s + 1).
Proof.
  intros Hurls Hr Hreq. split.
  - intros k prefixes Hk Hfail Hok.
    pose proof (fetch_succeeds_after s api w k prefixes Hreq Hk Hfail Hok)
      as Hfetch.
    assert (Hget : getPrefixes s w
                   = (Ok prefixes, after_attempts w api (k + 1) (Z.of_nat k))).
    { unfold getPrefixes. rewrite Hurls. cbn [getPrefixes_loop].
      rewrite Hfetch. reflexivity. }
    unfold Provision. rewrite Hget.
    pose proof (saveToCache_fs_only (set_ranges s prefixes) prefixes
                  (after_attempts w api (k + 1) (Z.of_nat k))) as Hfs.
    destruct (saveToCache (set_ranges s prefixes) prefixes _)
      as [[e|] w2]; cbn [fst snd] in *;
      destruct Hfs as (_ & Hrequests & _);
      (split; [reflexivity|]); (split; [reflexivity|]);
      unfold requests_between; cbn; rewrite Hrequests; cbn;
      rewrite length_app, repeat_length; lia.
  - intros path Hfail Hpath Hfault Hfile.
    destruct (fetch_exhausts s api w Hreq Hr) as (last & Hlast & Hfetch).
    { intros i _. apply Hfail. }
    set (w1 := after_attempts w api (Z.to_nat (Retries s) + 1) (Retries s))
      in *.
    assert (Hget : getPrefixes s w
                   = (Err (ErrAfterRetries (Retries s) (Some last)), w1)).
    { unfold getPrefixes. rewrite Hurls. cbn [getPrefixes_loop].
      rewrite Hfetch. reflexivity. }
    assert (Hload : loadFromCache s w1 = (Err (ErrNotExist path), w1)
                    \/ exists f, loadFromCache s w1
                                 = (Err (ErrNotExist path),
                                    set_faults w1 f)).
    { unfold loadFromCache.
      rewrite (cachePath_env s w w1) by reflexivity. rewrite Hpath.
      unfold os_Open, take_fault.
      change (w_faults w1) with (w_faults w).
      change (w_files w1) with (w_files w).
      destruct (w_faults w) as [|f faults]; cbn in Hfault |- *.
      - rewrite Hfile. left. reflexivity.
      - subst f. cbn. rewrite Hfile. right. eexists. reflexivity. }
    unfold Provision. rewrite Hget.
    destruct Hload as [Hload | [f Hload]]; rewrite Hload; cbn [fst snd];
      (split; [exists last; split; [exact Hlast | reflexivity]|]);
      unfold requests_between; cbn;
      rewrite length_app, repeat_length; lia.
Qed.

(** X29. The first input of the test [TestDefault], for every name: a
    module name without a block behind it on its line (the next token,
    if there is one, stands on a later line) is accepted;
    UnmarshalCaddyfile returns no error, sets nothing and leaves the
    cursor on the name. *)
Theorem UnmarshalCaddyfile_without_block (m : URLIPRange) (d : Dispenser)
    (pre suf : list Token) (head : Token) :
  tokens d = pre ++ head :: suf ->
  cursor d = Z.of_nat (length pre) - 1 ->
  (forall t, hd_error suf = Some t ->
             Line head + count_LF (Text head) < Line t) ->
  UnmarshalCaddyfile m d
  = (None, m, mkDispenser (tokens d) (Z.of_nat (length pre)) (nesting d)).
Proof.
  intros Ht Hc Hlast. unfold UnmarshalCaddyfile.
  rewrite (Next_before d pre suf head Ht Hc). cbn [snd].
  set (d1 := set_cursor d (cursor d + 1)).
  assert (Ht1 : tokens d1 = pre ++ head :: suf) by exact Ht.
  assert (Hc1 : cursor d1 = Z.of_nat (length pre))
    by (subst d1; cbn [cursor set_cursor]; lia).
  assert (Hsame : nextOnSameLine d1 = (false, d1))
    by (apply (nextOnSameLine_last d1 pre suf head Ht1 Hc1 Hlast)).
  unfold NextArg. rewrite Hsame. cbn [negb].
  cbn [unmarshal_loop]. unfold NextBlock, Nesting.
  replace (nesting d1 <? nesting d1) with false
    by (symmetry; apply Z.ltb_ge; lia).
  rewrite Hsame. cbn [negb]. f_equal.
  subst d1. unfold set_cursor. cbn. rewrite Hc. f_equal. lia.
Qed.

End MoreTests.

(** ** What the refresh loop publishes *)

Section MoreRefresh.

Context `{GoLib}.

Local Open Scope Z_scope.




End MoreRefresh.

(** * Further properties on concrete inputs *)

Section MoreWitnesses.

Import Model Scenario Cases.
Local Open Scope Z_scope.

(** With [retries = -2], no request is sent; Provision fails without a
    cache (scenario C) and succeeds with one (scenario D). *)
Lemma negative_retries_never_fetch_witness :
  @getPrefixes lib sNeg wC = (Err (ErrAfterRetries (-2) None), wC)
  /\ w_requests (snd (@Provision lib sNeg wC)) = []
  /\ fst (fst (@Provision lib sNeg wC)) <> None
  /\ fst (fst (@Provision lib (config [url] (-2) cacheD) wD)) = None.
Proof.
  destruct (@negative_retries_never_fetch lib sNeg wC url [])
    as (_ & Hget & Hreq & Hiff); [simpl; lia | reflexivity |].
  destruct (@negative_retries_never_fetch lib (config [url] (-2) cacheD) wD
              url [])
    as (_ & _ & _ & Hiff'); [simpl; lia | reflexivity |].
  split; [exact Hget|]. split; [exact Hreq|]. split.
  - intros Hnone. apply Hiff in Hnone. vm_compute in Hnone. discriminate.
  - apply Hiff'. vm_compute. reflexivity.
Defined.

(** A URL with a broken escape, with [retries = 2]: no request. *)
Lemma fetch_request_error_breaks_witness :
  @fetch lib sB bad_url wBadURL
  = (Err (ErrAfterRetries 2 (Some url_error)), wBadURL)
  /\ requests_between wBadURL (snd (@fetch lib sB bad_url wBadURL)) = 0.
Proof.
  destruct (@fetch_request_error_breaks lib sB bad_url wBadURL url_error)
    as (Hfetch & Hreq & _); [simpl; lia | reflexivity |].
  split; [exact Hfetch | exact Hreq].
Defined.

(** A response of two comments and a blank line. *)
Lemma fetch_blank_body_witness :
  @fetch lib sB url wComments = (Ok [], after_attempts wComments url 1 0).
Proof.
  apply (@fetch_blank_body lib sB url wComments 200 (text_body comments)
           ["# no ranges today"; ""; "   # none"]).
  - simpl. lia.
  - reflexivity.
  - reflexivity.
  - lia.
  - vm_compute. reflexivity.
  - repeat constructor.
Defined.

(** The write fails on a full disk: the cache file of scenario D is as
    it was. *)
Lemma saveToCache_failure_keeps_cache_witness :
  w_files (snd (@saveToCache lib sD one_range
                  (faulty [None; None; Some disk_full])))
    !! cacheD
  = Some dataD.
Proof.
  rewrite (@saveToCache_failure_keeps_cache lib sD one_range
             (faulty [None; None; Some disk_full])
             (snd (@saveToCache lib sD one_range
                     (faulty [None; None; Some disk_full])))
             disk_full cacheD).
  - vm_compute. reflexivity.
  - reflexivity.
  - vm_compute. reflexivity.
Defined.

(** A save, successful or not, leaves the other file alone. *)
Lemma saveToCache_touches_two_files_witness :
  w_files (snd (@saveToCache lib sD one_range (faulty []))) !! other_file
  = Some "{}"
  /\ w_files (snd (@saveToCache lib sD one_range
                     (faulty [None; Some disk_full]))) !! other_file
     = Some "{}".
Proof.
  split.
  - rewrite (@saveToCache_touches_two_files lib sD one_range (faulty [])
               cacheD other_file).
    + vm_compute. reflexivity.
    + reflexivity.
    + vm_compute. discriminate.
    + vm_compute. discriminate.
  - rewrite (@saveToCache_touches_two_files lib sD one_range
               (faulty [None; Some disk_full]) cacheD other_file).
    + vm_compute. reflexivity.
    + reflexivity.
    + vm_compute. discriminate.
    + vm_compute. discriminate.
Defined.

(** A save without fault in scenario D. *)
Lemma saveToCache_success_state_witness :
  exists data,
    w_files (snd (@saveToCache lib sD one_range (faulty []))) !! cacheD
    = Some data
    /\ w_files (snd (@saveToCache lib sD one_range (faulty [])))
         !! (cacheD +:+ ".tmp") = None
    /\ w_dirs (snd (@saveToCache lib sD one_range (faulty [])))
       = ["/var/lib/caddy"].
Proof.
  destruct (@saveToCache_success_state lib sD one_range (faulty [])
              (snd (@saveToCache lib sD one_range (faulty []))) cacheD)
    as (data & _ & Hfile & Htmp & Hdirs & _).
  - reflexivity.
  - vm_compute. reflexivity.
  - exists data. split; [exact Hfile|]. split; [exact Htmp | exact Hdirs].
Defined.

(** In scenario D: a write that fails leaves no temporary file; a
    rename that fails leaves it, with the record in it. *)
Lemma saveToCache_temporary_file_witness :
  w_files (snd (@saveToCache lib sD one_range
                  (faulty [None; None; Some disk_full; None; None])))
    !! (cacheD +:+ ".tmp") = None
  /\ exists data,
       data <> ""
       /\ w_files (snd (@saveToCache lib sD one_range
                          (faulty [None; None; None; None; Some disk_full])))
            !! (cacheD +:+ ".tmp") = Some data.
Proof.
  assert (Henc : exists data,
             data <> ""
             /\ json_Encode_model
                  (mkCacheFileContents (map Prefix4_String one_range)
                                       1700000000) = Ok data).
  { eexists. split; [| vm_compute; reflexivity]. discriminate. }
  destruct Henc as (data & Hdata & Henc).
  split.
  - destruct (@saveToCache_temporary_file lib sD one_range
                (faulty [None; None; Some disk_full; None; None])
                cacheD data eq_refl Henc) as [Hwrite _].
    destruct (Hwrite disk_full None [] eq_refl) as [_ Htmp]. exact Htmp.
  - exists data. split; [exact Hdata|].
    destruct (@saveToCache_temporary_file lib sD one_range
                (faulty [None; None; None; None; Some disk_full])
                cacheD data eq_refl Henc) as [_ [_ Hrename]].
    destruct (Hrename disk_full [] eq_refl) as [_ Htmp]. exact Htmp.
Defined.

(** No file in scenario C; a record whose second string is no prefix. *)
Lemma loadFromCache_refuses_witness :
  fst (@loadFromCache lib sD wC) = Err (ErrNotExist cacheD)
  /\ exists e,
       fst (@loadFromCache lib sD wInvalid)
       = Err (ErrInvalidCached "300.1.2.3/8" e).
Proof.
  split.
  - destruct (@loadFromCache_refuses lib sD wC cacheD eq_refl eq_refl)
      as [Hmissing _].
    apply Hmissing. vm_compute. reflexivity.
  - destruct (@loadFromCache_refuses lib sD wInvalid cacheD eq_refl eq_refl)
      as [_ [_ Hinvalid]].
    eexists.
    apply (Hinvalid data_invalid ["10.0.0.0/8"] "300.1.2.3/8" ["also bad"]
                    946684799).
    + vm_compute. reflexivity.
    + vm_compute. reflexivity.
    + repeat constructor. eexists. vm_compute. reflexivity.
    + vm_compute. reflexivity.
Defined.

(** Two lists of URLs with the cache file of scenario D. *)
Lemma cache_file_shared_across_url_lists_witness :
  @URLs lib sD <> @URLs lib sD'
  /\ fst (@loadFromCache lib sD' wD)
     = Ok [mkPrefix4 [10; 0; 0; 0] 8; mkPrefix4 [172; 16; 0; 0] 12].
Proof.
  split; [vm_compute; discriminate|].
  destruct (@cache_file_shared_across_url_lists lib sD sD' wD [])
    as [Hload _].
  - vm_compute. discriminate.
  - reflexivity.
  - rewrite <- Hload. vm_compute. reflexivity.
Defined.

(** Scenario B, then a restart one day later with the source down. *)
Lemma restart_from_saved_cache_witness :
  fst (fst (@Provision lib sB wRestart)) = None
  /\ @GetIPRanges lib (snd (fst (@Provision lib sB wRestart))) = range_B.
Proof.
  destruct (@restart_from_saved_cache lib sB sB wB wB_fetched wB_saved
              wRestart (after_attempts wRestart url 3 2) range_B
              (ErrAfterRetries 2 (Some (ErrHTTPStatus url 500))))
    as (_ & Hnone & Hranges).
  - repeat constructor.
  - intros data Henc. vm_compute in Henc. inversion Henc; subst data.
    eexists. split; vm_compute; reflexivity.
  - vm_compute. reflexivity.
  - vm_compute. reflexivity.
  - reflexivity.
  - reflexivity.
  - reflexivity.
  - intros path _. reflexivity.
  - reflexivity.
  - vm_compute. reflexivity.
  - split; [exact Hnone | exact Hranges].
Defined.

(** Scenario C with an instance that serves one range: three ticks,
    then the cancellation. *)
Lemma refreshLoop_outage_keeps_ranges_witness :
  @GetIPRanges lib
     (fst (@refreshLoop lib
             (set_ranges sB [mkPrefix4 [198; 51; 100; 0] 24]) wC
             [TickerC; TickerC; TickerC; CtxDone; TickerC]))
  = [mkPrefix4 [198; 51; 100; 0] 24]
  /\ w_files
       (snd (@refreshLoop lib
               (set_ranges sB [mkPrefix4 [198; 51; 100; 0] 24]) wC
               [TickerC; TickerC; TickerC; CtxDone; TickerC]))
     = ∅.
Proof.
  destruct (@refreshLoop_outage_keeps_ranges lib
              (set_ranges sB [mkPrefix4 [198; 51; 100; 0] 24]) wC
              [TickerC; TickerC; TickerC; CtxDone; TickerC])
    as (Hranges & Hfiles & _).
  - intros w0 Henv.
    destruct (@fetch_exhausts lib
                (set_ranges sB [mkPrefix4 [198; 51; 100; 0] 24]) url w0)
      as (last & _ & Hfetch).
    + rewrite Henv. reflexivity.
    + simpl. lia.
    + intros i _. exists (ErrHTTPStatus url 500). left.
      unfold outcome_at. rewrite Henv. cbn [w_env wC world env_http peer].
      destruct (requests_to w0 url + i)%nat;
        apply (tsf_status url 500 (text_body "fail")); lia.
    + eexists _, _. unfold getPrefixes.
      cbn [URLs set_ranges sB config getPrefixes_loop].
      rewrite Hfetch. reflexivity.
  - split; [exact Hranges | exact Hfiles].
Defined.

(** The test [TestUnmarshal], and the test [TestUnmarshalNested], where
    the cursor is left in front of [other_module]. *)
Lemma UnmarshalCaddyfile_block_witness :
  fst (@UnmarshalCaddyfile lib zero_URLIPRange test_unmarshal)
  = (None,
     @mkURLIPRange lib ["https://www.cloudflare.com/ips-v4"]
       (90 * 60 * 1000000000) (30 * 1000000000) 0 "" [])
  /\ caddyfile.Val
       (snd (caddyfile.Next
               (snd (@UnmarshalCaddyfile lib zero_URLIPRange test_nested))))
     = "other_module".
Proof.
  split.
  - destruct (@UnmarshalCaddyfile_block lib zero_URLIPRange [] [] "list" 2 6 0
                test_entries) as [Hfst _].
    + repeat constructor; discriminate.
    + intros t Hhd. discriminate.
    + exact Hfst.
  - destruct (@UnmarshalCaddyfile_block lib zero_URLIPRange [tok "{" 1]
                [tok "other_module" 7; tok "10h" 7; tok "}" 8] "list" 2 6 0
                test_entries) as [_ Hsnd].
    + repeat constructor; discriminate.
    + intros t Hhd. inversion Hhd; subst t. simpl. lia.
    + change (snd (@UnmarshalCaddyfile lib zero_URLIPRange test_nested))
        with (snd (@UnmarshalCaddyfile lib zero_URLIPRange
                     (caddyfile.mkDispenser
                        ([tok "{" 1]
                         ++ block_of "list" 2 test_entries 6
                         ++ [tok "other_module" 7; tok "10h" 7; tok "}" 8])
                        (Z.of_nat (length [tok "{" 1]) - 1) 0))).
      rewrite Hsnd by (vm_compute; reflexivity).
      vm_compute. reflexivity.
Defined.

(** [interval] without a value behind a [url] directive. *)
Lemma UnmarshalCaddyfile_missing_argument_witness :
  fst (@UnmarshalCaddyfile lib zero_URLIPRange
         (caddyfile.NewDispenser
            [tok "list" 1; tok "{" 1; tok "url" 2; tok url 2;
             tok "interval" 3; tok "}" 4]))
  = (Some ErrArg, @mkURLIPRange lib [url] 0 0 0 "" []).
Proof.
  apply (@UnmarshalCaddyfile_missing_argument lib zero_URLIPRange []
           [tok "}" 4] "list" "interval" 1 3 0 [mkEntry "url" url 2]).
  - repeat constructor; discriminate.
  - discriminate.
  - discriminate.
  - intros t Hhd. inversion Hhd; subst t. simpl. lia.
Defined.

(** [list fast { }]. *)
Lemma UnmarshalCaddyfile_same_line_argument_witness :
  fst (@UnmarshalCaddyfile lib zero_URLIPRange same_line)
  = (Some ErrArg, zero_URLIPRange).
Proof.
  apply (@UnmarshalCaddyfile_same_line_argument lib zero_URLIPRange same_line
           [] [tok "{" 1; tok "}" 2] (tok "list" 1) (tok "fast" 1)).
  - reflexivity.
  - reflexivity.
  - simpl. lia.
  - discriminate.
Defined.

(** Two sources and nothing else. *)
Lemma url_block_defaults_witness :
  snd (fst (@UnmarshalCaddyfile lib zero_URLIPRange
              (caddyfile.NewDispenser
                 [tok "list" 1; tok "{" 1; tok "url" 2; tok url1 2;
                  tok "url" 3; tok url2 3; tok "}" 4])))
  = @mkURLIPRange lib [url1; url2] 0 0 0 "" [].
Proof.
  destruct (@url_block_defaults lib [url1; url2] 1 4) as (_ & Hm & _).
  - repeat constructor; discriminate.
  - exact Hm.
Defined.

(** [interval -1h] and [timeout 0s]. *)
Lemma durations_are_not_validated_witness :
  fst (fst (@UnmarshalCaddyfile lib zero_URLIPRange
              (caddyfile.NewDispenser
                 [tok "list" 1; tok "{" 1; tok "interval" 2; tok "-1h" 2;
                  tok "timeout" 3; tok "0s" 3; tok "}" 4]))) = None
  /\ snd (@refreshLoop_ticker lib
            (snd (fst (@UnmarshalCaddyfile lib zero_URLIPRange
                         (caddyfile.NewDispenser
                            [tok "list" 1; tok "{" 1;
                             tok "interval" 2; tok "-1h" 2;
                             tok "timeout" 3; tok "0s" 3; tok "}" 4])))))
     = TickerPanic.
Proof.
  destruct (@durations_are_not_validated lib zero_URLIPRange "-1h" "0s"
              (-3600000000000) 0 1 4)
    as (Hnone & _ & _ & Hticker & _).
  - vm_compute. reflexivity.
  - vm_compute. reflexivity.
  - discriminate.
  - discriminate.
  - split; [exact Hnone | exact Hticker].
Defined.

(** The response that is cut off: the second version returned its
    first line as a success, the present one reports the read error;
    with one retry it asks again and returns the whole list. *)
Lemma fetch_v2_ignored_scanner_error_witness :
  (@Earlier.fetch_v2 lib sOnce url wCut
   = (Ok [mkPrefix4 [10; 0; 0; 0] 8], after_attempts wCut url 1 0)
   /\ @fetch lib sOnce url wCut
      = (Err (ErrAfterRetries 0 (Some cut_off)), after_attempts wCut url 1 0))
  /\ (@Earlier.fetch_v2 lib sL url wCutThenWhole
      = (Ok [mkPrefix4 [10; 0; 0; 0] 8],
         after_attempts wCutThenWhole url 1 0)
      /\ @fetch lib sL url wCutThenWhole
         = (Ok [mkPrefix4 [10; 0; 0; 0] 8; mkPrefix4 [172; 16; 0; 0] 12],
            after_attempts wCutThenWhole url 2 1)).
Proof.
  split.
  - destruct (@fetch_v2_ignored_scanner_error lib sOnce url wCut)
      as [_ Hcut].
    destruct (Hcut 200 (mkBody ("10.0.0.0/8" +:+ NL) (Some cut_off))
                   ["10.0.0.0/8"] cut_off [mkPrefix4 [10; 0; 0; 0] 8])
      as (Hv2 & Hnow & _).
    + simpl. lia.
    + reflexivity.
    + reflexivity.
    + lia.
    + vm_compute. reflexivity.
    + vm_compute. reflexivity.
    + split; [exact Hv2 | apply Hnow; reflexivity].
  - destruct (@fetch_v2_ignored_scanner_error lib sL url wCutThenWhole)
      as [_ Hcut].
    destruct (Hcut 200 (mkBody ("10.0.0.0/8" +:+ NL) (Some cut_off))
                   ["10.0.0.0/8"] cut_off [mkPrefix4 [10; 0; 0; 0] 8])
      as (Hv2 & _ & Hretry).
    + simpl. lia.
    + reflexivity.
    + reflexivity.
    + lia.
    + vm_compute. reflexivity.
    + vm_compute. reflexivity.
    + split; [exact Hv2|].
      destruct Hretry as (_ & _ & Hsecond); [simpl; lia|].
      apply Hsecond.
      apply (suc_intro (H := lib) 200 (text_body whole_list)
               ["10.0.0.0/8"; "172.16.0.0/12"]).
      * lia.
      * vm_compute. reflexivity.
      * vm_compute. reflexivity.
Defined.

(** Scenario C: the first version parsed the body [fail] of the
    response with status 500 and returned the error of the parser. *)
Lemma fetch_v1_ignored_status_witness :
  (exists e, fst (@Earlier.fetch_v1 lib url wC) = Err e
             /\ @CIDRExpressionToPrefix lib "fail" = Err e)
  /\ fst (@fetch lib sOnce url wC)
     = Err (ErrAfterRetries 0 (Some (ErrHTTPStatus url 500))).
Proof.
  destruct (@fetch_v1_ignored_status lib sOnce url wC eq_refl eq_refl)
    as [_ [_ Hstatus]].
  destruct (Hstatus 500 (text_body "fail")) as [Hv1 Hnow].
  - reflexivity.
  - right. lia.
  - split.
    + eexists. rewrite Hv1. split; vm_compute; reflexivity.
    + rewrite Hnow. reflexivity.
Defined.

(** [TestRetriesProvision] and [TestRetriesProvisionAllFail]: the error
    of the second test wraps the status of the third and last attempt. *)
Lemma Provision_with_retries_witness :
  (fst (fst (@Provision lib sB wB)) = None
   /\ requests_between wB (snd (@Provision lib sB wB)) = 3)
  /\ (fst (fst (@Provision lib sB wC))
      = Some (ErrProvision
                (ErrAfterRetries 2 (Some (ErrHTTPStatus url 500)))
                (ErrNotExist
                   (filepath.Join "/var/lib/caddy" (cache_name [url]))))
      /\ requests_between wC (snd (@Provision lib sB wC)) = 3).
Proof.
  split.
  - destruct (@Provision_with_retries lib sB url wB eq_refl) as [Hok _];
      [simpl; lia | reflexivity |].
    destruct (Hok 2%nat [mkPrefix4 [192; 0; 2; 1] 32])
      as (Hnone & _ & Hreq).
    + simpl. lia.
    + intros i Hi. exists (ErrHTTPStatus url 500). left.
      destruct i as [|[|i]]; [| | lia];
        apply (tsf_status url 500 (text_body "fail")); lia.
    + apply (suc_intro (H := lib) 200
               (text_body ("192.0.2.1/32" +:+ NL)) ["192.0.2.1/32"]).
      * lia.
      * reflexivity.
      * reflexivity.
    + split; [exact Hnone | exact Hreq].
  - destruct (@Provision_with_retries lib sB url wC eq_refl) as [_ Hfail];
      [simpl; lia | reflexivity |].
    destruct (Hfail (filepath.Join "/var/lib/caddy" (cache_name [url])))
      as ((last & Hlast & Herr) & Hreq).
    + intros i. exists (ErrHTTPStatus url 500). left.
      unfold outcome_at. cbn [w_env wC world env_http peer].
      destruct (requests_to wC url + i)%nat;
        apply (tsf_status url 500 (text_body "fail")); lia.
    + reflexivity.
    + reflexivity.
    + vm_compute. reflexivity.
    + split; [| exact Hreq].
      change (outcome_at wC url (Z.to_nat (Retries sB))) with http500
        in Hlast.
      destruct Hlast as [Hstatus | Hscanner].
      * inversion Hstatus; subst. exact Herr.
      * inversion Hscanner; lia.
Defined.

(** The input [url] of [TestDefault]. *)
Lemma UnmarshalCaddyfile_without_block_witness :
  fst (@UnmarshalCaddyfile lib zero_URLIPRange
         (caddyfile.NewDispenser [tok "url" 1]))
  = (None, zero_URLIPRange).
Proof.
  rewrite (@UnmarshalCaddyfile_without_block lib zero_URLIPRange
             (caddyfile.NewDispenser [tok "url" 1]) [] [] (tok "url" 1)).
  - reflexivity.
  - reflexivity.
  - reflexivity.
  - intros t Hhd. discriminate.
Defined.

(** The lines of scenario A, and those of the response with a
    malformed second line. *)
Lemma scanLoop_in_order_witness :
  @scanLoop lib ["10.0.0.0/8 # note"; ""; "172.16.0.0/12"] []
  = Ok [mkPrefix4 [10; 0; 0; 0] 8; mkPrefix4 [172; 16; 0; 0] 12]
  /\ exists e,
       @scanLoop lib ["10.0.0.0/8"; "not-a-cidr # oops"; "10.0.0.0/8"] []
       = Err e
       /\ @CIDRExpressionToPrefix lib "not-a-cidr" = Err e.
Proof.
  split.
  - destruct (@scanLoop_in_order lib
                ["10.0.0.0/8 # note"; ""; "172.16.0.0/12"] [])
      as [Hgood _].
    rewrite Hgood; [vm_compute; reflexivity|].
    repeat (apply List.Forall_cons;
            [apply well_formed_checked; vm_compute; reflexivity|]).
    apply List.Forall_nil.
  - destruct (@scanLoop_in_order lib
                ["10.0.0.0/8"; "not-a-cidr # oops"; "10.0.0.0/8"] [])
      as [_ Hbad].
    assert (Hcidr : exists e,
               @CIDRExpressionToPrefix lib "not-a-cidr" = Err e)
      by (eexists; vm_compute; reflexivity).
    destruct Hcidr as [e Hcidr]. exists e. split; [| exact Hcidr].
    apply (Hbad ["10.0.0.0/8"] "not-a-cidr # oops" ["10.0.0.0/8"]).
    + reflexivity.
    + apply List.Forall_cons; [| apply List.Forall_nil].
      apply well_formed_checked. vm_compute. reflexivity.
    + unfold parseLine.
      replace (TrimSpace (stripComment "not-a-cidr # oops"))
        with "not-a-cidr" by (vm_compute; reflexivity).
      cbn [String.eqb Ascii.eqb Bool.eqb]. rewrite Hcidr. reflexivity.
Defined.

End MoreWitnesses.
